(** * Population-based optimizers of [topics/optimizers.ipynb]

    A shallow embedding of the two routines [minimize_de] (differential
    evolution) and [minimize_pso] (particle swarm optimization) and the
    properties their description states about them, followed by the
    functions of the notebook on gradients that compute without a library:
    the function with a branch, the constrained Rosenbrock problem and the
    polynomial model.

    Modelling choices.
    - A float is an exact rational ([Q]): rounding is outside the model.
      A vector (1-d array) is a [list Q], a matrix (2-d array) a list of
      rows.  Only the bounds, as the caller passes them, may hold the
      non-finite floats; [np.random.uniform] refuses them, and a range
      beyond the doubles, before anything is computed from them.
    - The global numpy generator is a tape of raw draws with a cursor: every
      draw reads the tape and moves the cursor.  All statements quantify
      over the tape, that is over every outcome of the random choices.
    - The code runs in a state-and-exception monad over a [world] holding
      the generator and the number of calls made to the objective.
    - Row assignment [A[i] = v] copies [v] into row [i]; [A[i]] on the right
      of [=] binds a view.  The only view that outlives a statement is
      [x_swarm] of [minimize_pso]; it is modelled as a reference.
    - [bounds] is taken apart into its two sequences [lower] and [upper],
      each a Python list or a numpy array; numpy broadcasts them where the
      code uses them.  The population size [n] is a natural number, [steps]
      an integer.
    - The objective is a Python callable, called on vectors (1-d arrays) and,
      in [function(population)] and [function(X)], on a matrix (2-d array).
      On a vector it returns a number.  What it returns on a matrix is its
      own affair: the values of the rows when it is written along the last
      axis, as [some_function] of the notebook is, one number or anything
      else when it is not.
    - [np.random.choice(a, size, replace=False)] takes the elements one by
      one out of the pool, each at a position drawn in the rest.
    - [itertools.combinations] and [combinations_with_replacement] are
      lists in the order of the iterators; [degree] is a natural number. *)

From Stdlib Require Import QArith Qround Qminmax Qabs Lia Lqa ZArith Sorted.
From stdpp Require Import base list.

(** ** Rationals: executable comparison and fractional part *)

Definition Qltb (x y : Q) : bool :=
  match (x ?= y)%Q with Lt => true | _ => false end.

Definition frac (q : Q) : Q := (q - inject_Z (Qfloor q))%Q.

Abbreviation vec := (list Q).
Abbreviation matrix := (list (list Q)).

(** ** The monad: generator state, call counter, exceptions *)

Inductive exn := ValueError | IndexError | TypeError | OverflowError.

Inductive outcome (A : Type) :=
| Ok (a : A)
| Raise (e : exn).
Arguments Ok {A} a.
Arguments Raise {A} e.

Record world := World {
  tape : nat -> Q;     (* raw draws of the generator *)
  cursor : nat;        (* next draw *)
  calls : nat          (* calls made to the objective so far *)
}.

Definition M (A : Type) : Type := world -> outcome A * world.

Definition ret {A} (a : A) : M A := fun w => (Ok a, w).

Definition raise {A} (e : exn) : M A := fun w => (Raise e, w).

Definition bind {A B} (m : M A) (k : A -> M B) : M B :=
  fun w => match m w with
           | (Ok a, w') => k a w'
           | (Raise e, w') => (Raise e, w')
           end.

Notation "x <- m ;; k" := (bind m (fun x => k))
  (at level 100, m at next level, right associativity).

Definition lift {A} (o : outcome A) : M A := fun w => (o, w).

Fixpoint mapM {A B} (f : A -> M B) (l : list A) : M (list B) :=
  match l with
  | [] => ret []
  | a :: l' => b <- f a ;; bs <- mapM f l' ;; ret (b :: bs)
  end.

Fixpoint replicateM {A} (n : nat) (m : M A) : M (list A) :=
  match n with
  | O => ret []
  | S n' => a <- m ;; l <- replicateM n' m ;; ret (a :: l)
  end.

(** [for a in l: s = body(s, a)] *)
Fixpoint foldM {A St} (body : St -> A -> M St) (l : list A) (s : St) : M St :=
  match l with
  | [] => ret s
  | a :: l' => s' <- body s a ;; foldM body l' s'
  end.

(** [k] runs of a loop body, one after the other. *)
Fixpoint iterM {St} (k : nat) (body : St -> M St) (s : St) : M St :=
  match k with
  | O => ret s
  | S k' => s' <- body s ;; iterM k' body s'
  end.

(** [for _ in range(steps)]: a negative [steps] gives the empty range. *)
Definition for_range {St} (steps : Z) (body : St -> M St) (s : St) : M St :=
  iterM (Z.to_nat steps) body s.

(** ** The bounds as the caller passes them *)

(** A float of a bound: a number, or one of the non-finite values. *)
Inductive float := Finite (q : Q) | PosInf | NegInf | NaN.

(** [lower] and [upper] after [lower, upper = bounds]: the rows of a 2-d
    array, or the lists of a nested list. *)
Inductive container := PyList | NdArray.

Record sequence := Sequence { container_of : container; items : list float }.

(** A Python list and a numpy array of numbers. *)
Definition pylist (v : vec) : sequence :=
  {| container_of := PyList; items := map Finite v |}.

Definition ndarray (v : vec) : sequence :=
  {| container_of := NdArray; items := map Finite v |}.

(** The numbers of a sequence.  The first statement of either routine that
    looks at the bounds is [np.random.uniform(lower, upper, ...)], which
    returns only when they are finite ([uniform_accepts] below); what is
    computed later is computed from these numbers.  A sequence is read as
    the vector of its numbers wherever a vector is expected. *)
Definition rational (x : float) : Q :=
  match x with Finite q => q | _ => 0%Q end.

Definition rationals (s : sequence) : vec := map rational (items s).

Coercion rationals : sequence >-> list.

(** [np.isfinite(x - y)] for two doubles: both are numbers, and their
    difference, rounded to the nearest double, is not an infinity, that is,
    it is less than [2^1024 - 2^970] in absolute value. *)
Definition double_limit : Q := inject_Z (2 ^ 1024 - 2 ^ 970).

Definition finite_difference (x y : float) : bool :=
  match x, y with
  | Finite a, Finite b => Qltb (Qabs (a - b)) double_limit
  | _, _ => false
  end.

(** Neither of the two is a numpy array. *)
Definition both_lists (a b : sequence) : bool :=
  match container_of a, container_of b with
  | PyList, PyList => true
  | _, _ => false
  end.

(** ** numpy *)

(** [np.random.random_sample()]: a float of [[0, 1)]. *)
Definition random_sample : M Q :=
  fun w => (Ok (frac (tape w (cursor w))),
            {| tape := tape w; cursor := S (cursor w); calls := calls w |}).

(** [np.random.rand(d)] *)
Definition rand (d : nat) : M vec := replicateM d random_sample.

(** One sample of [np.random.uniform(low, high)]: [low + (high - low) * u]. *)
Definition uniform1 (low high : Q) : M Q :=
  u <- random_sample ;; ret (low + (high - low) * u)%Q.

(** Broadcasting of a 1-d array against a last axis of length [d]. *)
Definition broadcast_to (v : vec) (d : nat) : outcome vec :=
  if (length v =? d)%nat then Ok v
  else match v with
       | [x] => Ok (replicate d x)
       | _ => Raise ValueError
       end.

(** The sampling loop of [np.random.uniform], [cont(&random_uniform, ...,
    size, low, range)], for [size=(n, d)] and 1-d bounds: the bounds are
    broadcast against the last axis; the samples are drawn in row-major
    order. *)
Definition cont_uniform (low high : vec) (n d : nat) : M matrix :=
  lo <- lift (broadcast_to low d) ;;
  hi <- lift (broadcast_to high d) ;;
  replicateM n (mapM (fun b => uniform1 b.1 b.2) (zip lo hi)).

(** Two 1-d arrays broadcast against each other: the pairs of entries. *)
Definition broadcast_pairs {A B} (x : list A) (y : list B)
    : outcome (list (A * B)) :=
  if (length x =? length y)%nat then Ok (zip x y)
  else match x, y with
       | [a], _ => Ok (map (fun b => (a, b)) y)
       | _, [b] => Ok (map (fun a => (a, b)) x)
       | _, _ => Raise ValueError
       end.

(** [np.random.uniform(low, high, size=(n, d))] with 1-d [low] and [high],
    lists or arrays: [range = np.subtract(high, low)] has to broadcast
    ([ValueError]) and to be finite everywhere ([OverflowError: Range
    exceeds valid bounds]); then the samples are drawn. *)
Definition uniform (low high : list float) (n d : nat) : M matrix :=
  range <- lift (broadcast_pairs high low) ;;
  if forallb (fun p : float * float => finite_difference p.1 p.2) range
  then cont_uniform (map rational low) (map rational high) n d
  else raise OverflowError.

(** [np.random.uniform(low, high, size=d)] with scalar bounds. *)
Definition uniform_scalar (low high : Q) (d : nat) : M vec :=
  replicateM d (uniform1 low high).

(** An integer of [range(m)] from one draw ([0] when [m = 0]). *)
Definition randbelow (m : nat) : M nat :=
  u <- random_sample ;; ret (Z.to_nat (Qfloor (u * inject_Z (Z.of_nat m)))).

(** Sampling [k] elements without replacement: draw a position of the
    pool, take the element out, go on with the rest. *)
Fixpoint sample {A} (k : nat) (pool : list A) : M (list A) :=
  match k with
  | O => ret []
  | S k' =>
      i <- randbelow (length pool) ;;
      match pool !! i with
      | Some a => l <- sample k' (delete i pool) ;; ret (a :: l)
      | None => raise ValueError
      end
  end.

(** [np.random.choice(a, size=size, replace=False)]: a [ValueError] when the
    sample is larger than the population. *)
Definition choice {A} (a : list A) (size : nat) : M (list A) :=
  if (length a <? size)%nat then raise ValueError else sample size a.

(** Elementwise arithmetic on rows of one matrix (equal lengths). *)
Definition vadd (x y : vec) : vec := zip_with Qplus x y.
Definition vsub (x y : vec) : vec := zip_with Qminus x y.
Definition vmul (x y : vec) : vec := zip_with Qmult x y.
Definition vscale (x : vec) (c : Q) : vec := map (fun a => (a * c)%Q) x.
Definition scalev (c : Q) (x : vec) : vec := map (fun a => (c * a)%Q) x.

(** The common length of two broadcast 1-d arrays. *)
Definition bshape (a b : nat) : outcome nat :=
  if (a =? b)%nat then Ok a
  else if (a =? 1)%nat then Ok b
  else if (b =? 1)%nat then Ok a
  else Raise ValueError.

(** A binary elementwise operation on two 1-d arrays, with broadcasting. *)
Definition zip_with_b (f : Q -> Q -> Q) (x y : vec) : outcome vec :=
  match bshape (length x) (length y) with
  | Ok s =>
      match broadcast_to x s, broadcast_to y s with
      | Ok x', Ok y' => Ok (zip_with f x' y')
      | _, _ => Raise ValueError
      end
  | Raise e => Raise e
  end.

(** [upper - lower] on the bounds: elementwise, with broadcasting, as soon
    as one of the two is a numpy array; two Python lists have no [-]
    ([TypeError]). *)
Definition sub (a b : sequence) : outcome vec :=
  if both_lists a b then Raise TypeError else zip_with_b Qminus a b.

(** [np.clip(x, lower, upper)] is [minimum(maximum(x, lower), upper)]. *)
Definition clip (x lower upper : vec) : outcome vec :=
  match zip_with_b Qmax x lower with
  | Ok m => zip_with_b Qmin m upper
  | Raise e => Raise e
  end.

(** [np.where(cond, x, y)] *)
Definition where_ (cond : list bool) (x y : vec) : vec :=
  zip_with (fun (c : bool) (b : Q * Q) => if c then b.1 else b.2) cond (zip x y).

(** [r < c] for an array [r] and a scalar [c]. *)
Definition vlt (r : vec) (c : Q) : list bool := map (fun u => Qltb u c) r.

(** [np.argmin(a)] of a 1-d array: the first index holding the minimum; a
    [ValueError] on an empty array. *)
Fixpoint argmin_from (best : nat) (vbest : Q) (i : nat) (l : list Q) : nat :=
  match l with
  | [] => best
  | v :: l' =>
      if Qltb v vbest then argmin_from i v (S i) l'
      else argmin_from best vbest (S i) l'
  end.

Definition argmin (a : list Q) : outcome nat :=
  match a with
  | [] => Raise ValueError
  | v :: l => Ok (argmin_from 0 v 1 l)
  end.

(** [A[i]] for reading: an [IndexError] out of range. *)
Definition row (A : matrix) (i : nat) : outcome vec :=
  match A !! i with
  | Some r => Ok r
  | None => Raise IndexError
  end.

(** [list.remove(x)]: drops the first occurrence, [ValueError] if absent. *)
Fixpoint list_remove (x : nat) (l : list nat) : outcome (list nat) :=
  match l with
  | [] => Raise ValueError
  | y :: l' =>
      if (y =? x)%nat then Ok l'
      else match list_remove x l' with
           | Ok r => Ok (y :: r)
           | Raise e => Raise e
           end
  end.

(** ** The objective *)

(** The callable [function]: the number it returns on a vector, and what it
    returns on a matrix, as [np.argmin] reads it: the entries of the
    flattened result (one entry for a number), or the exception raised.  As
    a function, an objective is its value on vectors. *)
Record objective := Objective {
  on_vector :> vec -> Q;
  on_matrix : matrix -> outcome (list Q)
}.

(** An objective written along the last axis, as [np.sum(..., axis=-1)]:
    on a matrix it returns the values of the rows. *)
Definition rowwise (f : vec -> Q) : objective :=
  {| on_vector := f; on_matrix := fun P => Ok (map f P) |}.

(** One call [function(x)] on a vector. *)
Definition call (function : vec -> Q) (x : vec) : M Q :=
  fun w => (Ok (function x),
            {| tape := tape w; cursor := cursor w; calls := S (calls w) |}).

(** One call [function(P)] on a matrix. *)
Definition call_matrix (function : objective) (P : matrix) : M (list Q) :=
  fun w => (on_matrix function P,
            {| tape := tape w; cursor := cursor w; calls := S (calls w) |}).

(** [A[idx]] with an array of indices: a copy of the rows named. *)
Fixpoint take_rows (A : matrix) (idx : list nat) : outcome matrix :=
  match idx with
  | [] => Ok []
  | i :: idx' =>
      match row A i, take_rows A idx' with
      | Ok r, Ok rs => Ok (r :: rs)
      | Raise e, _ => Raise e
      | _, Raise e => Raise e
      end
  end.

(** [U * v] for a matrix [U] and a 1-d array [v]. *)
Fixpoint rows_times (U : matrix) (v : vec) : outcome matrix :=
  match U with
  | [] => Ok []
  | r :: U' =>
      match zip_with_b Qmult r v, rows_times U' v with
      | Ok r', Ok rs => Ok (r' :: rs)
      | Raise e, _ => Raise e
      | _, Raise e => Raise e
      end
  end.

(** ** Differential evolution: [minimize_de] *)

Section DifferentialEvolution.
Variable function : vec -> Q.
Variables lower upper : vec.
Variable n : nat.
Variables mutation crossover : Q.

(** [x_new = x1 + (x2 - x3) * mutation], then [np.clip]. *)
Definition de_mutant (x1 x2 x3 : vec) : outcome vec :=
  clip (vadd x1 (vscale (vsub x2 x3) mutation)) lower upper.

(** [np.where(r < crossover, x_new, x_target)] *)
Definition de_crossover (r x_new x_target : vec) : vec :=
  where_ (vlt r crossover) x_new x_target.

(** The selection: [population[j] = x_new] when the trial is better. *)
Definition de_select (population : matrix) (j : nat)
    (x_new : vec) (f_new f_target : Q) : matrix :=
  if Qltb f_new f_target then <[j := x_new]> population else population.

(** Mutation and cross-over for the target [j]: the trial vector. *)
Definition de_trial (population : matrix) (j : nat) (x_target : vec)
    : M vec :=
  candidates <- lift (list_remove j (seq 0 n)) ;;
  idx <- choice candidates 3 ;;
  picked <- lift (take_rows population idx) ;;
  match picked with
  | [x1; x2; x3] =>
      x_new <- lift (de_mutant x1 x2 x3) ;;
      r <- rand (length lower) ;;
      ret (de_crossover r x_new x_target)
  | _ => raise ValueError
  end.

(** The body of the loop over the individuals, for the target [j]. *)
Definition de_individual (population : matrix) (j : nat) : M matrix :=
  x_target <- lift (row population j) ;;
  x_new <- de_trial population j x_target ;;
  f_new <- call function x_new ;;
  f_target <- call function x_target ;;
  ret (de_select population j x_new f_new f_target).

(** [for j, x_target in enumerate(population)]: one pass. *)
Definition de_pass (population : matrix) : M matrix :=
  foldM de_individual (seq 0 (length population)) population.

End DifferentialEvolution.

(** [best = np.argmin(function(population)); return population[best]]:
    [np.argmin] works on the flattened result of the call. *)
Definition de_best (function : objective) (population : matrix) : M vec :=
  values <- call_matrix function population ;;
  best <- lift (argmin values) ;;
  lift (row population best).

(** [d = len(lower); population = np.random.uniform(lower, upper,
    size=(n, d))] *)
Definition de_init (lower upper : sequence) (n : nat) : M matrix :=
  uniform (items lower) (items upper) n (length lower).

Definition minimize_de (function : objective) (lower upper : sequence)
    (n : nat) (mutation crossover : Q) (steps : Z) : M vec :=
  population <- de_init lower upper n ;;
  population <- for_range steps
                  (de_pass function lower upper n mutation crossover)
                  population ;;
  de_best function population.

(** ** Particle swarm: [minimize_pso] *)

(** What the name [x_swarm] is bound to: a view of a row of [X] (after the
    initialisation) or of a row of [X_best] (after an update). *)
Inductive view :=
| RowOfX (k : nat)
| RowOfXbest (i : nat).

Record swarm := Swarm {
  X : matrix;
  V : matrix;
  X_best : matrix;
  x_swarm : view
}.

(** The array the view shows in the current state. *)
Definition deref (s : swarm) : outcome vec :=
  match x_swarm s with
  | RowOfX k => row (X s) k
  | RowOfXbest i => row (X_best s) i
  end.

Section ParticleSwarm.
Variable function : vec -> Q.
Variables lower upper : vec.
Variable n : nat.
Variables ω φ1 φ2 : Q.

(** [ω * V[i] + r1 * (X_best[i] - X[i]) + r2 * (x_swarm - X[i])] *)
Definition pso_velocity (r1 r2 v x_best x xs : vec) : vec :=
  vadd (vadd (scalev ω v) (vmul r1 (vsub x_best x))) (vmul r2 (vsub xs x)).

(** [V[i] = ...] *)
Definition pso_update_velocity (s : swarm) (i : nat) : M swarm :=
  r1 <- uniform_scalar 0 φ1 (length lower) ;;
  r2 <- uniform_scalar 0 φ2 (length lower) ;;
  v <- lift (row (V s) i) ;;
  x_best <- lift (row (X_best s) i) ;;
  x <- lift (row (X s) i) ;;
  xs <- lift (deref s) ;;
  ret {| X := X s; V := <[i := pso_velocity r1 r2 v x_best x xs]> (V s);
         X_best := X_best s; x_swarm := x_swarm s |}.

(** [X[i] = np.clip(X[i] + V[i], lower, upper)] *)
Definition pso_update_position (s : swarm) (i : nat) : M swarm :=
  x <- lift (row (X s) i) ;;
  v <- lift (row (V s) i) ;;
  x' <- lift (clip (vadd x v) lower upper) ;;
  ret {| X := <[i := x']> (X s); V := V s;
         X_best := X_best s; x_swarm := x_swarm s |}.

(** [if function(X[i]) < function(X_best[i]): X_best[i] = X[i]] *)
Definition pso_update_best (s : swarm) (i : nat) : M swarm :=
  x <- lift (row (X s) i) ;;
  f_x <- call function x ;;
  x_best <- lift (row (X_best s) i) ;;
  f_best <- call function x_best ;;
  ret (if Qltb f_x f_best
       then {| X := X s; V := V s; X_best := <[i := x]> (X_best s);
               x_swarm := x_swarm s |}
       else s).

(** [if function(X_best[i]) < function(x_swarm): x_swarm = X_best[i]] *)
Definition pso_update_swarm (s : swarm) (i : nat) : M swarm :=
  x_best <- lift (row (X_best s) i) ;;
  f_best <- call function x_best ;;
  xs <- lift (deref s) ;;
  f_swarm <- call function xs ;;
  ret (if Qltb f_best f_swarm
       then {| X := X s; V := V s; X_best := X_best s;
               x_swarm := RowOfXbest i |}
       else s).

(** The body of the loop over the particles. *)
Definition pso_particle (s : swarm) (i : nat) : M swarm :=
  s <- pso_update_velocity s i ;;
  s <- pso_update_position s i ;;
  s <- pso_update_best s i ;;
  pso_update_swarm s i.

(** [for i in range(n)]: one pass. *)
Definition pso_pass (s : swarm) : M swarm :=
  foldM pso_particle (seq 0 n) s.

End ParticleSwarm.

(** The statements before the loop.  [np.argmin] works on the flattened
    result of [function(X)]; [X[k]] is a view of row [k]. *)
Definition pso_init (function : objective) (lower upper : sequence) (n : nat)
    : M swarm :=
  X0 <- uniform (items lower) (items upper) n (length lower) ;;
  U <- replicateM n (uniform_scalar (-1) 1 (length lower)) ;;
  span <- lift (sub upper lower) ;;
  V0 <- lift (rows_times U span) ;;
  values <- call_matrix function X0 ;;
  k <- lift (argmin values) ;;
  _ <- lift (row X0 k) ;;
  ret {| X := X0; V := V0; X_best := X0; x_swarm := RowOfX k |}.

Definition minimize_pso (function : objective) (lower upper : sequence)
    (n : nat) (ω φ1 φ2 : Q) (steps : Z) : M vec :=
  s <- pso_init function lower upper n ;;
  s <- for_range steps (pso_pass function lower upper n ω φ1 φ2) s ;;
  lift (deref s).

(** ** The other functions of the notebooks *)

(** Code without generator and objective runs in [outcome] alone. *)
Definition obind {A B} (o : outcome A) (k : A -> outcome B) : outcome B :=
  match o with
  | Ok a => k a
  | Raise e => Raise e
  end.

(** [for a in l: s = body(s, a)] *)
Fixpoint ofold {A St} (body : St -> A -> outcome St) (l : list A) (s : St)
    : outcome St :=
  match l with
  | [] => Ok s
  | a :: l' => obind (body s a) (ofold body l')
  end.

(** [x[i]] on a 1-d numpy array or a list: an [IndexError] out of range. *)
Definition item (x : vec) (i : nat) : outcome Q :=
  match x !! i with
  | Some a => Ok a
  | None => Raise IndexError
  end.

(** [a.sum()] *)
Definition vsum (a : vec) : Q := foldr Qplus 0%Q a.

(** *** A function with a branch *)

Module ControlFlow.

(** [if x < 1: return x / else: return x**2] *)
Definition f (x : Q) : Q := if Qltb x 1 then x else (x ^ 2)%Q.

End ControlFlow.

(** *** The constrained problem given to SLSQP *)

Module Slsqp.

(** [np.sum(100 * (x[1] - x[0]**2)**2 + (1 - x[0])**2)]: the sum of a
    scalar is the scalar.  [x] is the numpy array that
    [scipy.optimize.minimize] passes. *)
Definition rosen (x : vec) : outcome Q :=
  obind (item x 1) (fun x1 =>
  obind (item x 0) (fun x0 =>
  Ok (100 * (x1 - x0 ^ 2) ^ 2 + (1 - x0) ^ 2)%Q)).

Definition ineq (x : vec) : outcome vec :=
  obind (item x 0) (fun x0 =>
  obind (item x 1) (fun x1 =>
  Ok [1 - x0 - 2 * x1; 1 - x0 ^ 2 - x1; 1 - x0 ^ 2 + x1]%Q)).

Definition eq (x : vec) : outcome vec :=
  obind (item x 0) (fun x0 =>
  obind (item x 1) (fun x1 =>
  Ok [2 * x0 + x1 - 1]%Q)).

(** What the call of [scipy.optimize.minimize] asks of a point: the
    equality constraint is zero, the inequality constraints are not
    negative, and the point is within [bounds=[(0, 1), (-0.5, 2.0)]]. *)
Definition satisfies_constraints (x : vec) : Prop :=
  exists e g, eq x = Ok e /\ ineq x = Ok g /\
    Forall (fun v => (v == 0)%Q) e /\ Forall (fun v => (0 <= v)%Q) g.

Definition within_bounds (x : vec) : Prop :=
  exists x0 x1, x = [x0; x1] /\
    (0 <= x0 /\ x0 <= 1 /\ -(1#2) <= x1 /\ x1 <= 2)%Q.

End Slsqp.

(** *** The polynomial model *)

(** [itertools.combinations(pool, r)] *)
Fixpoint it_combinations (pool : list nat) (r : nat) {struct pool}
    : list (list nat) :=
  match r, pool with
  | O, _ => [[]]
  | S r', [] => []
  | S r', a :: pool' =>
      map (cons a) (it_combinations pool' r') ++ it_combinations pool' (S r')
  end.

(** [itertools.combinations_with_replacement(pool, r)] *)
Fixpoint it_combinations_with_replacement_ (r : nat)
    : list nat -> list (list nat) :=
  match r with
  | O => fun _ => [[]]
  | S r' =>
      fix go (pool : list nat) : list (list nat) :=
        match pool with
        | [] => []
        | a :: pool' =>
            map (cons a) (it_combinations_with_replacement_ r' pool) ++ go pool'
        end
  end.

Definition it_combinations_with_replacement (pool : list nat) (r : nat)
    : list (list nat) :=
  it_combinations_with_replacement_ r pool.

(** [range(start, stop)] of naturals *)
Definition range (start stop : nat) : list nat := seq start (stop - start).

(** [combinations]: the parameter [n_features] is assigned [len(x)], where
    [x] is the global variable of the notebook, not an argument; [x] is
    passed here as the first argument.  [chain.from_iterable] puts the
    groups one after the other. *)
Definition combinations (x : vec) (n_features degree : nat)
    (interaction_only include_bias : bool) : list (list nat) :=
  let n_features := length x in
  let comb :=
    if interaction_only then it_combinations
    else it_combinations_with_replacement in
  let start := if negb include_bias then 1 else 0 in
  concat (map (fun i => comb (range 0 n_features) i)
              (range start (degree + 1))).

(** [out[i] *= x[j]] *)
Definition polyn_scale (x : vec) (i : nat) (out : vec) (j : nat)
    : outcome vec :=
  obind (item out i) (fun o =>
  obind (item x j) (fun xj =>
  Ok (<[i := (o * xj)%Q]> out))).

(** The body of [for (i, c) in enumerate(combs)]. *)
Definition polyn_row (x : vec) (out : vec) (ic : nat * list nat)
    : outcome vec :=
  ofold (polyn_scale x ic.1) ic.2 out.

(** [enumerate(l)] *)
Definition enumerate {A} (l : list A) : list (nat * A) :=
  zip (seq 0 (length l)) l.

(** [polyn(x, p, degree, interaction_only, include_bias)], with the global
    [x] of the notebook as [x_global]; [p] is an array of floats, which
    [onp.array(p)] copies.  [x[j]] is read as on a numpy array or a list;
    the combinations name features of the global [x] only, so with an [x]
    of that length or more no read is out of range. *)
Definition polyn (x_global : vec) (x p : vec) (degree : nat)
    (interaction_only include_bias : bool) : outcome Q :=
  let combs :=
    combinations x_global (length x) degree interaction_only include_bias in
  let out := p in
  obind (ofold (polyn_row x) (enumerate combs) out) (fun out =>
  Ok (vsum out)).

(** ** Vocabulary of the properties *)

(** The least value of a list of objective values ([0] for no value). *)
Fixpoint minimum (l : list Q) : Q :=
  match l with
  | [] => 0%Q
  | v :: l' => match l' with [] => v | _ => Qmin v (minimum l') end
  end.

(** [x] is the row of [P] with the least objective, the first one of them. *)
Definition first_min (f : vec -> Q) (P : matrix) (x : vec) : Prop :=
  exists b, P !! b = Some x /\
    (forall i y, P !! i = Some y -> (f x <= f y)%Q) /\
    (forall i y, (i < b)%nat -> P !! i = Some y -> (f x < f y)%Q).

(** No slot of [P'] has a larger objective than the same slot of [P]. *)
Definition slotwise_le (f : vec -> Q) (P P' : matrix) : Prop :=
  length P' = length P /\
  forall i x x', P !! i = Some x -> P' !! i = Some x' -> (f x' <= f x)%Q.

(** The objective evaluates the rows of a matrix: [function(P)] is the
    array of the values of the rows of [P]. *)
Definition vectorised (function : objective) : Prop :=
  forall P, on_matrix function P = Ok (map function P).

(** The bounds have the same length, and [upper[i] - lower[i]] is finite on
    every axis. *)
Definition finite_range (lower upper : sequence) : Prop :=
  Forall2 (fun lo hi => finite_difference hi lo = true)
          (items lower) (items upper).

(** What [np.argmin(function(P))] and [P[best]] raise on a population [P]
    without a row. *)
Definition raised_on_empty (function : objective) : exn :=
  match on_matrix function [] with
  | Raise e => e
  | Ok [] => ValueError
  | Ok (_ :: _) => IndexError
  end.

(** The population at the end of pass [k] of the run of [minimize_de] that
    starts in [w] ([k = 0]: the population drawn at the start). *)
Definition de_after (function : objective) (lower upper : sequence) (n : nat)
    (mutation crossover : Q) (w : world) (k : nat) (P : matrix) : Prop :=
  exists P0 w0 wk,
    de_init lower upper n w = (Ok P0, w0) /\
    iterM k (de_pass function lower upper n mutation crossover) P0 w0
      = (Ok P, wk).

(** The swarm at the end of pass [k] of the run of [minimize_pso] that
    starts in [w]. *)
Definition pso_after (function : objective) (lower upper : sequence) (n : nat)
    (ω φ1 φ2 : Q) (w : world) (k : nat) (s : swarm) : Prop :=
  exists s0 w0 wk,
    pso_init function lower upper n w = (Ok s0, w0) /\
    iterM k (pso_pass function lower upper n ω φ1 φ2) s0 w0 = (Ok s, wk).

(** *** The generator and the counter *)

(** A computation that leaves the number of calls to the objective as it
    found it. *)
Definition same_calls {A} (m : M A) : Prop :=
  forall w, calls (m w).2 = calls w.

(** The generator after one draw, after [k] draws, and the [k] next
    draws. *)
Definition advance (w : world) : world :=
  {| tape := tape w; cursor := S (cursor w); calls := calls w |}.

Definition advance_by (k : nat) (w : world) : world :=
  {| tape := tape w; cursor := cursor w + k; calls := calls w |}.

Definition draws (w : world) (k : nat) : list Q :=
  map (fun i => frac (tape w (cursor w + i))) (seq 0 k).

(** *** Shapes and the box *)

(** Every row has [d] coordinates. *)
Definition well_shaped (d : nat) (P : matrix) : Prop :=
  Forall (fun r : vec => length r = d) P.

(** Every coordinate lies between the bounds of its axis. *)
Definition in_box (lower upper x : vec) : Prop :=
  forall i lo hi xi,
    lower !! i = Some lo -> upper !! i = Some hi -> x !! i = Some xi ->
    (lo <= xi /\ xi <= hi)%Q.

Definition all_in_box (lower upper : vec) (P : matrix) : Prop :=
  Forall (in_box lower upper) P.

(** The bounds of a search domain: one pair per axis, in order. *)
Definition valid_domain (lower upper : vec) : Prop :=
  length upper = length lower /\
  forall i lo hi, lower !! i = Some lo -> upper !! i = Some hi -> (lo <= hi)%Q.

(** The population has [n] rows of as many coordinates as there are axes. *)
Definition de_inv (lower : vec) (n : nat) (P : matrix) : Prop :=
  length P = n /\ well_shaped (length lower) P.

(** Where the view points: inside the swarm. *)
Definition view_in_range (n : nat) (v : view) : Prop :=
  match v with RowOfX k => k < n | RowOfXbest i => i < n end.

(** The three matrices of the swarm have [n] rows of [d] coordinates. *)
Definition pso_inv (d n : nat) (s : swarm) : Prop :=
  length (X s) = n /\ length (V s) = n /\ length (X_best s) = n /\
  well_shaped d (X s) /\ well_shaped d (V s) /\ well_shaped d (X_best s) /\
  view_in_range n (x_swarm s).

Definition swarm_in_box (lower upper : vec) (s : swarm) : Prop :=
  all_in_box lower upper (X s) /\ all_in_box lower upper (X_best s).

(** The invariant of a run on a search domain: shapes and box. *)
Definition pso_good (lower upper : vec) (n : nat) (s : swarm) : Prop :=
  pso_inv (length lower) n s /\ swarm_in_box lower upper s.

(** *** The states of the update of one particle *)

(** The state after the velocity and the position of particle [i] are
    written. *)
Definition pso_moved (s : swarm) (i : nat) (v' x' : vec) : swarm :=
  {| X := <[i := x']> (X s); V := <[i := v']> (V s);
     X_best := X_best s; x_swarm := x_swarm s |}.

(** The state after the personal best of particle [i] is looked at. *)
Definition pso_remembered (f : vec -> Q) (s : swarm) (i : nat) (x' x_best : vec)
    : swarm :=
  if Qltb (f x') (f x_best)
  then {| X := X s; V := V s; X_best := <[i := x']> (X_best s);
          x_swarm := x_swarm s |}
  else s.

(** The state after the best of the swarm is looked at. *)
Definition pso_shared (f : vec -> Q) (s : swarm) (i : nat) (x_best xs : vec)
    : swarm :=
  if Qltb (f x_best) (f xs)
  then {| X := X s; V := V s; X_best := X_best s; x_swarm := RowOfXbest i |}
  else s.

(** While [x_swarm] is a view of a row of [X], that particle has not found
    a better position: its position and its personal best have the same
    objective. *)
Definition alias_inv (f : vec -> Q) (s : swarm) : Prop :=
  match x_swarm s with
  | RowOfX k =>
      exists x b, X s !! k = Some x /\ X_best s !! k = Some b /\ (f x == f b)%Q
  | RowOfXbest _ => True
  end.

(** The invariant of the loops: [x_swarm] shows a row, and the alias is
    harmless. *)
Definition swarm_ok (function : vec -> Q) (s : swarm) : Prop :=
  (exists xs, deref s = Ok xs) /\ alias_inv function s.

(** The objective of what [x_swarm] shows is at most [bound]. *)
Definition swarm_below (function : vec -> Q) (bound : Q) (s : swarm) : Prop :=
  swarm_ok function s /\
  forall xs, deref s = Ok xs -> (function xs <= bound)%Q.

(** What [x_swarm] shows is at least as good as every personal best. *)
Definition swarm_leads (function : vec -> Q) (s : swarm) : Prop :=
  forall xs i b,
    deref s = Ok xs -> X_best s !! i = Some b -> (function xs <= function b)%Q.

(** *** The polynomial model *)

(** The coefficient [o] times the coordinates of [x] that [c] names, in the
    order of [c]; a coordinate that [x] does not have counts as [0]. *)
Definition monomial (x : vec) (o : Q) (c : list nat) : Q :=
  foldl (fun acc j => (acc * default 0 (x !! j))%Q) o c.

(** The terms of the polynomial: coefficient [i] times the coordinates named
    by combination [i]; a coefficient without a combination is a term of its
    own. *)
Definition polyn_terms (x : vec) (combs : list (list nat)) (p : vec) : vec :=
  imap (fun i pi => monomial x pi (default [] (combs !! i))) p.

(** The order of the entries of a combination: strictly increasing for
    [it.combinations], not decreasing for
    [it.combinations_with_replacement]. *)
Definition ascending (strict : bool) (c : list nat) : Prop :=
  if strict then StronglySorted lt c else StronglySorted le c.

(** ** Inputs of the examples *)

(** The objective of the notebook, [np.sum((x - [1, 0, 0])**2, axis=-1)],
    on a vector of three coordinates, the only ones it is given here (numpy
    broadcasts a vector of one coordinate and raises on the other lengths);
    and [np.sum((x - 1)**2, axis=-1)], for any number of coordinates. *)
Definition some_function (x : vec) : Q :=
  foldr Qplus 0%Q (map (fun a => (a * a)%Q) (vsub x [1; 0; 0]%Q)).

Definition parabola (x : vec) : Q :=
  foldr Qplus 0%Q (map (fun a => ((a - 1) * (a - 1))%Q) x).

(** [lambda x: np.sum((x - 1)**2, axis=-1)], written along the last axis. *)
Definition parabola_rows : objective := rowwise parabola.

(** [lambda x: np.sum((x - 1)**2)], the same without [axis]: on a matrix it
    returns one number, the sum over all the entries. *)
Definition parabola_of_all : objective :=
  {| on_vector := parabola;
     on_matrix := fun P => Ok [parabola (concat P)] |}.

(** Two generators: one whose draws go through the multiples of [1/101],
    one whose every draw is [9/10]. *)
Definition tape0 (k : nat) : Q := (inject_Z (Z.of_nat (k * 37 mod 101)) / 101)%Q.
Definition world0 : world := {| tape := tape0; cursor := 0; calls := 0 |}.

Definition world9 : world :=
  {| tape := fun _ => (9#10)%Q; cursor := 0; calls := 0 |}.

(** A population of four individuals in one dimension. *)
Definition pop0 : matrix := [[3]; [-2]; [2]; [0]]%Q.

(** A swarm of three particles, and a particle on its way out of the box. *)
Definition swarm0 : swarm :=
  {| X := [[3]; [-2]; [2]]%Q; V := [[4]; [1]; [-3]]%Q;
     X_best := [[3]; [-2]; [2]]%Q; x_swarm := RowOfX 2 |}.

Definition swarm1 : swarm :=
  {| X := [[3]]%Q; V := [[4]]%Q; X_best := [[3]]%Q; x_swarm := RowOfX 0 |}.

(** A particle that moves from [3] to [-1], where [parabola] has the same
    value. *)
Definition swarm2 : swarm :=
  {| X := [[3]]%Q; V := [[-8]]%Q; X_best := [[3]]%Q; x_swarm := RowOfX 0 |}.

(** * Properties *)

(** ** Rationals *)

Lemma Qltb_lt (x y : Q) : Qltb x y = true <-> (x < y)%Q.
Proof.
  unfold Qltb. rewrite Qlt_alt. destruct (x ?= y)%Q; split; congruence.
Qed.

Lemma Qltb_ge (x y : Q) : Qltb x y = false <-> (y <= x)%Q.
Proof.
  split; intros H.
  - apply Qnot_lt_le. intros Hlt. apply Qltb_lt in Hlt. congruence.
  - destruct (Qltb x y) eqn:E; [|done].
    apply Qltb_lt in E. exfalso. apply (Qlt_not_le _ _ E H).
Qed.

Lemma frac_range (q : Q) : (0 <= frac q /\ frac q < 1)%Q.
Proof.
  unfold frac. pose proof (Qfloor_le q) as H1. pose proof (Qlt_floor q) as H2.
  rewrite inject_Z_plus in H2. change (inject_Z 1) with 1%Q in H2.
  split; lra.
Qed.

Lemma clip1_range (x lo hi : Q) :
  (lo <= hi)%Q -> (lo <= Qmin (Qmax x lo) hi /\ Qmin (Qmax x lo) hi <= hi)%Q.
Proof.
  intros H. split.
  - apply Q.min_glb; [apply Q.le_max_r | done].
  - apply Q.le_min_r.
Qed.

Lemma affine_range (lo hi u : Q) :
  (lo <= hi)%Q -> (0 <= u)%Q -> (u < 1)%Q ->
  (lo <= lo + (hi - lo) * u /\ lo + (hi - lo) * u <= hi)%Q.
Proof.
  intros H H0 H1. split; nra.
Qed.

(** ** The monad *)

Lemma bind_Ok {A B} (m : M A) (k : A -> M B) w b w' :
  bind m k w = (Ok b, w') <->
  exists a w1, m w = (Ok a, w1) /\ k a w1 = (Ok b, w').
Proof.
  unfold bind. split.
  - destruct (m w) as [[a|e] w1]; [eauto | discriminate].
  - intros (a & w1 & -> & H). exact H.
Qed.

Lemma bind_Raise {A B} (m : M A) (k : A -> M B) w e w' :
  m w = (Raise e, w') -> bind m k w = (Raise e, w').
Proof. unfold bind. by intros ->. Qed.

Lemma bind_step {A B} (m : M A) (k : A -> M B) w a w1 :
  m w = (Ok a, w1) -> bind m k w = k a w1.
Proof. unfold bind. by intros ->. Qed.

Lemma ret_Ok {A} (a b : A) w w' : ret a w = (Ok b, w') <-> b = a /\ w' = w.
Proof. unfold ret. split; [by inversion 1 | by intros [-> ->]]. Qed.

Lemma lift_Ok {A} (o : outcome A) a w w' :
  lift o w = (Ok a, w') <-> o = Ok a /\ w' = w.
Proof. unfold lift. split; [by inversion 1 | by intros [-> ->]]. Qed.

(** Inversion of a run that returned. *)
Ltac inv_run :=
  repeat match goal with
  | H : bind _ _ _ = (Ok _, _) |- _ =>
      let a := fresh "a" in let w := fresh "w" in
      let H1 := fresh H in
      apply bind_Ok in H as (a & w & H1 & H)
  | H : ret _ _ = (Ok _, _) |- _ => apply ret_Ok in H as [? ?]; subst
  | H : lift _ _ = (Ok _, _) |- _ => apply lift_Ok in H as [H ?]; subst
  | H : raise _ _ = (Ok _, _) |- _ => discriminate H
  | H : Ok _ = Ok ?a |- _ => is_var a; injection H as <-
  | H : Raise _ = Ok _ |- _ => discriminate H
  end.

Lemma same_calls_bind {A B} (m : M A) (k : A -> M B) :
  same_calls m -> (forall a, same_calls (k a)) -> same_calls (bind m k).
Proof.
  intros Hm Hk w. unfold bind. specialize (Hm w).
  destruct (m w) as [[a|e] w1]; simpl in *; [|done].
  by rewrite Hk.
Qed.

Lemma same_calls_random_sample : same_calls random_sample.
Proof. done. Qed.

Lemma same_calls_replicateM {A} n (m : M A) :
  same_calls m -> same_calls (replicateM n m).
Proof.
  intros Hm. induction n as [|n IH]; simpl; [done|].
  apply same_calls_bind; [done|]. intros a.
  apply same_calls_bind; [done|]. intros l. done.
Qed.

Lemma same_calls_mapM {A B} (f : A -> M B) l :
  (forall a, same_calls (f a)) -> same_calls (mapM f l).
Proof.
  intros Hf. induction l as [|a l IH]; simpl; [done|].
  apply same_calls_bind; [done|]. intros b.
  apply same_calls_bind; [done|]. intros bs. done.
Qed.

Lemma same_calls_uniform1 lo hi : same_calls (uniform1 lo hi).
Proof. apply same_calls_bind; [done|]. intros u. done. Qed.

Lemma same_calls_cont_uniform lo hi n d : same_calls (cont_uniform lo hi n d).
Proof.
  apply same_calls_bind; [done|]. intros lo'.
  apply same_calls_bind; [done|]. intros hi'.
  apply same_calls_replicateM, same_calls_mapM. intros b.
  apply same_calls_uniform1.
Qed.

Lemma same_calls_uniform lo hi n d : same_calls (uniform lo hi n d).
Proof.
  apply same_calls_bind; [done|]. intros range.
  destruct (forallb _ range); [apply same_calls_cont_uniform|done].
Qed.

Lemma same_calls_sample {A} k (pool : list A) : same_calls (sample k pool).
Proof.
  revert pool. induction k as [|k IH]; intros pool; simpl; [done|].
  apply same_calls_bind.
  { apply same_calls_bind; [done|]. intros u. done. }
  intros i. destruct (pool !! i); [|done].
  apply same_calls_bind; [done|]. intros l. done.
Qed.

Lemma same_calls_choice {A} (a : list A) size : same_calls (choice a size).
Proof.
  unfold choice. destruct (length a <? size)%nat; [done|].
  apply same_calls_sample.
Qed.

(** Loops: invariants and composition. *)

Lemma foldM_app {A St} (body : St -> A -> M St) l1 l2 s w :
  foldM body (l1 ++ l2) s w =
  bind (foldM body l1 s) (foldM body l2) w.
Proof.
  revert s w. induction l1 as [|a l1 IH]; intros s w; simpl; [done|].
  unfold bind in *. destruct (body s a w) as [[s1|e] w1]; [|done].
  apply IH.
Qed.

Lemma foldM_invariant {A St} (body : St -> A -> M St) (I : St -> Prop) l :
  (forall s a w s' w', a ∈ l -> I s -> body s a w = (Ok s', w') -> I s') ->
  forall s w s' w', I s -> foldM body l s w = (Ok s', w') -> I s'.
Proof.
  induction l as [|a l IH]; intros Hbody s w s' w' Hs Hrun; simpl in Hrun.
  - inv_run. done.
  - inv_run. eapply IH; [| |exact Hrun].
    + intros s0 a1 w1 s1 w2 Ha. apply (Hbody s0 a1 w1 s1 w2).
      by apply list_elem_of_further.
    + eapply Hbody; [apply list_elem_of_here|exact Hs|exact Hrun0].
Qed.

Lemma foldM_total {A St} (body : St -> A -> M St) (I : St -> Prop) l :
  (forall s a w, a ∈ l -> I s ->
     exists s' w', body s a w = (Ok s', w') /\ I s') ->
  forall s w, I s -> exists s' w', foldM body l s w = (Ok s', w') /\ I s'.
Proof.
  induction l as [|a l IH]; intros Hbody s w Hs; simpl.
  - by exists s, w.
  - destruct (Hbody s a w) as (s1 & w1 & H1 & Hs1);
      [apply list_elem_of_here|done|].
    destruct (IH (fun s a w Ha => Hbody s a w (list_elem_of_further _ _ _ Ha)) s1 w1 Hs1)
      as (s' & w' & H' & Hs').
    exists s', w'. split; [|done].
    by rewrite (bind_step _ _ _ _ _ H1).
Qed.

Lemma iterM_add {St} (body : St -> M St) k1 k2 s w :
  iterM (k1 + k2) body s w = bind (iterM k1 body s) (iterM k2 body) w.
Proof.
  revert s w. induction k1 as [|k1 IH]; intros s w; simpl; [done|].
  unfold bind in *. destruct (body s w) as [[s1|e] w1]; [|done].
  apply IH.
Qed.

Lemma iterM_S_r {St} (body : St -> M St) k s w s' w' :
  iterM (S k) body s w = (Ok s', w') <->
  exists s1 w1, iterM k body s w = (Ok s1, w1) /\ body s1 w1 = (Ok s', w').
Proof.
  replace (S k) with (k + 1) by lia. rewrite iterM_add, bind_Ok. simpl.
  split; intros (s1 & w1 & H1 & H2); exists s1, w1; (split; [exact H1|]).
  - inv_run. exact H0.
  - apply bind_Ok. by exists s', w'.
Qed.

Lemma iterM_invariant {St} (body : St -> M St) (I : St -> Prop) :
  (forall s w s' w', I s -> body s w = (Ok s', w') -> I s') ->
  forall k s w s' w', I s -> iterM k body s w = (Ok s', w') -> I s'.
Proof.
  intros Hbody. induction k as [|k IH]; intros s w s' w' Hs Hrun;
    simpl in Hrun; inv_run; [done|].
  eapply IH; [|exact Hrun]. eapply Hbody; [exact Hs|exact Hrun0].
Qed.

Lemma iterM_total {St} (body : St -> M St) (I : St -> Prop) :
  (forall s w, I s -> exists s' w', body s w = (Ok s', w') /\ I s') ->
  forall k s w, I s -> exists s' w', iterM k body s w = (Ok s', w') /\ I s'.
Proof.
  intros Hbody. induction k as [|k IH]; intros s w Hs; simpl.
  - by exists s, w.
  - destruct (Hbody s w Hs) as (s1 & w1 & H1 & Hs1).
    destruct (IH s1 w1 Hs1) as (s' & w' & H' & Hs').
    exists s', w'. split; [|done]. by rewrite (bind_step _ _ _ _ _ H1).
Qed.

(** A run of [k] passes goes through the states of every shorter run. *)
Lemma iterM_prefix {St} (body : St -> M St) k1 k2 s w s' w' :
  iterM (k1 + k2) body s w = (Ok s', w') ->
  exists s1 w1, iterM k1 body s w = (Ok s1, w1) /\
                iterM k2 body s1 w1 = (Ok s', w').
Proof. rewrite iterM_add. apply bind_Ok. Qed.

Lemma call_Ok f x v w w' :
  call f x w = (Ok v, w') <->
  v = f x /\ w' = {| tape := tape w; cursor := cursor w; calls := S (calls w) |}.
Proof. unfold call. split; [by inversion 1 | by intros [-> ->]]. Qed.

Lemma call_matrix_Ok (f : objective) P v w w' :
  call_matrix f P w = (Ok v, w') <->
  on_matrix f P = Ok v /\
  w' = {| tape := tape w; cursor := cursor w; calls := S (calls w) |}.
Proof. unfold call_matrix. split; [by inversion 1 | by intros [-> ->]]. Qed.

Lemma row_Ok (A : matrix) i r : row A i = Ok r <-> A !! i = Some r.
Proof. unfold row. destruct (A !! i); split; congruence. Qed.

(** ** [np.argmin] *)

Lemma argmin_from_spec (pre l : list Q) best vbest :
  pre !! best = Some vbest ->
  (forall k y, pre !! k = Some y -> (vbest <= y)%Q) ->
  (forall k y, (k < best)%nat -> pre !! k = Some y -> (vbest < y)%Q) ->
  exists m, (pre ++ l) !! argmin_from best vbest (length pre) l = Some m /\
    (forall k y, (pre ++ l) !! k = Some y -> (m <= y)%Q) /\
    (forall k y, (k < argmin_from best vbest (length pre) l)%nat ->
                 (pre ++ l) !! k = Some y -> (m < y)%Q).
Proof.
  revert pre best vbest. induction l as [|v l IH]; intros pre best vbest Hb Hle Hlt.
  - simpl. rewrite app_nil_r. eauto.
  - simpl. replace (pre ++ v :: l) with ((pre ++ [v]) ++ l)
      by (by rewrite <- app_assoc).
    replace (S (length pre)) with (length (pre ++ [v]))
      by (rewrite length_app; simpl; lia).
    destruct (Qltb v vbest) eqn:E.
    + apply Qltb_lt in E. apply IH.
      * rewrite lookup_app_r by lia.
        replace (length pre - length pre) with 0 by lia. done.
      * intros k y Hk. apply lookup_app_Some in Hk as [Hk|[_ Hk]].
        -- apply Hle in Hk. lra.
        -- apply list_lookup_singleton_Some in Hk as [_ <-]. lra.
      * intros k y Hk Hy. apply lookup_app_Some in Hy as [Hy|[Hge _]];
          [|lia]. apply Hle in Hy. lra.
    + apply Qltb_ge in E. apply IH.
      * rewrite lookup_app_l; [done|]. by apply lookup_lt_Some in Hb.
      * intros k y Hk. apply lookup_app_Some in Hk as [Hk|[_ Hk]].
        -- by apply Hle in Hk.
        -- by apply list_lookup_singleton_Some in Hk as [_ <-].
      * intros k y Hk Hy. apply lookup_app_Some in Hy as [Hy|[Hge _]].
        -- by apply (Hlt k).
        -- apply lookup_lt_Some in Hb. lia.
Qed.

Lemma argmin_spec (a : list Q) b :
  argmin a = Ok b ->
  exists m, a !! b = Some m /\
    (forall k y, a !! k = Some y -> (m <= y)%Q) /\
    (forall k y, (k < b)%nat -> a !! k = Some y -> (m < y)%Q).
Proof.
  destruct a as [|v l]; simpl; [discriminate|]. intros [= <-].
  apply (argmin_from_spec [v] l 0 v).
  - done.
  - intros k y Hk. apply list_lookup_singleton_Some in Hk as [_ <-]. lra.
  - intros k y Hk. lia.
Qed.

Lemma argmin_total (a : list Q) : a <> [] -> exists b, argmin a = Ok b.
Proof. destruct a; [done|]. simpl. eauto. Qed.

Lemma rowwise_vectorised (f : vec -> Q) : vectorised (rowwise f).
Proof. by intros P. Qed.

(** What [de_best] returns: the row at the first least entry of what the
    call on the matrix returned. *)
Lemma de_best_Ok (f : objective) P x w w' :
  de_best f P w = (Ok x, w') ->
  exists values best,
    on_matrix f P = Ok values /\ argmin values = Ok best /\
    P !! best = Some x /\
    w' = {| tape := tape w; cursor := cursor w; calls := S (calls w) |}.
Proof.
  unfold de_best. intros H. inv_run.
  apply call_matrix_Ok in H0 as [H0 ->]. apply row_Ok in H.
  by exists a, a0.
Qed.

Lemma first_min_of_values (f : vec -> Q) (P : matrix) best x :
  argmin (map f P) = Ok best -> P !! best = Some x -> first_min f P x.
Proof.
  intros H1 H.
  apply argmin_spec in H1 as (m & Hm & Hle & Hlt).
  rewrite list_lookup_fmap, H in Hm. simpl in Hm. injection Hm as <-.
  exists best. split; [done|]. split.
  - intros i y Hy. apply (Hle i). by rewrite list_lookup_fmap, Hy.
  - intros i y Hi Hy. apply (Hlt i); [done|]. by rewrite list_lookup_fmap, Hy.
Qed.

Lemma de_best_first_min (f : objective) P x w w' :
  vectorised f -> de_best f P w = (Ok x, w') -> first_min f P x.
Proof.
  intros Hf (values & best & Hv & Hb & Hx & _)%de_best_Ok.
  rewrite Hf in Hv. injection Hv as <-.
  by eapply first_min_of_values.
Qed.

Lemma de_best_total (f : objective) (P : matrix) w :
  vectorised f -> P <> [] -> exists x w', de_best f P w = (Ok x, w').
Proof.
  intros Hf HP. unfold de_best.
  destruct (argmin_total (map f P)) as [b Hb]; [by destruct P|].
  destruct (argmin_spec _ _ Hb) as (m & Hm & _).
  rewrite list_lookup_fmap in Hm. destruct (P !! b) as [x|] eqn:Hx; [|done].
  exists x. eexists. unfold bind, call_matrix, lift. rewrite Hf, Hb.
  unfold row. by rewrite Hx.
Qed.

(** ** The least value of a population *)

Lemma minimum_le (l : list Q) y : y ∈ l -> (minimum l <= y)%Q.
Proof.
  induction l as [|v l IH]; intros Hy; [by apply elem_of_nil in Hy|].
  apply elem_of_cons in Hy. simpl. destruct l as [|v' l].
  - destruct Hy as [->|Hy]; [lra | by apply elem_of_nil in Hy].
  - destruct Hy as [->|Hy].
    + apply Q.le_min_l.
    + apply Q.min_le_iff. right. by apply IH.
Qed.

Lemma minimum_attained (l : list Q) :
  l <> [] -> exists y, y ∈ l /\ (y == minimum l)%Q.
Proof.
  induction l as [|v l IH]; intros Hne; [done|]. simpl.
  destruct l as [|v' l].
  - exists v. split; [apply list_elem_of_here | reflexivity].
  - destruct IH as (y & Hy & Hmin); [done|].
    destruct (Q.min_spec v (minimum (v' :: l))) as [[_ H]|[_ H]].
    + exists v. split; [apply list_elem_of_here | by symmetry].
    + exists y. split; [by apply list_elem_of_further|].
      rewrite H. exact Hmin.
Qed.

Lemma slotwise_le_refl f P : slotwise_le f P P.
Proof.
  split; [done|]. intros i x x' H1 H2. rewrite H1 in H2.
  injection H2 as <-. lra.
Qed.

Lemma slotwise_le_trans f P1 P2 P3 :
  slotwise_le f P1 P2 -> slotwise_le f P2 P3 -> slotwise_le f P1 P3.
Proof.
  intros [Hl1 H1] [Hl2 H2]. split; [congruence|].
  intros i x x' Hx Hx'.
  destruct (P2 !! i) as [y|] eqn:Hy.
  - specialize (H1 i x y Hx Hy). specialize (H2 i y x' Hy Hx'). lra.
  - apply lookup_ge_None in Hy. apply lookup_lt_Some in Hx. lia.
Qed.

Lemma slotwise_le_minimum f P P' :
  slotwise_le f P P' -> (minimum (map f P') <= minimum (map f P))%Q.
Proof.
  intros [Hlen H]. destruct P as [|x0 P].
  - destruct P'; [simpl; lra | discriminate].
  - destruct (minimum_attained (map f (x0 :: P))) as (y & Hy & Hmin);
      [done|].
    rewrite <- Hmin.
    apply list_elem_of_lookup in Hy as [i Hi].
    rewrite list_lookup_fmap in Hi.
    destruct ((x0 :: P) !! i) as [x|] eqn:Hx; [|done].
    simpl in Hi. injection Hi as <-.
    destruct (P' !! i) as [x'|] eqn:Hx'.
    + specialize (H i x x' Hx Hx').
      assert (minimum (map f P') <= f x')%Q; [|lra].
      apply minimum_le. apply list_elem_of_lookup. exists i.
      by rewrite list_lookup_fmap, Hx'.
    + apply lookup_ge_None in Hx'. apply lookup_lt_Some in Hx. lia.
Qed.

(** ** Differential evolution: the selection *)

Section DE_selection.
Variable function : vec -> Q.
Variables lower upper : vec.
Variable n : nat.
Variables mutation crossover : Q.

Local Abbreviation trial := (de_trial lower upper n mutation crossover).
Local Abbreviation individual :=
  (de_individual function lower upper n mutation crossover).
Local Abbreviation pass := (de_pass function lower upper n mutation crossover).
Lemma de_individual_Ok P j w P' w' :
  individual P j w = (Ok P', w') ->
  exists x_target x_new w1,
    P !! j = Some x_target /\
    trial P j x_target w = (Ok x_new, w1) /\
    P' = de_select P j x_new (function x_new) (function x_target) /\
    calls w' = S (S (calls w1)).
Proof.
  unfold de_individual. intros H. inv_run.
  apply row_Ok in H0. apply call_Ok in H2 as [-> ->].
  apply call_Ok in H3 as [-> ->].
  exists a, a0, w1. done.
Qed.

Lemma de_select_cases P j x_new x_target :
  ((function x_new < function x_target)%Q /\
    de_select P j x_new (function x_new) (function x_target) = <[j := x_new]> P)
  \/
  (~ (function x_new < function x_target)%Q /\
    de_select P j x_new (function x_new) (function x_target) = P).
Proof.
  unfold de_select.
  destruct (Qltb (function x_new) (function x_target)) eqn:E.
  - left. by apply Qltb_lt in E.
  - right. split; [|done]. apply Qltb_ge in E. by apply Qle_not_lt.
Qed.

Lemma de_individual_length P j w P' w' :
  individual P j w = (Ok P', w') -> length P' = length P.
Proof.
  intros H. apply de_individual_Ok in H as (xt & xn & w1 & _ & _ & -> & _).
  unfold de_select. destruct (Qltb _ _); [apply length_insert | done].
Qed.

(** A slot changes only by a strictly better trial taking it. *)
Lemma de_individual_slot P j w P' w' i x x' :
  individual P j w = (Ok P', w') ->
  P !! i = Some x -> P' !! i = Some x' ->
  x' = x \/ (i = j /\ (function x' < function x)%Q).
Proof.
  intros H Hx Hx'.
  apply de_individual_Ok in H as (xt & xn & w1 & Hj & _ & -> & _).
  destruct (de_select_cases P j xn xt) as [[Hlt E]|[_ E]];
    rewrite E in Hx'.
  - destruct (decide (i = j)) as [->|Hne].
    + right. split; [done|].
      rewrite list_lookup_insert_eq in Hx' by (by apply lookup_lt_Some in Hj).
      injection Hx' as <-. congruence.
    + left. rewrite list_lookup_insert_ne in Hx' by done. congruence.
  - left. congruence.
Qed.

Lemma de_individual_slotwise P j w P' w' :
  individual P j w = (Ok P', w') -> slotwise_le function P P'.
Proof.
  intros H. split; [by eapply de_individual_length|].
  intros i x x' Hx Hx'.
  destruct (de_individual_slot _ _ _ _ _ _ _ _ H Hx Hx') as [->|[_ Hlt]]; lra.
Qed.

Lemma de_fold_slotwise l P w P' w' :
  foldM individual l P w = (Ok P', w') -> slotwise_le function P P'.
Proof.
  apply (foldM_invariant individual (slotwise_le function P)).
  - intros s a w0 s' w0' _ Hs Hrun.
    eapply slotwise_le_trans; [exact Hs|]. by eapply de_individual_slotwise.
  - apply slotwise_le_refl.
Qed.

Lemma de_pass_slotwise P w P' w' :
  pass P w = (Ok P', w') -> slotwise_le function P P'.
Proof. apply de_fold_slotwise. Qed.

Lemma de_passes_slotwise k P w P' w' :
  iterM k pass P w = (Ok P', w') -> slotwise_le function P P'.
Proof.
  apply (iterM_invariant pass (slotwise_le function P)).
  - intros s w0 s' w0' Hs Hrun.
    eapply slotwise_le_trans; [exact Hs|]. by eapply de_pass_slotwise.
  - apply slotwise_le_refl.
Qed.

(** The target [j] of a pass works on the population that the targets
    before it have left. *)
Lemma de_pass_split P j w P' w' :
  j < length P -> pass P w = (Ok P', w') ->
  exists Pj wj Pj' wj',
    foldM individual (seq 0 j) P w = (Ok Pj, wj) /\
    individual Pj j wj = (Ok Pj', wj') /\
    foldM individual (seq (S j) (length P - S j)) Pj' wj' = (Ok P', w').
Proof.
  intros Hj. unfold de_pass.
  replace (length P) with (j + S (length P - S j)) at 1 by lia.
  rewrite seq_app, foldM_app. simpl. intros H.
  apply bind_Ok in H as (Pj & wj & H1 & H2).
  apply bind_Ok in H2 as (Pj' & wj' & H2 & H3).
  by exists Pj, wj, Pj', wj'.
Qed.

End DE_selection.

Lemma minimize_de_Ok (function : objective) (lower upper : sequence) (n : nat)
    (mutation crossover : Q) steps w x w' :
  minimize_de function lower upper n mutation crossover steps w = (Ok x, w') ->
  exists P0 w0 P w1,
    de_init lower upper n w = (Ok P0, w0) /\
    iterM (Z.to_nat steps) (de_pass function lower upper n mutation crossover)
      P0 w0 = (Ok P, w1) /\
    de_best function P w1 = (Ok x, w').
Proof.
  unfold minimize_de, for_range. intros H.
  apply bind_Ok in H as (P0 & w0 & H0 & H).
  apply bind_Ok in H as (P & w1 & H1 & H).
  by exists P0, w0, P, w1.
Qed.

(** ** Claims on the selection of differential evolution *)

(** C9. In a run of [minimize_de] the objective of the individual stored at
    an index never increases: the body of the loop changes a slot only by
    putting a trial of strictly smaller objective at the index of the
    target, so over any part of a pass and over any number of passes no slot
    has a larger objective than before. *)
Theorem de_slot_objective_never_increases
    (function : vec -> Q) (lower upper : vec) (n : nat) (mutation crossover : Q) :
  (forall P j w P' w' i x x',
     de_individual function lower upper n mutation crossover P j w = (Ok P', w') ->
     P !! i = Some x -> P' !! i = Some x' ->
     x' = x \/ (i = j /\ (function x' < function x)%Q)) /\
  (forall targets P w P' w',
     foldM (de_individual function lower upper n mutation crossover) targets P w
       = (Ok P', w') ->
     slotwise_le function P P') /\
  (forall k P w P' w',
     iterM k (de_pass function lower upper n mutation crossover) P w = (Ok P', w') ->
     slotwise_le function P P').
Proof.
  split; [|split].
  - intros P j w P' w' i x x' H. by eapply de_individual_slot.
  - intros targets P w P' w'. apply de_fold_slotwise.
  - intros k P w P' w'. apply de_passes_slotwise.
Qed.

Lemma de_slot_objective_never_increases_witness :
  exists P' w',
    iterM 2 (de_pass parabola [-4]%Q [4]%Q 4 (1#2) (7#10)) pop0 world0 = (Ok P', w') /\
    slotwise_le parabola pop0 P'.
Proof.
  eexists. eexists. split; [vm_compute; reflexivity|].
  eapply (proj2 (proj2 (de_slot_objective_never_increases
                          parabola [-4]%Q [4]%Q 4 (1#2) (7#10))) 2 pop0 world0).
  vm_compute. reflexivity.
Defined.

Lemma de_minimum_step
    (function : vec -> Q) (lower upper : vec) (n : nat) (mutation crossover : Q)
    (P P' : matrix) (w w' : world) :
  de_pass function lower upper n mutation crossover P w = (Ok P', w') ->
  (minimum (map function P') <= minimum (map function P))%Q.
Proof. intros H. apply slotwise_le_minimum. by eapply de_pass_slotwise. Qed.

(** C4. In a run of [minimize_de] that returns, the least objective value
    over the population, seen at the end of each of the [steps] passes,
    never increases: for every pass [k + 1 <= steps], the minimum over the
    population at the end of pass [k + 1] is at most the minimum at the end
    of pass [k] (the population drawn at the start, for [k = 0]). *)
Theorem de_minimum_non_increasing
    (function : objective) (lower upper : sequence) (n : nat)
    (mutation crossover : Q)
    (steps : Z) (w : world) (x : vec) (w' : world) (k : nat) :
  minimize_de function lower upper n mutation crossover steps w = (Ok x, w') ->
  (Z.of_nat k < steps)%Z ->
  exists P P',
    de_after function lower upper n mutation crossover w k P /\
    de_after function lower upper n mutation crossover w (S k) P' /\
    (minimum (map function P') <= minimum (map function P))%Q.
Proof.
  intros H Hk. apply minimize_de_Ok in H as (P0 & w0 & Pf & wf & H0 & H1 & _).
  replace (Z.to_nat steps) with (S k + (Z.to_nat steps - S k)) in H1 by lia.
  apply iterM_prefix in H1 as (P' & w1 & HSk & _).
  pose proof HSk as HSk'.
  apply iterM_S_r in HSk' as (P & wk & Hk' & Hpass).
  exists P, P'. split; [by exists P0, w0, wk|].
  split; [by exists P0, w0, w1|]. by eapply de_minimum_step.
Qed.

Lemma de_minimum_non_increasing_witness :
  exists x w' P P',
    minimize_de parabola_rows (pylist [-4]%Q) (pylist [4]%Q) 4 (1#2) (7#10) 3 world0 = (Ok x, w') /\
    de_after parabola_rows (pylist [-4]%Q) (pylist [4]%Q) 4 (1#2) (7#10) world0 2 P /\
    de_after parabola_rows (pylist [-4]%Q) (pylist [4]%Q) 4 (1#2) (7#10) world0 3 P' /\
    (minimum (map parabola P') <= minimum (map parabola P))%Q.
Proof.
  assert (exists x w',
    minimize_de parabola_rows (pylist [-4]%Q) (pylist [4]%Q) 4 (1#2) (7#10) 3 world0 = (Ok x, w'))
    as (x & w' & H) by (do 2 eexists; vm_compute; reflexivity).
  destruct (de_minimum_non_increasing parabola_rows (pylist [-4]%Q)
              (pylist [4]%Q) 4 (1#2) (7#10) 3 world0 x w' 2 H ltac:(lia))
    as (P & P' & HP & HP' & Hle).
  exists x, w', P, P'. exact (conj H (conj HP (conj HP' Hle))).
Defined.

(** C5, as the code has it: the result is the row at [np.argmin] of one
    call of the objective on the whole population.  For the objective
    [np.sum((x - 1)**2)], which returns one number for a matrix, that is the
    row [0]: below it is [[-4]], of objective [25], although the final
    population holds [[188/101]], of objective less than [1]. *)
Lemma result_is_not_the_minimum :
  exists x w' P0 w0 P w1 y,
    minimize_de parabola_of_all (pylist [-4]%Q) (pylist [4]%Q) 5 (1#2) (7#10)
      1 world0 = (Ok x, w') /\
    de_init (pylist [-4]%Q) (pylist [4]%Q) 5 world0 = (Ok P0, w0) /\
    iterM 1 (de_pass parabola [-4]%Q [4]%Q 5 (1#2) (7#10)) P0 w0
      = (Ok P, w1) /\
    P !! 0 = Some x /\ P !! 2 = Some y /\
    (parabola y < parabola x)%Q /\
    ~ first_min parabola P x.
Proof.
  do 7 eexists.
  split; [vm_compute; reflexivity|]. split; [vm_compute; reflexivity|].
  split; [vm_compute; reflexivity|]. split; [reflexivity|].
  split; [reflexivity|]. split; [vm_compute; reflexivity|].
  intros (b & _ & Hle & _). specialize (Hle 2 _ eq_refl).
  vm_compute in Hle. by apply Hle.
Qed.

(** C5. Selection of [minimize_de]: the individual at the index [j] of the
    target is replaced by the trial exactly when the objective of the trial
    is strictly less than that of the target; the replacement is made in the
    population that the later targets of the same pass work on; and after
    the last pass the routine calls the objective once on the whole
    population and returns the row at the first least entry of what the call
    returned.  When the objective evaluates the rows of a matrix, that row is
    the individual of least objective, the first one of them in the order of
    the population. *)
Theorem de_selection_in_place_and_result
    (function : objective) (lower upper : sequence) (n : nat)
    (mutation crossover : Q) :
  (forall P j w P' w',
     de_individual function lower upper n mutation crossover P j w = (Ok P', w') ->
     exists x_target x_new w1,
       P !! j = Some x_target /\
       de_trial lower upper n mutation crossover P j x_target w = (Ok x_new, w1) /\
       (((function x_new < function x_target)%Q /\ P' = <[j := x_new]> P) \/
        (~ (function x_new < function x_target)%Q /\ P' = P))) /\
  (forall P j w P' w',
     j < length P ->
     de_pass function lower upper n mutation crossover P w = (Ok P', w') ->
     exists Pj wj Pj' wj',
       foldM (de_individual function lower upper n mutation crossover)
         (seq 0 j) P w = (Ok Pj, wj) /\
       de_individual function lower upper n mutation crossover Pj j wj
         = (Ok Pj', wj') /\
       foldM (de_individual function lower upper n mutation crossover)
         (seq (S j) (length P - S j)) Pj' wj' = (Ok P', w')) /\
  (forall steps w x w',
     minimize_de function lower upper n mutation crossover steps w = (Ok x, w') ->
     exists P0 w0 P w1 values best,
       de_init lower upper n w = (Ok P0, w0) /\
       iterM (Z.to_nat steps) (de_pass function lower upper n mutation crossover)
         P0 w0 = (Ok P, w1) /\
       on_matrix function P = Ok values /\
       argmin values = Ok best /\
       P !! best = Some x /\
       (vectorised function -> first_min function P x)).
Proof.
  split; [|split].
  - intros P j w P' w' H.
    apply de_individual_Ok in H as (xt & xn & w1 & Hj & Ht & -> & _).
    exists xt, xn, w1. split; [done|]. split; [done|].
    destruct (de_select_cases function P j xn xt) as [[? ->]|[? ->]]; eauto.
  - intros P j w P' w'. apply de_pass_split.
  - intros steps w x w' H.
    apply minimize_de_Ok in H as (P0 & w0 & P & w1 & H0 & H1 & H2).
    pose proof H2 as (values & best & Hv & Hb & Hx & _)%de_best_Ok.
    exists P0, w0, P, w1, values, best.
    split; [done|]. split; [done|]. split; [done|]. split; [done|].
    split; [done|]. intros Hf. by eapply de_best_first_min.
Qed.

(** In the pass below the target [1] is replaced by [1/2], and the trial of
    the target [2], made of the rows [3], [0] and [1], is
    [0 + (3 - 1/2) * 1/2 = 5/4]: it is computed from the row just replaced. *)
Lemma de_selection_in_place_and_result_witness :
  (exists P' w' Pj wj Pj' wj' c t,
     de_pass parabola [-4]%Q [4]%Q 4 (1#2) (7#10) pop0 world0 = (Ok P', w') /\
     foldM (de_individual parabola [-4]%Q [4]%Q 4 (1#2) (7#10)) (seq 0 2)
       pop0 world0 = (Ok Pj, wj) /\
     de_individual parabola [-4]%Q [4]%Q 4 (1#2) (7#10) Pj 2 wj = (Ok Pj', wj') /\
     pop0 !! 1 = Some [-2]%Q /\
     Pj !! 1 = Some [c] /\ (c == 1#2)%Q /\
     Pj' !! 2 = Some [t] /\ (t == 5#4)%Q) /\
  (exists x w' P0 w0 P w1,
     minimize_de parabola_rows (pylist [-4]%Q) (pylist [4]%Q) 4 (1#2) (7#10)
       2 world0 = (Ok x, w') /\
     de_init (pylist [-4]%Q) (pylist [4]%Q) 4 world0 = (Ok P0, w0) /\
     iterM 2 (de_pass parabola [-4]%Q [4]%Q 4 (1#2) (7#10)) P0 w0 = (Ok P, w1) /\
     first_min parabola P x).
Proof.
  pose proof (de_selection_in_place_and_result
                parabola_rows (pylist [-4]%Q) (pylist [4]%Q) 4 (1#2) (7#10))
    as (_ & Hplace & Hbest).
  split.
  - assert (exists P' w',
      de_pass parabola [-4]%Q [4]%Q 4 (1#2) (7#10) pop0 world0 = (Ok P', w'))
      as (P' & w' & H) by (do 2 eexists; vm_compute; reflexivity).
    destruct (Hplace pop0 2 world0 P' w' ltac:(simpl; lia) H)
      as (Pj & wj & Pj' & wj' & H1 & H2 & _).
    pose proof H1 as E1. vm_compute in E1. injection E1 as <- <-.
    pose proof H2 as E2. vm_compute in E2. injection E2 as <- <-.
    do 8 eexists.
    split; [exact H|]. split; [exact H1|]. split; [exact H2|].
    split; [reflexivity|]. split; [reflexivity|]. split; [reflexivity|].
    split; reflexivity.
  - assert (exists x w',
      minimize_de parabola_rows (pylist [-4]%Q) (pylist [4]%Q) 4 (1#2) (7#10)
        2 world0 = (Ok x, w'))
      as (x & w' & H) by (do 2 eexists; vm_compute; reflexivity).
    destruct (Hbest 2%Z world0 x w' H)
      as (P0 & w0 & P & w1 & values & best & H0 & H1 & _ & _ & _ & Hmin).
    exists x, w', P0, w0, P, w1.
    exact (conj H (conj H0 (conj H1 (Hmin (rowwise_vectorised parabola))))).
Defined.

(** ** The generator *)

Lemma random_sample_Ok u w w' :
  random_sample w = (Ok u, w') <->
  u = frac (tape w (cursor w)) /\ w' = advance w.
Proof. unfold random_sample, advance. split; [by inversion 1 | by intros [-> ->]]. Qed.

Lemma random_sample_range u w w' :
  random_sample w = (Ok u, w') -> (0 <= u /\ u < 1)%Q.
Proof. intros [-> _]%random_sample_Ok. apply frac_range. Qed.

Lemma uniform1_Ok lo hi x w w' :
  uniform1 lo hi w = (Ok x, w') <->
  x = (lo + (hi - lo) * frac (tape w (cursor w)))%Q /\ w' = advance w.
Proof.
  unfold uniform1. rewrite bind_Ok. split.
  - intros (u & w1 & [-> ->]%random_sample_Ok & [-> ->]%ret_Ok). done.
  - intros [-> ->]. eexists _, _. split; [by apply random_sample_Ok|done].
Qed.

Lemma replicateM_Ok {A} (P : A -> Prop) (m : M A) n l w w' :
  (forall w a w', m w = (Ok a, w') -> P a) ->
  replicateM n m w = (Ok l, w') -> length l = n /\ Forall P l.
Proof.
  intros Hm. revert l w. induction n as [|n IH]; intros l w H; simpl in H.
  - inv_run. done.
  - inv_run. apply IH in H1 as [<- HF]. split; [done|].
    constructor; [by eapply Hm | done].
Qed.

Lemma replicateM_total {A} (m : M A) n w :
  (forall w, exists a w', m w = (Ok a, w')) ->
  exists l w', replicateM n m w = (Ok l, w').
Proof.
  intros Hm. revert w. induction n as [|n IH]; intros w; simpl.
  - by eexists _, _.
  - destruct (Hm w) as (a & w1 & H1). destruct (IH w1) as (l & w2 & H2).
    exists (a :: l), w2. unfold bind. by rewrite H1, H2.
Qed.

Lemma mapM_Ok {A B} (R : A -> B -> Prop) (f : A -> M B) l bs w w' :
  (forall a w b w', f a w = (Ok b, w') -> R a b) ->
  mapM f l w = (Ok bs, w') -> Forall2 R l bs.
Proof.
  intros Hf. revert bs w. induction l as [|a l IH]; intros bs w H; simpl in H.
  - inv_run. constructor.
  - inv_run. constructor; [by eapply Hf | by eapply IH].
Qed.

Lemma mapM_total {A B} (f : A -> M B) l w :
  (forall a w, exists b w', f a w = (Ok b, w')) ->
  exists bs w', mapM f l w = (Ok bs, w').
Proof.
  intros Hf. revert w. induction l as [|a l IH]; intros w; simpl.
  - by eexists _, _.
  - destruct (Hf a w) as (b & w1 & H1). destruct (IH w1) as (bs & w2 & H2).
    exists (b :: bs), w2. unfold bind. by rewrite H1, H2.
Qed.

(** ** Shapes and the box *)

Lemma broadcast_to_same (v : vec) : broadcast_to v (length v) = Ok v.
Proof. unfold broadcast_to. by rewrite Nat.eqb_refl. Qed.

Lemma zip_with_b_same f (x y : vec) :
  length x = length y -> zip_with_b f x y = Ok (zip_with f x y).
Proof.
  intros H. unfold zip_with_b, bshape. rewrite H, Nat.eqb_refl.
  rewrite broadcast_to_same. rewrite <- H. by rewrite broadcast_to_same.
Qed.

Lemma clip_same (x lower upper : vec) :
  length x = length lower -> length upper = length lower ->
  clip x lower upper = Ok (zip_with Qmin (zip_with Qmax x lower) upper).
Proof.
  intros Hx Hu. unfold clip. rewrite zip_with_b_same by done.
  apply zip_with_b_same. rewrite length_zip_with. lia.
Qed.

Lemma clip_in_box (x lower upper c : vec) :
  valid_domain lower upper -> length x = length lower ->
  clip x lower upper = Ok c ->
  length c = length lower /\ in_box lower upper c.
Proof.
  intros [Hlen Hle] Hx. rewrite clip_same by done. intros [= <-]. split.
  - rewrite !length_zip_with. lia.
  - intros i lo hi ci Hlo Hhi Hc.
    apply lookup_zip_with_Some in Hc as (m & hi' & -> & Hm & Hhi').
    apply lookup_zip_with_Some in Hm as (xi & lo' & -> & _ & Hlo').
    assert (lo' = lo) as -> by congruence.
    assert (hi' = hi) as -> by congruence.
    apply clip1_range. by eapply Hle.
Qed.

Lemma cont_uniform_rows (lower upper : vec) n P w w' :
  length upper = length lower ->
  cont_uniform lower upper n (length lower) w = (Ok P, w') ->
  length P = n /\ well_shaped (length lower) P /\
  Forall (fun r : vec => forall i lo hi xi,
            lower !! i = Some lo -> upper !! i = Some hi -> r !! i = Some xi ->
            exists u, (0 <= u /\ u < 1)%Q /\ xi = (lo + (hi - lo) * u)%Q) P.
Proof.
  intros Hlen. unfold cont_uniform. rewrite broadcast_to_same.
  pose proof (broadcast_to_same upper) as Hb. rewrite Hlen in Hb. rewrite Hb.
  clear Hb. intros H. inv_run.
  eapply (replicateM_Ok
    (fun r : vec => length r = length lower /\
       forall i lo hi xi,
         lower !! i = Some lo -> upper !! i = Some hi -> r !! i = Some xi ->
         exists u, (0 <= u /\ u < 1)%Q /\ xi = (lo + (hi - lo) * u)%Q)) in H
    as [Hn HF].
  - split; [done|]. split.
    + eapply Forall_impl; [exact HF|]. by intros r [? _].
    + eapply Forall_impl; [exact HF|]. by intros r [_ ?].
  - intros w2 r w2' Hr.
    eapply (mapM_Ok (fun (b : Q * Q) x =>
              exists u, (0 <= u /\ u < 1)%Q /\ x = (b.1 + (b.2 - b.1) * u)%Q)) in Hr.
    + split.
      * apply Forall2_length in Hr. rewrite length_zip in Hr. lia.
      * intros i lo hi xi Hlo Hhi Hxi.
        assert (zip lower upper !! i = Some (lo, hi)) as Hz
          by (by apply lookup_zip_Some).
        exact (Forall2_lookup_lr _ _ _ _ _ _ Hr Hz Hxi).
    + intros b w3 x w3' [-> _]%uniform1_Ok.
      eexists. split; [apply frac_range|done].
Qed.

Lemma cont_uniform_in_box (lower upper : vec) n P w w' :
  valid_domain lower upper ->
  cont_uniform lower upper n (length lower) w = (Ok P, w') ->
  all_in_box lower upper P.
Proof.
  intros [Hlen Hle] H. apply cont_uniform_rows in H as (_ & _ & HF); [|done].
  eapply Forall_impl; [exact HF|]. intros r Hr i lo hi xi Hlo Hhi Hxi.
  destruct (Hr i lo hi xi Hlo Hhi Hxi) as (u & [H0 H1] & ->).
  apply affine_range; [by eapply Hle|done|done].
Qed.

Lemma cont_uniform_total (lower upper : vec) n w :
  length upper = length lower ->
  exists P w', cont_uniform lower upper n (length lower) w = (Ok P, w').
Proof.
  intros Hlen. unfold cont_uniform. rewrite broadcast_to_same.
  pose proof (broadcast_to_same upper) as Hb. rewrite Hlen in Hb. rewrite Hb.
  unfold bind, lift. apply replicateM_total. intros w1.
  apply mapM_total. intros b w2. eexists _, _. by apply uniform1_Ok.
Qed.

(** [np.random.uniform] returns only on bounds whose range is finite, and
    then it is its sampling loop on the numbers of the bounds. *)
Lemma uniform_Ok (low high : list float) n d P w w' :
  uniform low high n d w = (Ok P, w') ->
  (exists range, broadcast_pairs high low = Ok range /\
     forallb (fun p : float * float => finite_difference p.1 p.2) range = true) /\
  cont_uniform (map rational low) (map rational high) n d w = (Ok P, w').
Proof.
  unfold uniform. intros H. apply bind_Ok in H as (range & w1 & H1 & H).
  apply lift_Ok in H1 as [H1 ->].
  destruct (forallb _ range) eqn:E; [|discriminate H].
  split; [by exists range|done].
Qed.

Lemma broadcast_pairs_same {A B} (x : list A) (y : list B) :
  length x = length y -> broadcast_pairs x y = Ok (zip x y).
Proof. intros H. unfold broadcast_pairs. by rewrite H, Nat.eqb_refl. Qed.

Lemma finite_range_length (lower upper : sequence) :
  finite_range lower upper -> length upper = length lower.
Proof.
  intros H. apply Forall2_length in H. unfold rationals.
  rewrite !length_map. done.
Qed.

Lemma finite_range_forallb (lower upper : sequence) :
  finite_range lower upper ->
  forallb (fun p : float * float => finite_difference p.1 p.2)
    (zip (items upper) (items lower)) = true.
Proof.
  unfold finite_range. generalize (items lower) (items upper).
  induction 1 as [|lo hi l u H _ IH]; simpl; [done|]. by rewrite H, IH.
Qed.

Lemma uniform_finite (lower upper : sequence) n d w :
  finite_range lower upper ->
  uniform (items lower) (items upper) n d w = cont_uniform lower upper n d w.
Proof.
  intros H. unfold uniform.
  rewrite broadcast_pairs_same by (symmetry; by eapply Forall2_length).
  unfold bind, lift. by rewrite finite_range_forallb.
Qed.

(** Bounds of equal lengths that [np.random.uniform] has accepted are
    finite: their entries are the numbers that [rationals] reads. *)
Lemma uniform_accepts (lower upper : sequence) n d P w w' :
  length upper = length lower ->
  uniform (items lower) (items upper) n d w = (Ok P, w') ->
  finite_range lower upper /\
  items lower = map Finite lower /\ items upper = map Finite upper.
Proof.
  intros Hlen [(range & Hr & Hf) _]%uniform_Ok.
  unfold rationals in *. rewrite !length_map in Hlen.
  rewrite broadcast_pairs_same in Hr by done. injection Hr as <-.
  unfold finite_range. revert Hlen Hf.
  generalize (items lower) (items upper). intros l u. revert u.
  induction l as [|lo l IH]; intros [|hi u] Hlen Hf; try discriminate Hlen.
  - split; [constructor|done].
  - simpl in Hf. apply andb_prop in Hf as [H1 H2].
    destruct (IH u) as (IH1 & IH2 & IH3); [by injection Hlen|done|].
    split; [by constructor|].
    destruct hi as [a| | |], lo as [b| | |]; try discriminate H1.
    simpl. by rewrite <- IH2, <- IH3.
Qed.

Lemma uniform_rows (lower upper : sequence) n P w w' :
  length upper = length lower ->
  uniform (items lower) (items upper) n (length lower) w = (Ok P, w') ->
  length P = n /\ well_shaped (length lower) P /\
  Forall (fun r : vec => forall i lo hi xi,
            rationals lower !! i = Some lo -> rationals upper !! i = Some hi ->
            r !! i = Some xi ->
            exists u, (0 <= u /\ u < 1)%Q /\ xi = (lo + (hi - lo) * u)%Q) P.
Proof.
  intros Hlen [_ H]%uniform_Ok. exact (cont_uniform_rows _ _ _ _ _ _ Hlen H).
Qed.

Lemma uniform_in_box (lower upper : sequence) n P w w' :
  valid_domain lower upper ->
  uniform (items lower) (items upper) n (length lower) w = (Ok P, w') ->
  all_in_box lower upper P.
Proof.
  intros Hv [_ H]%uniform_Ok. exact (cont_uniform_in_box _ _ _ _ _ _ Hv H).
Qed.

Lemma uniform_total (lower upper : sequence) n w :
  finite_range lower upper ->
  exists P w', uniform (items lower) (items upper) n (length lower) w
               = (Ok P, w').
Proof.
  intros H. rewrite uniform_finite by done.
  apply cont_uniform_total. by apply finite_range_length.
Qed.

Lemma uniform_scalar_Ok lo hi d r w w' :
  uniform_scalar lo hi d w = (Ok r, w') ->
  length r = d /\
  Forall (fun x => exists u, (0 <= u /\ u < 1)%Q /\ x = (lo + (hi - lo) * u)%Q) r.
Proof.
  apply replicateM_Ok. intros w1 x w1' [-> _]%uniform1_Ok.
  eexists. split; [apply frac_range|done].
Qed.

Lemma uniform_scalar_total lo hi d w :
  exists r w', uniform_scalar lo hi d w = (Ok r, w').
Proof.
  apply replicateM_total. intros w1. eexists _, _. by apply uniform1_Ok.
Qed.

Lemma rand_Ok d r w w' :
  rand d w = (Ok r, w') ->
  length r = d /\ Forall (fun u => (0 <= u /\ u < 1)%Q) r.
Proof. apply replicateM_Ok. intros w1 u w1'. apply random_sample_range. Qed.


(** ** Sampling without replacement *)



Lemma sample_Ok {A} k (pool l : list A) w w' :
  sample k pool w = (Ok l, w') ->
  length l = k /\ (forall x, x ∈ l -> x ∈ pool) /\ (NoDup pool -> NoDup l).
Proof.
  revert pool l w. induction k as [|k IH]; intros pool l w H; simpl in H.
  - inv_run. split; [done|]. split; [|constructor].
    intros x Hx. by apply elem_of_nil in Hx.
  - apply bind_Ok in H as (i & w1 & _ & H).
    destruct (pool !! i) as [a|] eqn:Hi; [|discriminate].
    inv_run. apply IH in H0 as (Hlen & Hsub & Hnd).
    split; [simpl; lia|]. split.
    + intros x [->|Hx]%elem_of_cons.
      * by eapply list_elem_of_lookup_2.
      * by eapply list_elem_of_delete_inv, Hsub.
    + intros Hpool. rewrite (delete_Permutation _ _ _ Hi) in Hpool.
      apply NoDup_cons in Hpool as [Hnotin Hpool].
      apply NoDup_cons. split; [|by apply Hnd].
      intros Ha. by apply Hnotin, Hsub.
Qed.


Lemma choice_Ok {A} (a l : list A) size w w' :
  choice a size w = (Ok l, w') ->
  length l = size /\ (forall x, x ∈ l -> x ∈ a) /\ (NoDup a -> NoDup l).
Proof.
  unfold choice. destruct (length a <? size)%nat; [discriminate|].
  apply sample_Ok.
Qed.



(** ** [list.remove] and the indexing by an array *)

Lemma list_remove_Ok x l r :
  list_remove x l = Ok r ->
  S (length r) = length l /\
  (forall y, y ∈ r -> y ∈ l) /\
  (NoDup l -> NoDup r /\ x ∉ r).
Proof.
  revert r. induction l as [|y l IH]; intros r H; simpl in H; [discriminate|].
  destruct (Nat.eqb_spec y x) as [->|Hne].
  - injection H as <-. split; [done|]. split.
    + intros y Hy. by apply list_elem_of_further.
    + intros [? ?]%NoDup_cons. done.
  - destruct (list_remove x l) as [r'|e]; [|discriminate].
    injection H as <-. destruct (IH r' eq_refl) as (Hlen & Hsub & Hnd).
    split; [simpl; lia|]. split.
    + intros z [->|Hz]%elem_of_cons; [apply list_elem_of_here|].
      by apply list_elem_of_further, Hsub.
    + intros [Hy Hl]%NoDup_cons. destruct (Hnd Hl) as [Hr Hx]. split.
      * apply NoDup_cons. split; [|done]. intros Hin. by apply Hy, Hsub.
      * intros [->|Hin]%elem_of_cons; [done|]. by apply Hx.
Qed.

Lemma list_remove_keeps x l r y :
  list_remove x l = Ok r -> y ∈ l -> y <> x -> y ∈ r.
Proof.
  revert r. induction l as [|z l IH]; intros r H Hy Hne; simpl in H;
    [discriminate|].
  destruct (Nat.eqb_spec z x) as [->|Hzx].
  - injection H as <-. apply elem_of_cons in Hy as [->|Hy]; done.
  - destruct (list_remove x l) as [r'|e]; [|discriminate].
    injection H as <-. apply elem_of_cons in Hy as [->|Hy].
    + apply list_elem_of_here.
    + apply list_elem_of_further. by apply IH.
Qed.


Lemma take_rows_Ok (A : matrix) idx rows :
  take_rows A idx = Ok rows ->
  Forall2 (fun i r => A !! i = Some r) idx rows.
Proof.
  revert rows. induction idx as [|i idx IH]; intros rows H; simpl in H.
  - injection H as <-. constructor.
  - destruct (row A i) as [r|e] eqn:Hr; [|discriminate].
    destruct (take_rows A idx) as [rs|e]; [|discriminate].
    injection H as <-. apply row_Ok in Hr. constructor; [done|]. by apply IH.
Qed.


(** ** Differential evolution: the trial vector *)

Lemma where_lookup (cond : list bool) (x y : vec) i v :
  where_ cond x y !! i = Some v <->
  exists (c : bool) xi yi,
    cond !! i = Some c /\ x !! i = Some xi /\ y !! i = Some yi /\
    v = if c then xi else yi.
Proof.
  unfold where_. rewrite lookup_zip_with_Some. split.
  - intros (c & [xi yi] & -> & Hc & [Hx Hy]%lookup_zip_Some).
    by exists c, xi, yi.
  - intros (c & xi & yi & Hc & Hx & Hy & ->).
    exists c, (xi, yi). split; [done|]. split; [done|].
    by apply lookup_zip_Some.
Qed.

Lemma where_length (cond : list bool) (x y : vec) d :
  length cond = d -> length x = d -> length y = d ->
  length (where_ cond x y) = d.
Proof.
  intros H1 H2 H3. unfold where_. rewrite length_zip_with, length_zip. lia.
Qed.

Section DE_trial.
Variable function : vec -> Q.
Variables lower upper : vec.
Variable n : nat.
Variables mutation crossover : Q.

Local Abbreviation trial := (de_trial lower upper n mutation crossover).
Local Abbreviation individual :=
  (de_individual function lower upper n mutation crossover).
Local Abbreviation pass := (de_pass function lower upper n mutation crossover).
Lemma de_trial_Ok P j x_target x_new w w' :
  trial P j x_target w = (Ok x_new, w') ->
  exists i1 i2 i3 x1 x2 x3 m r,
    NoDup [i1; i2; i3] /\
    (forall i, i ∈ [i1; i2; i3] -> i < n /\ i <> j) /\
    P !! i1 = Some x1 /\ P !! i2 = Some x2 /\ P !! i3 = Some x3 /\
    de_mutant lower upper mutation x1 x2 x3 = Ok m /\
    length r = length lower /\
    Forall (fun u => (0 <= u /\ u < 1)%Q) r /\
    x_new = de_crossover crossover r m x_target /\
    calls w' = calls w.
Proof.
  unfold de_trial. intros H.
  apply bind_Ok in H as (cands & w1 & [Hc ->]%lift_Ok & H).
  apply bind_Ok in H as (idx & w2 & Hidx & H).
  apply bind_Ok in H as (picked & w3 & [Hp ->]%lift_Ok & H).
  destruct picked as [|x1 [|x2 [|x3 [|? ?]]]]; try discriminate H.
  apply bind_Ok in H as (m & w4 & [Hm ->]%lift_Ok & H).
  apply bind_Ok in H as (r & w5 & Hr & [-> ->]%ret_Ok).
  apply take_rows_Ok in Hp.
  destruct idx as [|i1 [|i2 [|i3 [|? ?]]]];
    try (by repeat (inversion Hp as [|? ? ? ? ? Hp']; subst; clear Hp;
                    rename Hp' into Hp)).
  apply Forall2_cons in Hp as [H1 Hp]. apply Forall2_cons in Hp as [H2 Hp].
  apply Forall2_cons in Hp as [H3 _].
  apply list_remove_Ok in Hc as (_ & Hsub & Hnd).
  destruct (Hnd (NoDup_seq 0 n)) as [Hnd' Hj].
  pose proof Hidx as Hcalls.
  apply choice_Ok in Hidx as (_ & Hin & Hdistinct).
  exists i1, i2, i3, x1, x2, x3, m, r.
  split; [by apply Hdistinct|]. split.
  { intros i Hi. apply Hin in Hi. split.
    - apply Hsub, elem_of_seq in Hi. lia.
    - intros ->. by apply Hj. }
  do 4 (split; [done|]).
  destruct (rand_Ok _ _ _ _ Hr) as [Hlen Hrange].
  do 3 (split; [done|]).
  pose proof (same_calls_replicateM (length lower) random_sample
                same_calls_random_sample w2) as E1.
  unfold rand in Hr. rewrite Hr in E1. simpl in E1.
  pose proof (same_calls_choice cands 3 w) as E2.
  rewrite Hcalls in E2. simpl in E2. congruence.
Qed.

Lemma de_mutant_Ok (x1 x2 x3 : vec) :
  length upper = length lower ->
  length x1 = length lower -> length x2 = length lower ->
  length x3 = length lower ->
  de_mutant lower upper mutation x1 x2 x3 =
    Ok (zip_with Qmin
          (zip_with Qmax (vadd x1 (vscale (vsub x2 x3) mutation)) lower) upper).
Proof.
  intros Hu H1 H2 H3. unfold de_mutant. apply clip_same; [|done].
  unfold vadd, vscale, vsub.
  rewrite length_zip_with, length_map, length_zip_with. lia.
Qed.

Lemma de_mutant_length (x1 x2 x3 m : vec) :
  length upper = length lower ->
  length x1 = length lower -> length x2 = length lower ->
  length x3 = length lower ->
  de_mutant lower upper mutation x1 x2 x3 = Ok m -> length m = length lower.
Proof.
  intros Hu H1 H2 H3. rewrite de_mutant_Ok by done. intros [= <-].
  unfold vadd, vscale, vsub.
  rewrite !length_zip_with, length_map, length_zip_with. lia.
Qed.

Lemma de_trial_length P j x_target x_new w w' :
  length upper = length lower -> well_shaped (length lower) P ->
  length x_target = length lower ->
  trial P j x_target w = (Ok x_new, w') -> length x_new = length lower.
Proof.
  intros Hu HP Ht H.
  apply de_trial_Ok in H
    as (i1 & i2 & i3 & x1 & x2 & x3 & m & r & _ & _ & H1 & H2 & H3 & Hm &
        Hr & _ & -> & _).
  unfold well_shaped in HP. rewrite Forall_lookup in HP.
  apply de_mutant_length in Hm; eauto.
  unfold de_crossover. apply where_length; [|done|done].
  unfold vlt. by rewrite length_map.
Qed.

Lemma de_trial_in_box P j x_target x_new w w' :
  valid_domain lower upper -> well_shaped (length lower) P ->
  in_box lower upper x_target ->
  trial P j x_target w = (Ok x_new, w') -> in_box lower upper x_new.
Proof.
  intros Hdom HP Ht H.
  apply de_trial_Ok in H
    as (i1 & i2 & i3 & x1 & x2 & x3 & m & r & _ & _ & H1 & H2 & H3 & Hm &
        Hr & _ & -> & _).
  unfold well_shaped in HP. rewrite Forall_lookup in HP.
  unfold de_mutant in Hm. apply clip_in_box in Hm as [_ Hm]; [|done|].
  - intros i lo hi v Hlo Hhi Hv. unfold de_crossover in Hv.
    apply where_lookup in Hv as (c & mi & ti & _ & Hmi & Hti & ->).
    destruct c; [by eapply Hm | by eapply Ht].
  - unfold vadd, vscale, vsub.
    rewrite length_zip_with, length_map, length_zip_with.
    rewrite (HP _ _ H1), (HP _ _ H2), (HP _ _ H3). lia.
Qed.


(** The shape of the population is kept by the body of the loop. *)
Lemma de_individual_shape P j w P' w' :
  length upper = length lower -> well_shaped (length lower) P ->
  individual P j w = (Ok P', w') -> well_shaped (length lower) P'.
Proof.
  intros Hu HP H.
  apply de_individual_Ok in H as (xt & xn & w1 & Hj & Ht & -> & _).
  unfold de_select. destruct (Qltb _ _); [|done].
  apply Forall_insert; [done|].
  eapply de_trial_length; [done|done| |exact Ht].
  unfold well_shaped in HP. rewrite Forall_lookup in HP. by eapply HP.
Qed.

Lemma de_individual_in_box P j w P' w' :
  valid_domain lower upper -> well_shaped (length lower) P ->
  all_in_box lower upper P ->
  individual P j w = (Ok P', w') -> all_in_box lower upper P'.
Proof.
  intros Hdom HP Hbox H.
  apply de_individual_Ok in H as (xt & xn & w1 & Hj & Ht & -> & _).
  unfold de_select. destruct (Qltb _ _); [|done].
  apply Forall_insert; [done|].
  eapply de_trial_in_box; [done|done| |exact Ht].
  unfold all_in_box in Hbox. rewrite Forall_lookup in Hbox. by eapply Hbox.
Qed.


Lemma de_individual_inv P j w P' w' :
  length upper = length lower -> (de_inv lower n) P ->
  individual P j w = (Ok P', w') -> (de_inv lower n) P'.
Proof.
  intros Hu [Hn HP] H. split.
  - by rewrite (de_individual_length _ _ _ _ _ _ _ _ _ _ _ H).
  - by eapply de_individual_shape.
Qed.

Lemma de_fold_inv l P w P' w' :
  length upper = length lower -> (de_inv lower n) P ->
  foldM individual l P w = (Ok P', w') -> (de_inv lower n) P'.
Proof.
  intros Hu. apply (foldM_invariant individual (de_inv lower n)).
  intros s a w0 s' w0' _. by apply de_individual_inv.
Qed.

Lemma de_pass_inv P w P' w' :
  length upper = length lower -> (de_inv lower n) P ->
  pass P w = (Ok P', w') -> (de_inv lower n) P'.
Proof. apply de_fold_inv. Qed.


Lemma de_fold_in_box l P w P' w' :
  valid_domain lower upper -> (de_inv lower n) P -> all_in_box lower upper P ->
  foldM individual l P w = (Ok P', w') -> all_in_box lower upper P'.
Proof.
  intros Hdom HP Hbox H.
  cut ((de_inv lower n) P' /\ all_in_box lower upper P'); [by intros [_ ?]|].
  revert H.
  apply (foldM_invariant individual
           (fun P => (de_inv lower n) P /\ all_in_box lower upper P)); [|done].
  intros s a w0 s' w0' _ [Hs Hb] Hrun. split.
  - eapply de_individual_inv; [apply Hdom|done|done].
  - eapply de_individual_in_box; [done|apply Hs|done|done].
Qed.

Lemma de_passes_in_box k P w P' w' :
  valid_domain lower upper -> (de_inv lower n) P -> all_in_box lower upper P ->
  iterM k pass P w = (Ok P', w') ->
  (de_inv lower n) P' /\ all_in_box lower upper P'.
Proof.
  intros Hdom HP Hbox.
  apply (iterM_invariant pass
           (fun P => (de_inv lower n) P /\ all_in_box lower upper P)); [|done].
  intros s w0 s' w0' [Hs Hb] Hrun. split.
  - eapply de_pass_inv; [apply Hdom|done|done].
  - by eapply de_fold_in_box.
Qed.

End DE_trial.

Lemma de_init_inv (lower upper : sequence) n P w w' :
  length upper = length lower ->
  de_init lower upper n w = (Ok P, w') -> de_inv lower n P.
Proof.
  intros Hu H. apply uniform_rows in H as (Hn & Hs & _); [|done]. by split.
Qed.


(** ** Particle swarm: the update of one particle *)

Section PSO_particle.
Variable function : vec -> Q.
Variables lower upper : vec.
Variable n : nat.
Variables ω φ1 φ2 : Q.

Local Abbreviation particle :=
  (pso_particle function lower upper ω φ1 φ2).

Lemma pso_particle_Ok s i w s' w' :
  particle s i w = (Ok s', w') ->
  exists r1 r2 v x_best x xs x' w1 w2,
    uniform_scalar 0 φ1 (length lower) w = (Ok r1, w1) /\
    uniform_scalar 0 φ2 (length lower) w1 = (Ok r2, w2) /\
    V s !! i = Some v /\ X_best s !! i = Some x_best /\ X s !! i = Some x /\
    deref s = Ok xs /\
    clip (vadd x (pso_velocity ω r1 r2 v x_best x xs)) lower upper = Ok x' /\
    exists x_best' xs',
      let s2 := pso_moved s i (pso_velocity ω r1 r2 v x_best x xs) x' in
      let s3 := pso_remembered function s2 i x' x_best in
      X_best s3 !! i = Some x_best' /\ deref s3 = Ok xs' /\
      s' = pso_shared function s3 i x_best' xs' /\
      w' = {| tape := tape w2; cursor := cursor w2;
              calls := 4 + calls w2 |}.
Proof.
  unfold pso_particle. intros H.
  apply bind_Ok in H as (s1 & wa & Hv & H).
  apply bind_Ok in H as (s2 & wb & Hp & H).
  apply bind_Ok in H as (s3 & wc & Hb & H).
  unfold pso_update_velocity in Hv.
  apply bind_Ok in Hv as (r1 & w1 & Hr1 & Hv).
  apply bind_Ok in Hv as (r2 & w2 & Hr2 & Hv).
  apply bind_Ok in Hv as (v & ? & [Hv0%row_Ok ->]%lift_Ok & Hv).
  apply bind_Ok in Hv as (xb & ? & [Hxb%row_Ok ->]%lift_Ok & Hv).
  apply bind_Ok in Hv as (x & ? & [Hx%row_Ok ->]%lift_Ok & Hv).
  apply bind_Ok in Hv as (xs & ? & [Hxs ->]%lift_Ok & [-> ->]%ret_Ok).
  unfold pso_update_position in Hp. simpl in Hp.
  apply bind_Ok in Hp as (x0 & ? & [Hx0%row_Ok ->]%lift_Ok & Hp).
  apply bind_Ok in Hp as (v1 & ? & [Hv1%row_Ok ->]%lift_Ok & Hp).
  apply bind_Ok in Hp as (x' & ? & [Hclip ->]%lift_Ok & [-> ->]%ret_Ok).
  rewrite Hx in Hx0. injection Hx0 as <-.
  rewrite list_lookup_insert_eq in Hv1 by (by apply lookup_lt_Some in Hv0).
  injection Hv1 as <-.
  unfold pso_update_best in Hb. simpl in Hb.
  apply bind_Ok in Hb as (x1 & ? & [Hx1%row_Ok ->]%lift_Ok & Hb).
  apply bind_Ok in Hb as (fx & ? & [-> ->]%call_Ok & Hb).
  apply bind_Ok in Hb as (xb1 & ? & [Hxb1%row_Ok ->]%lift_Ok & Hb).
  apply bind_Ok in Hb as (fb & ? & [-> ->]%call_Ok & [-> ->]%ret_Ok).
  rewrite list_lookup_insert_eq in Hx1 by (by apply lookup_lt_Some in Hx).
  injection Hx1 as <-. simpl in Hxb1. rewrite Hxb in Hxb1.
  injection Hxb1 as <-.
  unfold pso_update_swarm in H.
  apply bind_Ok in H as (xb' & ? & [Hxb'%row_Ok ->]%lift_Ok & H).
  apply bind_Ok in H as (fb' & ? & [-> ->]%call_Ok & H).
  apply bind_Ok in H as (xs' & ? & [Hxs' ->]%lift_Ok & H).
  apply bind_Ok in H as (fs' & ? & [-> ->]%call_Ok & [-> ->]%ret_Ok).
  exists r1, r2, v, xb, x, xs, x', w1, w2.
  do 7 (split; [done|]). exists xb', xs'. done.
Qed.

End PSO_particle.

(** ** Particle swarm: the best positions *)

Section PSO_best.
Variable function : vec -> Q.
Variables lower upper : vec.
Variable n : nat.
Variables ω φ1 φ2 : Q.

Local Abbreviation particle :=
  (pso_particle function lower upper ω φ1 φ2).
Local Abbreviation pass := (pso_pass function lower upper n ω φ1 φ2).

(** A personal best changes only to a strictly better position, and after
    the update of a particle its personal best is at least as good as its
    position. *)
Lemma pso_particle_best s j w s' w' :
  particle s j w = (Ok s', w') ->
  length (X_best s') = length (X_best s) /\
  (forall i b b', X_best s !! i = Some b -> X_best s' !! i = Some b' ->
     b' = b \/ (i = j /\ (function b' < function b)%Q)) /\
  (exists x b, X s' !! j = Some x /\ X_best s' !! j = Some b /\
               (function b <= function x)%Q).
Proof.
  intros H. apply pso_particle_Ok in H
    as (r1 & r2 & v & xb & x & xs & x' & w1 & w2 & _ & _ & Hv & Hxb & Hx &
        Hxs & Hclip & xb' & xs' & Hxb' & Hxs' & -> & _).
  assert (j < length (X s)) as HjX by (by apply lookup_lt_Some in Hx).
  assert (j < length (X_best s)) as HjB by (by apply lookup_lt_Some in Hxb).
  unfold pso_shared, pso_remembered, pso_moved in *.
  destruct (Qltb (function x') (function xb)) eqn:E1;
    destruct (Qltb (function xb') (function xs')) eqn:E2; simpl in *.
  all: try apply Qltb_lt in E1; try apply Qltb_ge in E1.
  all: split; [by rewrite ?length_insert|]; split.
  all: try (intros i b b' Hb Hb';
            destruct (decide (i = j)) as [->|Hne];
            [ rewrite list_lookup_insert_eq in Hb' by done;
              right; split; [done|]; congruence
            | rewrite list_lookup_insert_ne in Hb' by done;
              left; congruence ]).
  all: try (intros i b b' Hb Hb'; left; congruence).
  - exists x', x'. rewrite !list_lookup_insert_eq by done.
    split; [done|]. split; [done|]. lra.
  - exists x', x'. rewrite !list_lookup_insert_eq by done.
    split; [done|]. split; [done|]. lra.
  - exists x', xb. rewrite list_lookup_insert_eq by done. done.
  - exists x', xb. rewrite list_lookup_insert_eq by done. done.
Qed.

(** The objective of what [x_swarm] shows does not grow over the update of
    one particle. *)
Lemma pso_shared_below s3 j x_best' xs' bound :
  X_best s3 !! j = Some x_best' -> deref s3 = Ok xs' ->
  (Qltb (function x_best') (function xs') = true ->
     (function x_best' <= bound)%Q) ->
  (Qltb (function x_best') (function xs') = false ->
     (function xs' <= bound)%Q /\ alias_inv function s3) ->
  exists ys, deref (pso_shared function s3 j x_best' xs') = Ok ys /\
             (function ys <= bound)%Q /\
             alias_inv function (pso_shared function s3 j x_best' xs').
Proof.
  intros Hb Hs Ht Hf. unfold pso_shared.
  destruct (Qltb (function x_best') (function xs')).
  - exists x_best'. unfold deref, row, alias_inv. simpl. rewrite Hb.
    split; [done|]. split; [by apply Ht|done].
  - exists xs'. destruct Hf as [? ?]; done.
Qed.

Lemma pso_particle_swarm s j w s' w' xs :
  particle s j w = (Ok s', w') ->
  alias_inv function s -> deref s = Ok xs ->
  exists xs', deref s' = Ok xs' /\ (function xs' <= function xs)%Q /\
              alias_inv function s'.
Proof.
  intros H Halias Hxs. apply pso_particle_Ok in H
    as (r1 & r2 & v & xb & x & xs0 & x' & w1 & w2 & _ & _ & Hv & Hxb & Hx &
        Hxs0 & Hclip & xb' & xs' & Hxb' & Hxs' & -> & _).
  rewrite Hxs in Hxs0. injection Hxs0 as <-.
  assert (j < length (X s)) as HjX by (by apply lookup_lt_Some in Hx).
  assert (j < length (X_best s)) as HjB by (by apply lookup_lt_Some in Hxb).
  apply pso_shared_below; [done|done| |].
  - (* the personal best of [j] becomes the best of the swarm *)
    intros E2%Qltb_lt. revert Hxb' Hxs' E2.
    unfold pso_remembered, pso_moved, deref, alias_inv in *.
    destruct (x_swarm s) as [k|m];
      destruct (Qltb (function x') (function xb)) eqn:E1; simpl;
      try apply Qltb_lt in E1; try apply Qltb_ge in E1;
      rewrite ?row_Ok in *; intros Hxb' Hxs' E2.
    + destruct (decide (k = j)) as [->|Hne].
      * rewrite !list_lookup_insert_eq in * by done.
        injection Hxb' as <-. injection Hxs' as <-. lra.
      * rewrite list_lookup_insert_ne in Hxs' by done.
        rewrite Hxs in Hxs'. injection Hxs' as <-. lra.
    + destruct (decide (k = j)) as [->|Hne].
      * destruct Halias as (xk & bk & Hxk & Hbk & Heq).
        assert (xk = xs) as -> by congruence.
        assert (bk = xb') as -> by congruence. lra.
      * rewrite list_lookup_insert_ne in Hxs' by done.
        rewrite Hxs in Hxs'. injection Hxs' as <-. lra.
    + destruct (decide (m = j)) as [->|Hne].
      * rewrite !list_lookup_insert_eq in * by done.
        injection Hxb' as <-. injection Hxs' as <-. lra.
      * rewrite list_lookup_insert_ne in Hxs' by done.
        rewrite Hxs in Hxs'. injection Hxs' as <-. lra.
    + rewrite Hxs in Hxs'. injection Hxs' as <-. lra.
  - (* the best of the swarm stays *)
    intros E2%Qltb_ge. revert Hxb' Hxs' E2.
    unfold pso_remembered, pso_moved, deref, alias_inv in *.
    destruct (x_swarm s) as [k|m];
      destruct (Qltb (function x') (function xb)) eqn:E1; simpl;
      try apply Qltb_lt in E1; try apply Qltb_ge in E1;
      rewrite ?row_Ok in *; intros Hxb' Hxs' E2.
    + destruct Halias as (xk & bk & Hxk & Hbk & Heq).
      assert (xk = xs) as -> by congruence.
      destruct (decide (k = j)) as [->|Hne].
      * rewrite !list_lookup_insert_eq in * by done.
        injection Hxb' as <-. injection Hxs' as <-.
        assert (x = xs) as -> by congruence.
        assert (bk = xb) as -> by congruence.
        split; [lra|]. exists x', x'. split; [done|]. split; [done|].
        reflexivity.
      * rewrite list_lookup_insert_ne in Hxs' by done.
        rewrite Hxs in Hxs'. injection Hxs' as <-. split; [lra|].
        exists xs, bk. rewrite !list_lookup_insert_ne by done. done.
    + destruct Halias as (xk & bk & Hxk & Hbk & Heq).
      assert (xk = xs) as -> by congruence.
      destruct (decide (k = j)) as [->|Hne].
      * rewrite !list_lookup_insert_eq in * by done.
        injection Hxs' as <-.
        assert (x = xs) as -> by congruence.
        assert (bk = xb) as -> by congruence.
        assert (xb' = xb) as -> by congruence.
        split; [lra|]. exists x', xb. split; [done|]. split; [done|].
        apply Qle_antisym; done.
      * rewrite list_lookup_insert_ne in Hxs' by done.
        rewrite Hxs in Hxs'. injection Hxs' as <-. split; [lra|].
        exists xs, bk. rewrite !list_lookup_insert_ne by done. done.
    + split; [|done]. destruct (decide (m = j)) as [->|Hne].
      * rewrite !list_lookup_insert_eq in * by done.
        injection Hxs' as <-. assert (xb = xs) as -> by congruence. lra.
      * rewrite list_lookup_insert_ne in Hxs' by done.
        rewrite Hxs in Hxs'. injection Hxs' as <-. lra.
    + split; [|done]. rewrite Hxs in Hxs'. injection Hxs' as <-. lra.
Qed.

(** The view at work: the particle that [x_swarm] is a view of moves to a
    position of equal objective; [x_swarm] shows the new position, and the
    personal best keeps the old one. *)
Example pso_view_follows_particle :
  exists s' w' c,
    pso_particle parabola [-4]%Q [4]%Q (1#2) (1#5) (1#5) swarm2 0 world0
      = (Ok s', w') /\
    x_swarm s' = RowOfX 0 /\ deref s' = Ok [c] /\ (c == -1)%Q /\
    X_best s' !! 0 = Some [3]%Q /\
    (parabola [c] == parabola [3])%Q.
Proof.
  do 3 eexists. split; [vm_compute; reflexivity|].
  split; [reflexivity|]. split; [reflexivity|]. split; [reflexivity|].
  split; reflexivity.
Qed.

Lemma pso_particle_below bound s j w s' w' :
  particle s j w = (Ok s', w') -> (swarm_below function) bound s -> (swarm_below function) bound s'.
Proof.
  intros H [[[xs Hxs] Halias] Hb].
  destruct (pso_particle_swarm _ _ _ _ _ _ H Halias Hxs)
    as (xs' & Hxs' & Hle & Halias').
  split; [split; eauto|]. intros ys Hys. rewrite Hxs' in Hys.
  injection Hys as <-. specialize (Hb xs Hxs). lra.
Qed.

Lemma pso_fold_below bound l s w s' w' :
  foldM particle l s w = (Ok s', w') ->
  (swarm_below function) bound s -> (swarm_below function) bound s'.
Proof.
  intros H Hs. revert H.
  apply (foldM_invariant particle ((swarm_below function) bound)); [|done].
  intros s1 a w1 s1' w1' _ Hs1 Hrun. by eapply pso_particle_below.
Qed.

Lemma pso_pass_below bound s w s' w' :
  pass s w = (Ok s', w') -> (swarm_below function) bound s -> (swarm_below function) bound s'.
Proof. apply pso_fold_below. Qed.

Lemma pso_passes_ok k s w s' w' :
  iterM k pass s w = (Ok s', w') -> (swarm_ok function) s -> (swarm_ok function) s'.
Proof.
  intros H Hs. revert H.
  apply (iterM_invariant pass (swarm_ok function)); [|done].
  intros s1 w1 s1' w1' [[xs Hxs] Halias] Hrun.
  eapply (pso_pass_below (function xs)); [exact Hrun|].
  split; [split; eauto|]. intros ys Hys. rewrite Hxs in Hys.
  injection Hys as <-. lra.
Qed.

End PSO_best.

(** Whatever row the initialisation takes for [x_swarm], it is a row of [X],
    of which [X_best] is a copy. *)
Lemma pso_init_ok (function : objective) (lower upper : sequence) n s w w' :
  pso_init function lower upper n w = (Ok s, w') -> swarm_ok function s.
Proof.
  unfold pso_init. intros H.
  apply bind_Ok in H as (X0 & w1 & _ & H).
  apply bind_Ok in H as (U & w2 & _ & H).
  apply bind_Ok in H as (span & ? & [_ ->]%lift_Ok & H).
  apply bind_Ok in H as (V0 & ? & [_ ->]%lift_Ok & H).
  apply bind_Ok in H as (values & w3 & _ & H).
  apply bind_Ok in H as (k & ? & [_ ->]%lift_Ok & H).
  apply bind_Ok in H as (xk & ? & [Hk ->]%lift_Ok & [-> ->]%ret_Ok).
  split.
  - exists xk. done.
  - unfold alias_inv. simpl. apply row_Ok in Hk. exists xk, xk.
    split; [done|]. split; [done|]. reflexivity.
Qed.

(** ** Particle swarm: shapes, the box, and runs that return *)

Lemma well_shaped_lookup d (P : matrix) i r :
  well_shaped d P -> P !! i = Some r -> length r = d.
Proof. unfold well_shaped. rewrite Forall_lookup. eauto. Qed.

Lemma pso_velocity_length ω (r1 r2 v x_best x xs : vec) d :
  length r1 = d -> length r2 = d -> length v = d -> length x_best = d ->
  length x = d -> length xs = d ->
  length (pso_velocity ω r1 r2 v x_best x xs) = d.
Proof.
  intros. unfold pso_velocity, vadd, vmul, vsub, scalev.
  rewrite !length_zip_with, length_map. lia.
Qed.

Lemma rows_times_total d (U : matrix) (span : vec) :
  well_shaped d U -> length span = d ->
  exists V0, rows_times U span = Ok V0 /\ length V0 = length U /\
             well_shaped d V0.
Proof.
  intros HU Hs. induction HU as [|r U Hr HU IH]; simpl.
  - exists []. split; [done|]. split; [done|]. constructor.
  - destruct IH as (V0 & -> & Hlen & HV0).
    rewrite zip_with_b_same by congruence.
    eexists. split; [done|]. split; [simpl; lia|].
    constructor; [|done]. rewrite length_zip_with. lia.
Qed.

Lemma deref_total d n s :
  pso_inv d n s -> exists xs, deref s = Ok xs /\ length xs = d.
Proof.
  intros (HX & HV & HB & HsX & HsV & HsB & Hview). unfold deref, row.
  destruct (x_swarm s) as [k|i]; simpl in Hview.
  - destruct (lookup_lt_is_Some_2 (X s) k) as [r Hr]; [lia|].
    rewrite Hr. exists r. split; [done|].
    exact (well_shaped_lookup _ _ _ _ HsX Hr).
  - destruct (lookup_lt_is_Some_2 (X_best s) i) as [r Hr]; [lia|].
    rewrite Hr. exists r. split; [done|].
    exact (well_shaped_lookup _ _ _ _ HsB Hr).
Qed.

Lemma deref_in_box lower upper s xs :
  swarm_in_box lower upper s -> deref s = Ok xs -> in_box lower upper xs.
Proof.
  intros [HX HB]. unfold deref. unfold all_in_box in *.
  rewrite Forall_lookup in HX, HB.
  destruct (x_swarm s); intros H%row_Ok; eauto.
Qed.

Section PSO_shape.
Variable function : vec -> Q.
Variables lower upper : vec.
Variable n : nat.
Variables ω φ1 φ2 : Q.
Hypothesis Hlen : length upper = length lower.

Local Abbreviation particle :=
  (pso_particle function lower upper ω φ1 φ2).
Local Abbreviation pass := (pso_pass function lower upper n ω φ1 φ2).
Local Abbreviation d := (length lower).

Lemma pso_update_velocity_total s j w :
  pso_inv d n s -> j < n ->
  exists s' w', pso_update_velocity lower ω φ1 φ2 s j w = (Ok s', w') /\
                pso_inv d n s'.
Proof.
  intros Hinv Hj. pose proof Hinv as (HX & HV & HB & HsX & HsV & HsB & Hview).
  unfold pso_update_velocity.
  destruct (uniform_scalar_total 0 φ1 d w) as (r1 & w1 & Hr1).
  destruct (uniform_scalar_total 0 φ2 d w1) as (r2 & w2 & Hr2).
  rewrite (bind_step _ _ _ _ _ Hr1), (bind_step _ _ _ _ _ Hr2).
  destruct (lookup_lt_is_Some_2 (V s) j) as [v Hv]; [lia|].
  destruct (lookup_lt_is_Some_2 (X_best s) j) as [xb Hxb]; [lia|].
  destruct (lookup_lt_is_Some_2 (X s) j) as [x Hx]; [lia|].
  destruct (deref_total _ _ _ Hinv) as (xs & Hxs & Hlxs).
  unfold row. rewrite Hv, Hxb, Hx, Hxs. unfold lift, bind, ret.
  eexists _, _. split; [done|].
  repeat split; simpl; try done; [by rewrite length_insert|].
  apply Forall_insert; [done|].
  apply uniform_scalar_Ok in Hr1 as [? _].
  apply uniform_scalar_Ok in Hr2 as [? _].
  apply pso_velocity_length; try done;
    [exact (well_shaped_lookup _ _ _ _ HsV Hv)
    |exact (well_shaped_lookup _ _ _ _ HsB Hxb)
    |exact (well_shaped_lookup _ _ _ _ HsX Hx)].
Qed.

Lemma pso_update_position_total s j w :
  pso_inv d n s -> j < n ->
  exists s' w', pso_update_position lower upper s j w = (Ok s', w') /\
                pso_inv d n s'.
Proof.
  intros Hinv Hj. pose proof Hinv as (HX & HV & HB & HsX & HsV & HsB & Hview).
  unfold pso_update_position.
  destruct (lookup_lt_is_Some_2 (V s) j) as [v Hv]; [lia|].
  destruct (lookup_lt_is_Some_2 (X s) j) as [x Hx]; [lia|].
  unfold row. rewrite Hv, Hx.
  assert (length (vadd x v) = d) as Hl.
  { unfold vadd. rewrite length_zip_with.
    rewrite (well_shaped_lookup _ _ _ _ HsX Hx).
    rewrite (well_shaped_lookup _ _ _ _ HsV Hv). lia. }
  unfold lift, bind, ret. simpl. rewrite clip_same by done.
  eexists _, _. split; [done|].
  repeat split; simpl; try done; [by rewrite length_insert|].
  apply Forall_insert; [done|]. rewrite !length_zip_with. lia.
Qed.

Lemma pso_update_best_total s j w :
  pso_inv d n s -> j < n ->
  exists s' w', pso_update_best function s j w = (Ok s', w') /\
                pso_inv d n s'.
Proof.
  intros Hinv Hj. pose proof Hinv as (HX & HV & HB & HsX & HsV & HsB & Hview).
  unfold pso_update_best.
  destruct (lookup_lt_is_Some_2 (X_best s) j) as [xb Hxb]; [lia|].
  destruct (lookup_lt_is_Some_2 (X s) j) as [x Hx]; [lia|].
  unfold row. rewrite Hxb, Hx. unfold lift, bind, ret, call.
  eexists _, _. split; [done|].
  destruct (Qltb (function x) (function xb)); [|done].
  repeat split; simpl; try done; [by rewrite length_insert|].
  apply Forall_insert; [done|]. exact (well_shaped_lookup _ _ _ _ HsX Hx).
Qed.

Lemma pso_update_swarm_total s j w :
  pso_inv d n s -> j < n ->
  exists s' w', pso_update_swarm function s j w = (Ok s', w') /\
                pso_inv d n s'.
Proof.
  intros Hinv Hj. pose proof Hinv as (HX & HV & HB & HsX & HsV & HsB & Hview).
  unfold pso_update_swarm.
  destruct (lookup_lt_is_Some_2 (X_best s) j) as [xb Hxb]; [lia|].
  destruct (deref_total _ _ _ Hinv) as (xs & Hxs & Hlxs).
  unfold row. rewrite Hxb. unfold lift at 1. unfold bind at 1.
  unfold call at 1. unfold bind at 1. rewrite Hxs.
  unfold lift, bind, ret, call.
  eexists _, _. split; [done|].
  destruct (Qltb (function xb) (function xs)); [|done].
  repeat split; simpl; done.
Qed.

Lemma pso_particle_total s j w :
  pso_inv d n s -> j < n ->
  exists s' w', particle s j w = (Ok s', w') /\ pso_inv d n s'.
Proof.
  intros Hinv Hj. unfold pso_particle.
  destruct (pso_update_velocity_total s j w Hinv Hj) as (s1 & w1 & H1 & I1).
  destruct (pso_update_position_total s1 j w1 I1 Hj) as (s2 & w2 & H2 & I2).
  destruct (pso_update_best_total s2 j w2 I2 Hj) as (s3 & w3 & H3 & I3).
  destruct (pso_update_swarm_total s3 j w3 I3 Hj) as (s4 & w4 & H4 & I4).
  exists s4, w4. split; [|done].
  by rewrite (bind_step _ _ _ _ _ H1), (bind_step _ _ _ _ _ H2),
    (bind_step _ _ _ _ _ H3).
Qed.

Lemma pso_pass_total s w :
  pso_inv d n s -> exists s' w', pass s w = (Ok s', w') /\ pso_inv d n s'.
Proof.
  intros Hinv. unfold pso_pass.
  apply (foldM_total particle (pso_inv d n)); [|done].
  intros s1 j w1 Hj%elem_of_seq Hs1. apply pso_particle_total; [done|lia].
Qed.

Lemma pso_passes_total k s w :
  pso_inv d n s ->
  exists s' w', iterM k pass s w = (Ok s', w') /\ pso_inv d n s'.
Proof. apply (iterM_total pass (pso_inv d n)). apply pso_pass_total. Qed.

End PSO_shape.

Lemma sub_arrays (upper lower : sequence) :
  both_lists upper lower = false -> length upper = length lower ->
  sub upper lower = Ok (zip_with Qminus upper lower).
Proof.
  intros Hk Hlen. unfold sub. rewrite Hk. by apply zip_with_b_same.
Qed.

(** On bounds with a finite range of which one at least is a numpy array,
    with one particle or more and an objective that evaluates the rows of a
    matrix, the initialisation of [minimize_pso] returns. *)
Lemma pso_init_total (function : objective) (lower upper : sequence) n w :
  finite_range lower upper -> both_lists upper lower = false ->
  vectorised function -> 1 <= n ->
  exists s w', pso_init function lower upper n w = (Ok s, w') /\
               pso_inv (length lower) n s.
Proof.
  intros Hr Hk Hf Hn. unfold pso_init.
  pose proof (finite_range_length _ _ Hr) as Hlen.
  destruct (uniform_total lower upper n w Hr) as (X0 & w1 & HX0).
  rewrite (bind_step _ _ _ _ _ HX0).
  apply uniform_rows in HX0 as (HnX & HsX & _); [|done].
  destruct (replicateM_total (uniform_scalar (-1) 1 (length lower)) n w1)
    as (U & w2 & HU); [apply uniform_scalar_total|].
  rewrite (bind_step _ _ _ _ _ HU).
  apply (replicateM_Ok (fun r : vec => length r = length lower)) in HU
    as [HnU HsU].
  2: { intros w3 r w3' Hr'. by apply uniform_scalar_Ok in Hr' as [? _]. }
  rewrite sub_arrays by done. unfold lift at 1. unfold bind at 1.
  destruct (rows_times_total (length lower) U (zip_with Qminus upper lower))
    as (V0 & HV0 & HnV & HsV); [done|rewrite length_zip_with; lia|].
  rewrite HV0. unfold lift at 1. unfold bind at 1.
  unfold call_matrix at 1. unfold bind at 1. rewrite Hf.
  destruct (argmin_total (map function X0)) as [k Hk'].
  { destruct X0; [simpl in HnX; lia|done]. }
  rewrite Hk'. unfold lift at 1. unfold bind at 1.
  destruct (argmin_spec _ _ Hk') as (m & Hm & _).
  apply lookup_lt_Some in Hm. rewrite length_map in Hm.
  destruct (lookup_lt_is_Some_2 X0 k Hm) as [xk Hxk].
  unfold row. rewrite Hxk. unfold lift, bind, ret.
  eexists _, _. split; [done|].
  repeat split; simpl; try done; lia.
Qed.

Lemma minimize_pso_total (function : objective) (lower upper : sequence) n
    (ω φ1 φ2 : Q) steps w :
  finite_range lower upper -> both_lists upper lower = false ->
  vectorised function -> 1 <= n ->
  exists x w',
    minimize_pso function lower upper n ω φ1 φ2 steps w = (Ok x, w').
Proof.
  intros Hr Hk Hf Hn. unfold minimize_pso, for_range.
  pose proof (finite_range_length _ _ Hr) as Hlen.
  destruct (pso_init_total function lower upper n w Hr Hk Hf Hn)
    as (s0 & w0 & H0 & I0).
  rewrite (bind_step _ _ _ _ _ H0).
  destruct (pso_passes_total function lower upper n ω φ1 φ2 Hlen
              (Z.to_nat steps) s0 w0 I0) as (s & w1 & H1 & I1).
  rewrite (bind_step _ _ _ _ _ H1).
  destruct (deref_total _ _ _ I1) as (xs & Hxs & _).
  exists xs, w1. unfold lift. by rewrite Hxs.
Qed.

Section PSO_box.
Variable function : vec -> Q.
Variables lower upper : vec.
Variable n : nat.
Variables ω φ1 φ2 : Q.
Hypothesis Hdom : valid_domain lower upper.

Local Abbreviation particle :=
  (pso_particle function lower upper ω φ1 φ2).
Local Abbreviation pass := (pso_pass function lower upper n ω φ1 φ2).
Local Abbreviation d := (length lower).

Lemma pso_update_velocity_box s j w s' w' :
  swarm_in_box lower upper s ->
  pso_update_velocity lower ω φ1 φ2 s j w = (Ok s', w') ->
  swarm_in_box lower upper s'.
Proof. unfold pso_update_velocity. intros Hbox H. inv_run. done. Qed.

Lemma pso_update_position_box s j w s' w' :
  pso_inv d n s -> swarm_in_box lower upper s ->
  pso_update_position lower upper s j w = (Ok s', w') ->
  swarm_in_box lower upper s'.
Proof.
  intros (HX & HV & HB & HsX & HsV & HsB & Hview) [HbX HbB].
  unfold pso_update_position. intros H.
  apply bind_Ok in H as (x & ? & [Hx%row_Ok ->]%lift_Ok & H).
  apply bind_Ok in H as (v & ? & [Hv%row_Ok ->]%lift_Ok & H).
  apply bind_Ok in H as (x' & ? & [Hclip ->]%lift_Ok & [-> ->]%ret_Ok).
  split; simpl; [|done]. apply Forall_insert; [done|].
  apply clip_in_box in Hclip as [_ ?]; [done|done|].
  unfold vadd. rewrite length_zip_with.
  rewrite (well_shaped_lookup _ _ _ _ HsX Hx).
  rewrite (well_shaped_lookup _ _ _ _ HsV Hv). lia.
Qed.

Lemma pso_update_best_box s j w s' w' :
  swarm_in_box lower upper s ->
  pso_update_best function s j w = (Ok s', w') ->
  swarm_in_box lower upper s'.
Proof.
  intros [HbX HbB]. unfold pso_update_best. intros H.
  apply bind_Ok in H as (x & ? & [Hx%row_Ok ->]%lift_Ok & H).
  apply bind_Ok in H as (fx & ? & [-> ->]%call_Ok & H).
  apply bind_Ok in H as (xb & ? & [Hxb%row_Ok ->]%lift_Ok & H).
  apply bind_Ok in H as (fb & ? & [-> ->]%call_Ok & [-> ->]%ret_Ok).
  destruct (Qltb (function x) (function xb)); [|done].
  split; simpl; [done|]. apply Forall_insert; [done|].
  unfold all_in_box in HbX. rewrite Forall_lookup in HbX. by eapply HbX.
Qed.

Lemma pso_update_swarm_box s j w s' w' :
  swarm_in_box lower upper s ->
  pso_update_swarm function s j w = (Ok s', w') ->
  swarm_in_box lower upper s'.
Proof.
  intros Hbox. unfold pso_update_swarm. intros H.
  apply bind_Ok in H as (xb & ? & [Hxb%row_Ok ->]%lift_Ok & H).
  apply bind_Ok in H as (fb & ? & [-> ->]%call_Ok & H).
  apply bind_Ok in H as (xs & ? & [Hxs ->]%lift_Ok & H).
  apply bind_Ok in H as (fs & ? & [-> ->]%call_Ok & [-> ->]%ret_Ok).
  by destruct (Qltb (function xb) (function xs)).
Qed.

Lemma pso_particle_good s j w s' w' :
  pso_good lower upper n s -> j < n -> particle s j w = (Ok s', w') ->
  pso_good lower upper n s'.
Proof.
  intros [Hinv Hbox] Hj. destruct Hdom as [Hlen _].
  unfold pso_particle. intros H.
  apply bind_Ok in H as (s1 & w1 & H1 & H).
  apply bind_Ok in H as (s2 & w2 & H2 & H).
  apply bind_Ok in H as (s3 & w3 & H3 & H).
  destruct (pso_update_velocity_total lower upper n ω φ1 φ2 Hlen s j w Hinv Hj)
    as (? & ? & E1 & I1).
  rewrite H1 in E1. injection E1 as <- <-.
  destruct (pso_update_position_total lower upper n Hlen s1 j w1 I1 Hj)
    as (? & ? & E2 & I2).
  rewrite H2 in E2. injection E2 as <- <-.
  destruct (pso_update_best_total function lower upper n Hlen s2 j w2 I2 Hj)
    as (? & ? & E3 & I3).
  rewrite H3 in E3. injection E3 as <- <-.
  destruct (pso_update_swarm_total function lower upper n Hlen s3 j w3 I3 Hj)
    as (? & ? & E4 & I4).
  rewrite H in E4. injection E4 as <- <-.
  split; [done|].
  eapply pso_update_swarm_box; [|exact H].
  eapply pso_update_best_box; [|exact H3].
  eapply pso_update_position_box; [exact I1| |exact H2].
  by eapply pso_update_velocity_box.
Qed.

Lemma pso_pass_good s w s' w' :
  (pso_good lower upper n) s -> pass s w = (Ok s', w') -> (pso_good lower upper n) s'.
Proof.
  intros Hs. unfold pso_pass.
  apply (foldM_invariant particle (pso_good lower upper n)); [|done].
  intros s1 j w1 s1' w1' Hj%elem_of_seq Hs1. apply pso_particle_good; [done|lia].
Qed.

Lemma pso_passes_good k s w s' w' :
  (pso_good lower upper n) s -> iterM k pass s w = (Ok s', w') -> (pso_good lower upper n) s'.
Proof.
  apply (iterM_invariant pass (pso_good lower upper n)).
  intros s1 w1 s1' w1' Hs1. by apply pso_pass_good.
Qed.

End PSO_box.

Lemma rows_times_shape d (U V0 : matrix) (span : vec) :
  well_shaped d U -> length span = d -> rows_times U span = Ok V0 ->
  length V0 = length U /\ well_shaped d V0.
Proof.
  intros HU Hs H.
  destruct (rows_times_total d U span HU Hs) as (V1 & E & Hl & Hw).
  rewrite H in E. by injection E as <-.
Qed.

(** The initialisation, when it returns. *)
Lemma pso_init_Ok (function : objective) (lower upper : sequence) n s w w' :
  pso_init function lower upper n w = (Ok s, w') ->
  exists X0 w1 U w2 span V0 values k xk,
    uniform (items lower) (items upper) n (length lower) w = (Ok X0, w1) /\
    replicateM n (uniform_scalar (-1) 1 (length lower)) w1 = (Ok U, w2) /\
    sub upper lower = Ok span /\
    rows_times U span = Ok V0 /\
    on_matrix function X0 = Ok values /\
    argmin values = Ok k /\
    X0 !! k = Some xk /\
    s = {| X := X0; V := V0; X_best := X0; x_swarm := RowOfX k |} /\
    w' = {| tape := tape w2; cursor := cursor w2; calls := S (calls w2) |}.
Proof.
  unfold pso_init. intros H.
  apply bind_Ok in H as (X0 & w1 & HX0 & H).
  apply bind_Ok in H as (U & w2 & HU & H).
  apply bind_Ok in H as (span & ? & [Hspan ->]%lift_Ok & H).
  apply bind_Ok in H as (V0 & ? & [HV0 ->]%lift_Ok & H).
  apply bind_Ok in H as (values & w3 & [Hv ->]%call_matrix_Ok & H).
  apply bind_Ok in H as (k & ? & [Hk ->]%lift_Ok & H).
  apply bind_Ok in H as (xk & ? & [Hxk%row_Ok ->]%lift_Ok & [-> ->]%ret_Ok).
  by exists X0, w1, U, w2, span, V0, values, k, xk.
Qed.

Lemma sub_Ok (upper lower : sequence) span :
  sub upper lower = Ok span ->
  both_lists upper lower = false /\
  zip_with_b Qminus upper lower = Ok span.
Proof. unfold sub. by destruct (both_lists upper lower). Qed.

Lemma pso_init_inv (function : objective) (lower upper : sequence) n s w w' :
  length upper = length lower ->
  pso_init function lower upper n w = (Ok s, w') ->
  pso_inv (length lower) n s.
Proof.
  intros Hlen H.
  apply pso_init_Ok in H
    as (X0 & w1 & U & w2 & span & V0 & values & k & xk & HX0 & HU & Hspan &
        HV0 & _ & _ & Hxk & -> & _).
  apply uniform_rows in HX0 as (HnX & HsX & _); [|done].
  apply (replicateM_Ok (fun r : vec => length r = length lower)) in HU
    as [HnU HsU].
  2: { intros w3 r w3' Hr'. by apply uniform_scalar_Ok in Hr' as [? _]. }
  apply sub_Ok in Hspan as [_ Hspan].
  rewrite zip_with_b_same in Hspan by done. injection Hspan as <-.
  apply (rows_times_shape (length lower)) in HV0 as [HnV HsV];
    [|done|rewrite length_zip_with; lia].
  apply lookup_lt_Some in Hxk.
  repeat split; simpl; try done; lia.
Qed.

Lemma pso_init_good (function : objective) (lower upper : sequence) n s w w' :
  valid_domain lower upper ->
  pso_init function lower upper n w = (Ok s, w') -> pso_good lower upper n s.
Proof.
  intros Hdom H. split; [by eapply pso_init_inv; [apply Hdom|]|].
  apply pso_init_Ok in H
    as (X0 & w1 & U & w2 & span & V0 & values & k & xk & HX0 & _ & _ &
        _ & _ & _ & _ & -> & _).
  apply uniform_in_box in HX0; [|done]. by split.
Qed.

(** ** The draws of a run *)

Lemma advance_by_0 w : advance_by 0 w = w.
Proof. destruct w. unfold advance_by. simpl. by rewrite Nat.add_0_r. Qed.

Lemma advance_by_S k w : advance_by k (advance w) = advance_by (S k) w.
Proof. unfold advance_by, advance. simpl. f_equal. lia. Qed.

Lemma draws_S w k :
  draws w (S k) = frac (tape w (cursor w)) :: draws (advance w) k.
Proof.
  unfold draws. simpl. rewrite Nat.add_0_r. f_equal.
  rewrite <- fmap_S_seq, <- list_fmap_compose.
  apply list_fmap_ext. intros i x _. simpl. f_equal. f_equal. lia.
Qed.

Lemma replicateM_draws (g : Q -> Q) d w :
  replicateM d (u <- random_sample ;; ret (g u)) w =
  (Ok (map g (draws w d)), advance_by d w).
Proof.
  revert w. induction d as [|d IH]; intros w.
  - simpl. unfold ret. by rewrite advance_by_0.
  - rewrite draws_S, <- advance_by_S.
    change (replicateM (S d) (u <- random_sample;; ret (g u)) w)
      with (bind (u <- random_sample;; ret (g u))
              (fun a => bind (replicateM d (u <- random_sample;; ret (g u)))
                          (fun l => ret (a :: l))) w).
    unfold bind at 1. unfold bind at 1. unfold random_sample at 1.
    unfold ret at 1. fold (advance w).
    unfold bind at 1. by rewrite IH.
Qed.

Lemma uniform_scalar_draws lo hi d w :
  uniform_scalar lo hi d w =
  (Ok (map (fun u => lo + (hi - lo) * u)%Q (draws w d)), advance_by d w).
Proof. apply replicateM_draws. Qed.

Lemma rand_draws d w : rand d w = (Ok (draws w d), advance_by d w).
Proof.
  revert w. induction d as [|d IH]; intros w.
  - simpl. unfold ret. by rewrite advance_by_0.
  - rewrite draws_S, <- advance_by_S. unfold rand in *.
    change (replicateM (S d) random_sample w)
      with (bind random_sample
              (fun a => bind (replicateM d random_sample)
                          (fun l => ret (a :: l))) w).
    unfold bind at 1. unfold random_sample at 1. fold (advance w).
    unfold bind at 1. by rewrite IH.
Qed.

Lemma sample_world {A} k (pool l : list A) w w' :
  sample k pool w = (Ok l, w') -> w' = advance_by k w.
Proof.
  revert pool l w. induction k as [|k IH]; intros pool l w H; simpl in H.
  - inv_run. by rewrite advance_by_0.
  - apply bind_Ok in H as (i & w1 & Hi & H).
    unfold randbelow in Hi. apply bind_Ok in Hi as (u & w2 & Hu & Hi).
    apply random_sample_Ok in Hu as [-> ->]. apply ret_Ok in Hi as [-> ->].
    destruct (pool !! _); [|discriminate].
    apply bind_Ok in H as (l' & w3 & Hl & [-> ->]%ret_Ok).
    apply IH in Hl as ->. apply advance_by_S.
Qed.

Lemma choice_world {A} (a l : list A) size w w' :
  choice a size w = (Ok l, w') -> w' = advance_by size w.
Proof.
  unfold choice. destruct (length a <? size)%nat; [discriminate|].
  apply sample_world.
Qed.

(** ** Claims on the best positions of the particle swarm *)

Lemma pso_swarm_best_step
    (function : vec -> Q) (lower upper : vec) (n : nat) (ω φ1 φ2 : Q)
    (s : swarm) (w : world) (s' : swarm) (w' : world) :
  swarm_ok function s ->
  pso_pass function lower upper n ω φ1 φ2 s w = (Ok s', w') ->
  exists xs xs',
    deref s = Ok xs /\ deref s' = Ok xs' /\ (function xs' <= function xs)%Q.
Proof.
  intros [[xs Hxs] Halias] Hpass.
  destruct (pso_pass_below function lower upper n ω φ1 φ2 (function xs)
              _ _ _ _ Hpass) as [[[xs' Hxs'] _] Hle].
  { split; [split; eauto|]. intros ys Hys. rewrite Hxs in Hys.
    injection Hys as <-. lra. }
  exists xs, xs'. split; [done|]. split; [done|]. by apply Hle.
Qed.

(** C2. In a run of [minimize_pso] that returns, the objective of the best
    position of the swarm, seen at the end of each of the [steps] passes,
    never increases: for every pass [k + 1 <= steps], what [x_swarm] shows at
    the end of pass [k + 1] has an objective at most that of what it shows
    at the end of pass [k] (after the initialisation, for [k = 0]). *)
Theorem pso_swarm_best_non_increasing
    (function : objective) (lower upper : sequence) (n : nat) (ω φ1 φ2 : Q)
    (steps : Z) (w : world) (x : vec) (w' : world) (k : nat) :
  minimize_pso function lower upper n ω φ1 φ2 steps w = (Ok x, w') ->
  (Z.of_nat k < steps)%Z ->
  exists s s' xs xs',
    pso_after function lower upper n ω φ1 φ2 w k s /\
    pso_after function lower upper n ω φ1 φ2 w (S k) s' /\
    deref s = Ok xs /\ deref s' = Ok xs' /\
    (function xs' <= function xs)%Q.
Proof.
  unfold minimize_pso, for_range. intros H Hk.
  apply bind_Ok in H as (s0 & w0 & H0 & H).
  apply bind_Ok in H as (sf & wf & H1 & _).
  replace (Z.to_nat steps) with (S k + (Z.to_nat steps - S k)) in H1 by lia.
  apply iterM_prefix in H1 as (s' & w1 & HSk & _).
  pose proof HSk as HSk'.
  apply iterM_S_r in HSk' as (s & wk & Hk' & Hpass).
  pose proof (pso_init_ok _ _ _ _ _ _ _ H0) as Hok0.
  pose proof (pso_passes_ok _ _ _ _ _ _ _ _ _ _ _ _ Hk' Hok0) as Hok.
  destruct (pso_swarm_best_step _ _ _ _ _ _ _ _ _ _ _ Hok Hpass)
    as (xs & xs' & Hxs & Hxs' & Hle).
  exists s, s', xs, xs'. split; [by exists s0, w0, wk|].
  split; [by exists s0, w0, w1|]. done.
Qed.

Lemma pso_swarm_best_non_increasing_witness :
  exists x w' s s' xs xs',
    minimize_pso parabola_rows (ndarray [-4]%Q) (ndarray [4]%Q) 3
      (1#2) (1#5) (1#5) 3 world0 = (Ok x, w') /\
    pso_after parabola_rows (ndarray [-4]%Q) (ndarray [4]%Q) 3
      (1#2) (1#5) (1#5) world0 2 s /\
    pso_after parabola_rows (ndarray [-4]%Q) (ndarray [4]%Q) 3
      (1#2) (1#5) (1#5) world0 3 s' /\
    deref s = Ok xs /\ deref s' = Ok xs' /\
    (parabola xs' <= parabola xs)%Q.
Proof.
  assert (exists x w',
    minimize_pso parabola_rows (ndarray [-4]%Q) (ndarray [4]%Q) 3
      (1#2) (1#5) (1#5) 3 world0 = (Ok x, w'))
    as (x & w' & H) by (do 2 eexists; vm_compute; reflexivity).
  destruct (pso_swarm_best_non_increasing parabola_rows (ndarray [-4]%Q)
              (ndarray [4]%Q) 3 (1#2) (1#5) (1#5) 3 world0 x w' 2 H ltac:(lia))
    as (s & s' & xs & xs' & Hs & Hs' & Hxs & Hxs' & Hle).
  exists x, w', s, s', xs, xs'.
  exact (conj H (conj Hs (conj Hs' (conj Hxs (conj Hxs' Hle))))).
Defined.

Lemma pso_particle_best_slotwise function lower upper ω φ1 φ2 s j w s' w' :
  pso_particle function lower upper ω φ1 φ2 s j w = (Ok s', w') ->
  slotwise_le function (X_best s) (X_best s').
Proof.
  intros H. apply pso_particle_best in H as (Hlen & Hslot & _).
  split; [done|]. intros i b b' Hb Hb'.
  destruct (Hslot i b b' Hb Hb') as [->|[_ Hlt]]; lra.
Qed.

Lemma pso_fold_best_slotwise function lower upper ω φ1 φ2 l s w s' w' :
  foldM (pso_particle function lower upper ω φ1 φ2) l s w = (Ok s', w') ->
  slotwise_le function (X_best s) (X_best s').
Proof.
  apply (foldM_invariant (pso_particle function lower upper ω φ1 φ2)
           (fun s' => slotwise_le function (X_best s) (X_best s'))).
  - intros s1 a w1 s1' w1' _ Hs1 Hrun.
    eapply slotwise_le_trans; [exact Hs1|].
    by eapply pso_particle_best_slotwise.
  - apply slotwise_le_refl.
Qed.

Lemma pso_passes_best_slotwise function lower upper n ω φ1 φ2 k s w s' w' :
  iterM k (pso_pass function lower upper n ω φ1 φ2) s w = (Ok s', w') ->
  slotwise_le function (X_best s) (X_best s').
Proof.
  apply (iterM_invariant (pso_pass function lower upper n ω φ1 φ2)
           (fun s' => slotwise_le function (X_best s) (X_best s'))).
  - intros s1 w1 s1' w1' Hs1 Hrun.
    eapply slotwise_le_trans; [exact Hs1|].
    by eapply pso_fold_best_slotwise.
  - apply slotwise_le_refl.
Qed.

(** C10. In a run of [minimize_pso] the personal best of a particle changes
    only to a position of strictly smaller objective, and only in the
    update of that particle; so its objective never increases, over any
    part of a pass and over any number of passes; and right after the
    update of particle [j] the objective of its personal best is at most
    the objective of its position. *)
Theorem pso_personal_best_only_improves
    (function : vec -> Q) (lower upper : vec) (n : nat) (ω φ1 φ2 : Q) :
  (forall s j w s' w',
     pso_particle function lower upper ω φ1 φ2 s j w = (Ok s', w') ->
     (forall i b b', X_best s !! i = Some b -> X_best s' !! i = Some b' ->
        b' = b \/ (i = j /\ (function b' < function b)%Q)) /\
     (exists x b, X s' !! j = Some x /\ X_best s' !! j = Some b /\
                  (function b <= function x)%Q)) /\
  (forall particles s w s' w',
     foldM (pso_particle function lower upper ω φ1 φ2) particles s w
       = (Ok s', w') ->
     slotwise_le function (X_best s) (X_best s')) /\
  (forall k s w s' w',
     iterM k (pso_pass function lower upper n ω φ1 φ2) s w = (Ok s', w') ->
     slotwise_le function (X_best s) (X_best s')).
Proof.
  split; [|split].
  - intros s j w s' w' H. apply pso_particle_best in H as (_ & ? & ?). done.
  - intros particles s w s' w'. apply pso_fold_best_slotwise.
  - intros k s w s' w'. apply pso_passes_best_slotwise.
Qed.

Lemma pso_personal_best_only_improves_witness :
  exists s' w',
    iterM 2 (pso_pass parabola [-4]%Q [4]%Q 3 (1#2) (1#5) (1#5)) swarm0 world0
      = (Ok s', w') /\
    slotwise_le parabola (X_best swarm0) (X_best s').
Proof.
  do 2 eexists. split; [vm_compute; reflexivity|].
  eapply (proj2 (proj2 (pso_personal_best_only_improves
            parabola [-4]%Q [4]%Q 3 (1#2) (1#5) (1#5))) 2 swarm0 world0).
  vm_compute. reflexivity.
Defined.

(** ** Claims on runs without a step *)

(** C8, as the code has it: for the objective [np.sum((x - 1)**2)], which
    returns one number for a matrix, both routines return with [steps = 0]
    the row [0] of what they have drawn, [[-4]] of objective [25], although
    the row [2], [[188/101]], has an objective less than [1]. *)
Lemma zero_steps_result_is_not_the_minimum :
  (exists x w' P0 w0 y,
     de_init (pylist [-4]%Q) (pylist [4]%Q) 4 world0 = (Ok P0, w0) /\
     minimize_de parabola_of_all (pylist [-4]%Q) (pylist [4]%Q) 4 (1#2) (7#10)
       0 world0 = (Ok x, w') /\
     P0 !! 0 = Some x /\ P0 !! 2 = Some y /\
     (parabola y < parabola x)%Q /\
     ~ first_min parabola P0 x) /\
  (exists x w' s0 y,
     pso_init parabola_of_all (ndarray [-4]%Q) (ndarray [4]%Q) 4 world0
       = (Ok s0, w') /\
     minimize_pso parabola_of_all (ndarray [-4]%Q) (ndarray [4]%Q) 4
       (1#2) (1#5) (1#5) 0 world0 = (Ok x, w') /\
     X s0 !! 0 = Some x /\ X s0 !! 2 = Some y /\
     (parabola y < parabola x)%Q /\
     ~ first_min parabola (X s0) x).
Proof.
  split.
  - do 5 eexists.
    split; [vm_compute; reflexivity|]. split; [vm_compute; reflexivity|].
    split; [reflexivity|]. split; [reflexivity|].
    split; [vm_compute; reflexivity|].
    intros (b & _ & Hle & _). specialize (Hle 2 _ eq_refl).
    vm_compute in Hle. by apply Hle.
  - do 4 eexists.
    split; [vm_compute; reflexivity|]. split; [vm_compute; reflexivity|].
    split; [reflexivity|]. split; [reflexivity|].
    split; [vm_compute; reflexivity|].
    intros (b & _ & Hle & _). specialize (Hle 2 _ eq_refl).
    vm_compute in Hle. by apply Hle.
Qed.

(** C8. With [steps = 0], [minimize_de] returns, of the population it has
    just drawn, the row at the first least entry of what the one call of the
    objective on the whole population returned, and [minimize_pso] returns
    its initial [x_swarm], the row of the initial positions picked in the
    same way.  When the objective evaluates the rows of a matrix (and the
    bounds have a finite range, the population is of one or more and, for
    [minimize_pso], the bounds are not two Python lists), the routines
    return, and that row is the individual, or the position, of least
    objective, the first of them. *)
Theorem zero_steps_return_best_of_initial
    (function : objective) (lower upper : sequence) (n : nat)
    (mutation crossover ω φ1 φ2 : Q) (w : world) :
  (forall x w',
     minimize_de function lower upper n mutation crossover 0 w = (Ok x, w') ->
     exists P0 w0 values best,
       de_init lower upper n w = (Ok P0, w0) /\
       on_matrix function P0 = Ok values /\
       argmin values = Ok best /\
       P0 !! best = Some x) /\
  (forall x w',
     minimize_pso function lower upper n ω φ1 φ2 0 w = (Ok x, w') ->
     exists s0 values best,
       pso_init function lower upper n w = (Ok s0, w') /\
       on_matrix function (X s0) = Ok values /\
       argmin values = Ok best /\
       x_swarm s0 = RowOfX best /\
       deref s0 = Ok x) /\
  (finite_range lower upper -> 1 <= n -> vectorised function ->
   exists P0 w0 x w',
     de_init lower upper n w = (Ok P0, w0) /\
     minimize_de function lower upper n mutation crossover 0 w = (Ok x, w') /\
     first_min function P0 x) /\
  (finite_range lower upper -> 1 <= n -> vectorised function ->
   both_lists upper lower = false ->
   exists s0 w0 X0 w1 x,
     uniform (items lower) (items upper) n (length lower) w = (Ok X0, w1) /\
     pso_init function lower upper n w = (Ok s0, w0) /\
     X s0 = X0 /\
     minimize_pso function lower upper n ω φ1 φ2 0 w = (Ok x, w0) /\
     deref s0 = Ok x /\
     first_min function X0 x).
Proof.
  split; [|split; [|split]].
  - intros x w' H.
    apply minimize_de_Ok in H as (P0 & w0 & P & w1 & H0 & H1 & H2).
    simpl in H1. apply ret_Ok in H1 as [-> ->].
    apply de_best_Ok in H2 as (values & best & Hv & Hb & Hx & _).
    by exists P0, w0, values, best.
  - intros x w' H. unfold minimize_pso, for_range in H. simpl in H.
    apply bind_Ok in H as (s0 & w0 & H0 & H).
    apply bind_Ok in H as (s & w1 & [-> ->]%ret_Ok & [Hx ->]%lift_Ok).
    pose proof (pso_init_Ok _ _ _ _ _ _ _ H0)
      as (X0 & w1 & U & w2 & span & V0 & values & k & xk & _ & _ & _ & _ &
          Hv & Hk & _ & -> & _).
    by exists {| X := X0; V := V0; X_best := X0; x_swarm := RowOfX k |},
      values, k.
  - intros Hr Hn Hf.
    pose proof (finite_range_length _ _ Hr) as Hlen.
    destruct (uniform_total lower upper n w Hr) as (P0 & w0 & H0).
    pose proof (de_init_inv _ _ _ _ _ _ Hlen H0) as [HnP _].
    destruct (de_best_total function P0 w0 Hf) as (x & w' & Hx).
    { destruct P0; [simpl in HnP; lia|done]. }
    exists P0, w0, x, w'. split; [done|]. split.
    + unfold minimize_de, for_range, de_init. simpl.
      rewrite (bind_step _ _ _ _ _ H0). unfold bind at 1, ret. exact Hx.
    + by eapply de_best_first_min.
  - intros Hr Hn Hf Hk.
    destruct (pso_init_total function lower upper n w Hr Hk Hf Hn)
      as (s0 & w0 & H0 & I0).
    pose proof (pso_init_Ok _ _ _ _ _ _ _ H0)
      as (X0 & w1 & U & w2 & span & V0 & values & k & xk & HX0 & _ & _ & _ &
          Hv & Hk' & Hxk & -> & _).
    rewrite Hf in Hv. injection Hv as <-.
    exists {| X := X0; V := V0; X_best := X0; x_swarm := RowOfX k |},
      w0, X0, w1, xk.
    assert (deref {| X := X0; V := V0; X_best := X0; x_swarm := RowOfX k |}
            = Ok xk) as Hx by (by apply row_Ok).
    split; [done|]. split; [done|]. split; [done|]. split.
    + unfold minimize_pso, for_range. simpl.
      rewrite (bind_step _ _ _ _ _ H0). unfold bind at 1, ret, lift.
      by rewrite Hx.
    + split; [done|]. by apply (first_min_of_values _ _ k).
Qed.

Lemma zero_steps_return_best_of_initial_witness :
  (exists P0 w0 x w',
     de_init (pylist [-4]%Q) (pylist [4]%Q) 4 world0 = (Ok P0, w0) /\
     minimize_de parabola_rows (pylist [-4]%Q) (pylist [4]%Q) 4 (1#2) (7#10)
       0 world0 = (Ok x, w') /\
     first_min parabola P0 x) /\
  (exists s0 w0 X0 w1 x,
     uniform [Finite (-4)] [Finite 4] 4 1 world0 = (Ok X0, w1) /\
     pso_init parabola_rows (ndarray [-4]%Q) (ndarray [4]%Q) 4 world0
       = (Ok s0, w0) /\
     X s0 = X0 /\
     minimize_pso parabola_rows (ndarray [-4]%Q) (ndarray [4]%Q) 4
       (1#2) (1#5) (1#5) 0 world0 = (Ok x, w0) /\
     deref s0 = Ok x /\
     first_min parabola X0 x).
Proof.
  split.
  - apply (proj1 (proj2 (proj2 (zero_steps_return_best_of_initial
             parabola_rows (pylist [-4]%Q) (pylist [4]%Q) 4
             (1#2) (7#10) (1#2) (1#5) (1#5) world0)))).
    + repeat constructor.
    + lia.
    + apply rowwise_vectorised.
  - apply (proj2 (proj2 (proj2 (zero_steps_return_best_of_initial
             parabola_rows (ndarray [-4]%Q) (ndarray [4]%Q) 4
             (1#2) (7#10) (1#2) (1#5) (1#5) world0)))).
    + repeat constructor.
    + lia.
    + apply rowwise_vectorised.
    + reflexivity.
Defined.

(** ** Claims on the bounds *)

Section Bounds.
Variable function : objective.
Variables lower upper : sequence.
Variable n : nat.
Variables mutation crossover ω φ1 φ2 : Q.
Hypothesis Hdom : valid_domain lower upper.

Lemma de_init_in_box P w w' :
  de_init lower upper n w = (Ok P, w') ->
  de_inv lower n P /\ all_in_box lower upper P.
Proof.
  intros H. split.
  - eapply de_init_inv; [apply Hdom|exact H].
  - by eapply uniform_in_box.
Qed.

Lemma minimize_de_in_box steps w x w' :
  minimize_de function lower upper n mutation crossover steps w = (Ok x, w') ->
  length x = length lower /\ in_box lower upper x.
Proof.
  intros H. apply minimize_de_Ok in H as (P0 & w0 & P & w1 & H0 & H1 & H2).
  apply de_init_in_box in H0 as [I0 B0].
  destruct (de_passes_in_box function lower upper n mutation crossover
              _ _ _ _ _ Hdom I0 B0 H1) as [[_ Hs] Hb].
  apply de_best_Ok in H2 as (values & b & _ & _ & Hx & _).
  split.
  - exact (well_shaped_lookup _ _ _ _ Hs Hx).
  - unfold all_in_box in Hb. rewrite Forall_lookup in Hb. by eapply Hb.
Qed.

Lemma pso_stage_good (stage : swarm -> nat -> M swarm) s j w s' w' :
  stage ∈ [pso_update_velocity lower ω φ1 φ2;
           pso_update_position lower upper;
           pso_update_best function;
           pso_update_swarm function] ->
  pso_good lower upper n s -> j < n ->
  stage s j w = (Ok s', w') -> pso_good lower upper n s'.
Proof.
  intros Hstage [Hinv Hbox] Hj H. pose proof Hdom as [Hlen _].
  repeat (apply elem_of_cons in Hstage as [->|Hstage]).
  - destruct (pso_update_velocity_total lower upper n ω φ1 φ2 Hlen s j w Hinv Hj)
      as (? & ? & E & I).
    rewrite H in E. injection E as <- <-. split; [done|].
    eapply pso_update_velocity_box; [exact Hbox|exact H].
  - destruct (pso_update_position_total lower upper n Hlen s j w Hinv Hj)
      as (? & ? & E & I).
    rewrite H in E. injection E as <- <-. split; [done|].
    eapply pso_update_position_box; [exact Hdom|exact Hinv|exact Hbox|exact H].
  - destruct (pso_update_best_total function lower upper n Hlen s j w Hinv Hj)
      as (? & ? & E & I).
    rewrite H in E. injection E as <- <-. split; [done|].
    eapply pso_update_best_box; [exact Hbox|exact H].
  - destruct (pso_update_swarm_total function lower upper n Hlen s j w Hinv Hj)
      as (? & ? & E & I).
    rewrite H in E. injection E as <- <-. split; [done|].
    eapply pso_update_swarm_box; [exact Hbox|exact H].
  - by apply elem_of_nil in Hstage.
Qed.

Lemma minimize_pso_in_box steps w x w' :
  minimize_pso function lower upper n ω φ1 φ2 steps w = (Ok x, w') ->
  length x = length lower /\ in_box lower upper x.
Proof.
  unfold minimize_pso, for_range. intros H.
  apply bind_Ok in H as (s0 & w0 & H0 & H).
  apply bind_Ok in H as (s & w1 & H1 & [Hx ->]%lift_Ok).
  apply pso_init_good in H0; [|done].
  destruct (pso_passes_good function lower upper n ω φ1 φ2 Hdom _ _ _ _ _ H0 H1)
    as [Hinv Hbox].
  split.
  - destruct (deref_total _ _ _ Hinv) as (xs & Hxs & Hl). congruence.
  - by eapply deref_in_box.
Qed.

End Bounds.

(** C3. On a search domain (bounds of equal lengths with
    [lower[i] <= upper[i]] on every axis), every position of a run of
    [minimize_de] or [minimize_pso] has each coordinate between the bounds of
    its axis: the populations and swarms drawn at the start; the population
    after the update of any individual, and the trial vector; the positions
    and the personal bests after any of the four updates of a particle; the
    best position of the swarm; and the vector returned. *)
Theorem positions_stay_in_box
    (function : objective) (lower upper : sequence) (n : nat)
    (mutation crossover ω φ1 φ2 : Q) :
  valid_domain lower upper ->
  (forall w P w',
     de_init lower upper n w = (Ok P, w') ->
     de_inv lower n P /\ all_in_box lower upper P) /\
  (forall P j w P' w',
     de_inv lower n P -> all_in_box lower upper P ->
     de_individual function lower upper n mutation crossover P j w = (Ok P', w') ->
     de_inv lower n P' /\ all_in_box lower upper P') /\
  (forall P j x_target w x_new w',
     de_inv lower n P -> in_box lower upper x_target ->
     de_trial lower upper n mutation crossover P j x_target w = (Ok x_new, w') ->
     in_box lower upper x_new) /\
  (forall steps w x w',
     minimize_de function lower upper n mutation crossover steps w = (Ok x, w') ->
     length x = length lower /\ in_box lower upper x) /\
  (forall w s w',
     pso_init function lower upper n w = (Ok s, w') ->
     pso_good lower upper n s) /\
  (forall stage s j w s' w',
     stage ∈ [pso_update_velocity lower ω φ1 φ2;
              pso_update_position lower upper;
              pso_update_best function;
              pso_update_swarm function] ->
     pso_good lower upper n s -> j < n ->
     stage s j w = (Ok s', w') -> pso_good lower upper n s') /\
  (forall s xs,
     pso_good lower upper n s -> deref s = Ok xs -> in_box lower upper xs) /\
  (forall steps w x w',
     minimize_pso function lower upper n ω φ1 φ2 steps w = (Ok x, w') ->
     length x = length lower /\ in_box lower upper x).
Proof.
  intros Hdom. split_and!.
  - intros w P w'. by apply de_init_in_box.
  - intros P j w P' w' HP Hbox H. split.
    + eapply de_individual_inv; [apply Hdom|exact HP|exact H].
    + eapply de_individual_in_box; [exact Hdom|apply HP|exact Hbox|exact H].
  - intros P j x_target w x_new w' [_ Hs] Ht H.
    eapply de_trial_in_box; [exact Hdom|exact Hs|exact Ht|exact H].
  - intros steps w x w'. by apply minimize_de_in_box.
  - intros w s w'. by apply pso_init_good.
  - intros stage s j w s' w'. by apply pso_stage_good.
  - intros s xs [_ Hbox]. by apply deref_in_box.
  - intros steps w x w'. by apply minimize_pso_in_box.
Qed.

Lemma positions_stay_in_box_witness :
  valid_domain [-4]%Q [4]%Q /\
  (exists x w',
     minimize_de parabola_rows (pylist [-4]%Q) (pylist [4]%Q) 4 (1#2) (7#10)
       2 world0 = (Ok x, w') /\
     length x = 1 /\ in_box [-4]%Q [4]%Q x) /\
  (exists x w',
     minimize_pso parabola_rows (ndarray [-4]%Q) (ndarray [4]%Q) 3
       (1#2) (1#5) (1#5) 2 world0 = (Ok x, w') /\
     length x = 1 /\ in_box [-4]%Q [4]%Q x).
Proof.
  assert (valid_domain [-4]%Q [4]%Q) as Hdom.
  { split; [reflexivity|]. intros [|i] lo hi; simpl; [|discriminate].
    intros [= <-] [= <-]. vm_compute. discriminate. }
  pose proof (positions_stay_in_box parabola_rows (pylist [-4]%Q)
                (pylist [4]%Q) 4 (1#2) (7#10) (1#2) (1#5) (1#5) Hdom)
    as (_ & _ & _ & Hde & _).
  pose proof (positions_stay_in_box parabola_rows (ndarray [-4]%Q)
                (ndarray [4]%Q) 3 (1#2) (7#10) (1#2) (1#5) (1#5) Hdom)
    as (_ & _ & _ & _ & _ & _ & _ & Hpso).
  split; [exact Hdom|]. split.
  - do 2 eexists. split; [vm_compute; reflexivity|].
    eapply (Hde 2%Z world0). vm_compute. reflexivity.
  - do 2 eexists. split; [vm_compute; reflexivity|].
    eapply (Hpso 2%Z world0). vm_compute. reflexivity.
Defined.

(** ** Claims on the update rules *)

Lemma draws_range w k : Forall (fun u => (0 <= u /\ u < 1)%Q) (draws w k).
Proof.
  unfold draws. apply Forall_fmap, Forall_forall. intros i _. apply frac_range.
Qed.

Lemma length_draws w k : length (draws w k) = k.
Proof. unfold draws. by rewrite length_map, length_seq. Qed.

Lemma pso_velocity_lookup ω (r1 r2 v x_best x xs : vec) i a b vi bi xi si :
  r1 !! i = Some a -> r2 !! i = Some b -> v !! i = Some vi ->
  x_best !! i = Some bi -> x !! i = Some xi -> xs !! i = Some si ->
  pso_velocity ω r1 r2 v x_best x xs !! i
    = Some (ω * vi + a * (bi - xi) + b * (si - xi))%Q.
Proof.
  intros H1 H2 Hv Hb Hx Hs. unfold pso_velocity, vadd, vmul, vsub, scalev.
  rewrite !lookup_zip_with, list_lookup_fmap.
  by rewrite H1, H2, Hv, Hb, Hx, Hs.
Qed.

Lemma clip_lookup (x lower upper c : vec) i xi lo hi :
  length x = length lower -> length upper = length lower ->
  clip x lower upper = Ok c ->
  x !! i = Some xi -> lower !! i = Some lo -> upper !! i = Some hi ->
  c !! i = Some (Qmin (Qmax xi lo) hi).
Proof.
  intros Hx Hu. rewrite clip_same by done. intros [= <-] H1 H2 H3.
  rewrite !lookup_zip_with. by rewrite H1, H2, H3.
Qed.

(** C7. The update of particle [j] of [minimize_pso]: two vectors [r1] and
    [r2] are drawn for this update, one new draw [u] of [[0, 1)] per
    coordinate, scaled to [0 + (φ1 - 0) u] and [0 + (φ2 - 0) u]; the
    velocity becomes [ω V[j] + r1 (X_best[j] - X[j]) + r2 (x_swarm - X[j])],
    coordinate by coordinate; the position becomes
    [clip (X[j] + V[j], lower, upper)], each coordinate clamped between the
    bounds of its axis; and the velocity stored is the one computed, which
    the clamping of the position does not touch. *)
Theorem pso_particle_update_rule
    (function : vec -> Q) (lower upper : vec) (ω φ1 φ2 : Q)
    (s : swarm) (j : nat) (w : world) (s' : swarm) (w' : world) :
  pso_particle function lower upper ω φ1 φ2 s j w = (Ok s', w') ->
  exists v x_best x xs x',
    let d := length lower in
    let r1 := map (fun u => 0 + (φ1 - 0) * u)%Q (draws w d) in
    let r2 := map (fun u => 0 + (φ2 - 0) * u)%Q (draws (advance_by d w) d) in
    let v' := pso_velocity ω r1 r2 v x_best x xs in
    V s !! j = Some v /\ X_best s !! j = Some x_best /\ X s !! j = Some x /\
    deref s = Ok xs /\
    Forall (fun u => (0 <= u /\ u < 1)%Q) (draws w d) /\
    Forall (fun u => (0 <= u /\ u < 1)%Q) (draws (advance_by d w) d) /\
    tape w' = tape w /\ cursor w' = cursor w + d + d /\
    (forall i a b vi bi xi si,
       r1 !! i = Some a -> r2 !! i = Some b -> v !! i = Some vi ->
       x_best !! i = Some bi -> x !! i = Some xi -> xs !! i = Some si ->
       v' !! i = Some (ω * vi + a * (bi - xi) + b * (si - xi))%Q) /\
    V s' = <[j := v']> (V s) /\
    clip (vadd x v') lower upper = Ok x' /\
    (length (vadd x v') = d -> length upper = d ->
     forall i xi vi lo hi,
       x !! i = Some xi -> v' !! i = Some vi ->
       lower !! i = Some lo -> upper !! i = Some hi ->
       x' !! i = Some (Qmin (Qmax (xi + vi) lo) hi)) /\
    X s' = <[j := x']> (X s).
Proof.
  intros H. apply pso_particle_Ok in H
    as (r1 & r2 & v & xb & x & xs & x' & w1 & w2 & Hr1 & Hr2 & Hv & Hxb & Hx &
        Hxs & Hclip & xb' & xs' & Hxb' & Hxs' & -> & ->).
  rewrite uniform_scalar_draws in Hr1. injection Hr1 as <- <-.
  rewrite uniform_scalar_draws in Hr2. injection Hr2 as <- <-.
  exists v, xb, x, xs, x'. simpl.
  split; [done|]. split; [done|]. split; [done|]. split; [done|].
  split; [apply draws_range|]. split; [apply draws_range|].
  split; [done|]. split; [done|]. split.
  { intros i a b vi bi xi si. apply pso_velocity_lookup. }
  split.
  { unfold pso_shared, pso_remembered, pso_moved.
    by repeat destruct (Qltb _ _). }
  split; [done|]. split.
  { intros Hl Hu i xi vi lo hi Hxi Hvi Hlo Hhi.
    eapply clip_lookup; [exact Hl|exact Hu|exact Hclip| |done|done].
    unfold vadd. by rewrite lookup_zip_with, Hxi, Hvi. }
  unfold pso_shared, pso_remembered, pso_moved.
  by repeat destruct (Qltb _ _).
Qed.

Lemma pso_particle_update_rule_witness :
  exists s' w',
    pso_particle parabola [-4]%Q [4]%Q (1#2) (1#5) (1#5) swarm1 0 world0
      = (Ok s', w') /\
    X s' = [[4]]%Q /\ (exists c, V s' = [[c]] /\ (c == 2)%Q) /\
    exists v x_best x xs x',
      let r1 := map (fun u => 0 + ((1#5) - 0) * u)%Q (draws world0 1) in
      let r2 := map (fun u => 0 + ((1#5) - 0) * u)%Q (draws (advance_by 1 world0) 1) in
      let v' := pso_velocity (1#2) r1 r2 v x_best x xs in
      V swarm1 !! 0 = Some v /\ X swarm1 !! 0 = Some x /\
      V s' = <[0 := v']> (V swarm1) /\
      clip (vadd x v') [-4]%Q [4]%Q = Ok x' /\
      X s' = <[0 := x']> (X swarm1).
Proof.
  do 2 eexists. split; [vm_compute; reflexivity|].
  split; [reflexivity|]. split; [eexists; split; reflexivity|].
  destruct (pso_particle_update_rule parabola [-4]%Q [4]%Q (1#2) (1#5) (1#5)
              swarm1 0 world0 _ _ ltac:(vm_compute; reflexivity))
    as (v & xb & x & xs & x' & Hv & _ & Hx & _ & _ & _ & _ & _ & _ & HV & Hc & _ & HX).
  exists v, xb, x, xs, x'. simpl. done.
Defined.

Lemma de_mutant_lookup (lower upper : vec) mutation (x1 x2 x3 m : vec)
    k a b c lo hi :
  length upper = length lower ->
  length x1 = length lower -> length x2 = length lower ->
  length x3 = length lower ->
  de_mutant lower upper mutation x1 x2 x3 = Ok m ->
  x1 !! k = Some a -> x2 !! k = Some b -> x3 !! k = Some c ->
  lower !! k = Some lo -> upper !! k = Some hi ->
  m !! k = Some (Qmin (Qmax (a + (b - c) * mutation) lo) hi).
Proof.
  intros Hu H1 H2 H3. rewrite de_mutant_Ok by done.
  intros [= <-] Ha Hb Hc Hlo Hhi. unfold vadd, vscale, vsub.
  rewrite !lookup_zip_with, list_lookup_fmap, lookup_zip_with.
  by rewrite Ha, Hb, Hc, Hlo, Hhi.
Qed.

Lemma de_crossover_lookup crossover (r m t : vec) k u mk tk :
  r !! k = Some u -> m !! k = Some mk -> t !! k = Some tk ->
  de_crossover crossover r m t !! k = Some (if Qltb u crossover then mk else tk).
Proof.
  intros Hr Hm Ht. unfold de_crossover. apply where_lookup.
  exists (Qltb u crossover), mk, tk. split; [|done].
  unfold vlt. by rewrite list_lookup_fmap, Hr.
Qed.

(** When no draw is below [crossover], the trial is the target itself. *)
Lemma de_crossover_none crossover (r m t : vec) :
  Forall (fun u => (crossover <= u)%Q) r ->
  length r = length t -> length m = length t ->
  de_crossover crossover r m t = t.
Proof.
  intros Hr Hlr Hlm. apply list_eq. intros k.
  destruct (t !! k) as [tk|] eqn:Ht.
  - destruct (lookup_lt_is_Some_2 r k) as [u Hu].
    { apply lookup_lt_Some in Ht. lia. }
    destruct (lookup_lt_is_Some_2 m k) as [mk Hm].
    { apply lookup_lt_Some in Ht. lia. }
    rewrite (de_crossover_lookup _ _ _ _ _ _ _ _ Hu Hm Ht).
    rewrite Forall_lookup in Hr. specialize (Hr k u Hu).
    apply Qltb_ge in Hr. by rewrite Hr.
  - apply lookup_ge_None. apply lookup_ge_None in Ht.
    unfold de_crossover, where_. rewrite length_zip_with, length_zip. lia.
Qed.

Lemma de_trial_run lower upper n mutation crossover P j x_target x_new w w' :
  de_trial lower upper n mutation crossover P j x_target w = (Ok x_new, w') ->
  exists cands i1 i2 i3 x1 x2 x3 m,
    list_remove j (seq 0 n) = Ok cands /\
    choice cands 3 w = (Ok [i1; i2; i3], advance_by 3 w) /\
    P !! i1 = Some x1 /\ P !! i2 = Some x2 /\ P !! i3 = Some x3 /\
    de_mutant lower upper mutation x1 x2 x3 = Ok m /\
    x_new = de_crossover crossover
              (draws (advance_by 3 w) (length lower)) m x_target /\
    w' = advance_by (length lower) (advance_by 3 w).
Proof.
  unfold de_trial. intros H.
  apply bind_Ok in H as (cands & w1 & [Hc ->]%lift_Ok & H).
  apply bind_Ok in H as (idx & w2 & Hidx & H).
  apply bind_Ok in H as (picked & w3 & [Hp ->]%lift_Ok & H).
  destruct picked as [|x1 [|x2 [|x3 [|? ?]]]]; try discriminate H.
  apply bind_Ok in H as (m & w4 & [Hm ->]%lift_Ok & H).
  apply bind_Ok in H as (r & w5 & Hr & [-> ->]%ret_Ok).
  apply take_rows_Ok in Hp.
  pose proof (choice_world _ _ _ _ _ Hidx) as ->.
  rewrite rand_draws in Hr. injection Hr as <- <-.
  apply Forall2_cons_inv_r in Hp as (i1 & idx1 & H1 & Hp & ->).
  apply Forall2_cons_inv_r in Hp as (i2 & idx2 & H2 & Hp & ->).
  apply Forall2_cons_inv_r in Hp as (i3 & idx3 & H3 & Hp & ->).
  apply Forall2_nil_inv_r in Hp as ->.
  by exists cands, i1, i2, i3, x1, x2, x3, m.
Qed.

(** Every sample can be drawn: the draws that pick it. *)
Lemma Qfloor_unit (q : Q) : (0 <= q)%Q -> (q < 1)%Q -> Qfloor q = 0%Z.
Proof.
  intros H0 H1. pose proof (Qfloor_le q) as Hle.
  pose proof (Qlt_floor q) as Hlt. rewrite inject_Z_plus in Hlt.
  change (inject_Z 1) with 1%Q in Hlt.
  assert (Qfloor q < 1)%Z as Hup.
  { rewrite Zlt_Qlt. change (inject_Z 1) with 1%Q. lra. }
  assert (-1 < Qfloor q)%Z as Hlow.
  { rewrite Zlt_Qlt. change (inject_Z (-1)) with (-1)%Q. lra. }
  lia.
Qed.

Lemma randbelow_hit m i w :
  i < m ->
  tape w (cursor w) = (inject_Z (Z.of_nat i) / inject_Z (Z.of_nat m))%Q ->
  randbelow m w = (Ok i, advance w).
Proof.
  intros Hi Ht. unfold randbelow, bind, random_sample, ret. fold (advance w).
  f_equal. f_equal. rewrite Ht.
  set (q := (inject_Z (Z.of_nat i) / inject_Z (Z.of_nat m))%Q).
  assert (0 < inject_Z (Z.of_nat m))%Q as Hm.
  { change 0%Q with (inject_Z 0). rewrite <- Zlt_Qlt. lia. }
  assert (0 <= inject_Z (Z.of_nat i))%Q as Hi0.
  { change 0%Q with (inject_Z 0). rewrite <- Zle_Qle. lia. }
  assert (inject_Z (Z.of_nat i) < inject_Z (Z.of_nat m))%Q as Him.
  { rewrite <- Zlt_Qlt. lia. }
  assert (q * inject_Z (Z.of_nat m) == inject_Z (Z.of_nat i))%Q as Hq.
  { unfold q. field. lra. }
  assert (0 <= q)%Q as Hq0.
  { unfold q. apply Qle_shift_div_l; [done|]. lra. }
  assert (q < 1)%Q as Hq1.
  { unfold q. apply Qlt_shift_div_r; [done|]. lra. }
  assert (frac q == q)%Q as Hfrac.
  { unfold frac. rewrite (Qfloor_unit q Hq0 Hq1).
    change (inject_Z 0) with 0%Q. lra. }
  rewrite Hfrac, Hq, Qfloor_Z. lia.
Qed.

Lemma sample_reaches {A} (l pool : list A) :
  NoDup l -> (forall x, x ∈ l -> x ∈ pool) ->
  exists qs : list Q,
    length qs = length l /\
    forall w,
      (forall t q, qs !! t = Some q -> tape w (cursor w + t) = q) ->
      sample (length l) pool w = (Ok l, advance_by (length l) w).
Proof.
  revert pool. induction l as [|a l IH]; intros pool Hnd Hsub.
  - exists []. split; [done|]. intros w _. simpl. unfold ret.
    by rewrite advance_by_0.
  - apply NoDup_cons in Hnd as [Ha Hnd].
    destruct (list_elem_of_lookup_1 pool a) as [i Hi].
    { apply Hsub, list_elem_of_here. }
    destruct (IH (delete i pool) Hnd) as (qs & Hlen & Hqs).
    { intros x Hx.
      assert (x ∈ pool) as Hxp by (by apply Hsub, list_elem_of_further).
      rewrite (delete_Permutation _ _ _ Hi) in Hxp.
      apply elem_of_cons in Hxp as [->|Hxp]; [done|done]. }
    exists ((inject_Z (Z.of_nat i) / inject_Z (Z.of_nat (length pool)))%Q :: qs).
    split; [simpl; lia|]. intros w Hw. simpl.
    rewrite (bind_step _ _ _ _ _
               (randbelow_hit (length pool) i w
                  ltac:(by apply lookup_lt_Some in Hi)
                  ltac:(rewrite <- (Hw 0 _ eq_refl); f_equal; lia))).
    rewrite Hi.
    assert (sample (length l) (delete i pool) (advance w)
            = (Ok l, advance_by (length l) (advance w))) as Hrest.
    { apply Hqs. intros t q Ht. rewrite <- (Hw (S t) q Ht). simpl.
      f_equal. lia. }
    rewrite (bind_step _ _ _ _ _ Hrest). unfold ret. by rewrite advance_by_S.
Qed.

Lemma choice_reaches {A} (l pool : list A) :
  NoDup l -> (forall x, x ∈ l -> x ∈ pool) ->
  exists qs : list Q,
    length qs = length l /\
    forall w,
      (forall t q, qs !! t = Some q -> tape w (cursor w + t) = q) ->
      choice pool (length l) w = (Ok l, advance_by (length l) w).
Proof.
  intros Hnd Hsub.
  destruct (sample_reaches l pool Hnd Hsub) as (qs & Hlen & Hqs).
  exists qs. split; [done|]. intros w Hw. unfold choice.
  destruct (Nat.ltb_spec (length pool) (length l)) as [Hlt|_]; [|by apply Hqs].
  pose proof (submseteq_length _ _ (NoDup_submseteq _ _ Hnd Hsub)). lia.
Qed.

(** C6. Mutation and cross-over of [minimize_de] for the target [j]: three
    indices are chosen without replacement among [range(n)] without [j], so
    they are distinct, in range and different from [j]; the mutant is
    [x1 + (x2 - x3) * mutation] with each coordinate clamped between the
    bounds of its axis; each coordinate has its own draw of [[0, 1)], and
    the trial keeps the coordinate of the mutant exactly when that draw is
    less than [crossover] and the coordinate of the target otherwise; when
    no draw is below [crossover] the trial is the target, which happens in
    a run where the mutant differs from the target.  Every ordered triple
    of distinct indices of [range(n)] other than [j] is the choice for some
    state of the generator. *)
Theorem de_mutation_and_crossover_rule :
  (forall (lower upper : vec) (n : nat) (mutation crossover : Q)
          (P : matrix) (j : nat) (x_target x_new : vec) (w w' : world),
     length upper = length lower ->
     well_shaped (length lower) P ->
     length x_target = length lower ->
     de_trial lower upper n mutation crossover P j x_target w = (Ok x_new, w') ->
     exists cands i1 i2 i3 x1 x2 x3 m,
       let r := draws (advance_by 3 w) (length lower) in
       list_remove j (seq 0 n) = Ok cands /\
       choice cands 3 w = (Ok [i1; i2; i3], advance_by 3 w) /\
       NoDup [i1; i2; i3] /\
       (forall i, i ∈ [i1; i2; i3] -> i < n /\ i <> j) /\
       P !! i1 = Some x1 /\ P !! i2 = Some x2 /\ P !! i3 = Some x3 /\
       length m = length lower /\
       (forall k a b c lo hi,
          x1 !! k = Some a -> x2 !! k = Some b -> x3 !! k = Some c ->
          lower !! k = Some lo -> upper !! k = Some hi ->
          m !! k = Some (Qmin (Qmax (a + (b - c) * mutation) lo) hi) /\
          (Qmin (Qmax (a + (b - c) * mutation) lo) hi
           == Qmin (Qmax (a + mutation * (b - c)) lo) hi)%Q) /\
       Forall (fun u => (0 <= u /\ u < 1)%Q) r /\
       length r = length lower /\
       length x_new = length lower /\
       (forall k u mk tk,
          r !! k = Some u -> m !! k = Some mk -> x_target !! k = Some tk ->
          x_new !! k = Some (if Qltb u crossover then mk else tk)) /\
       (Forall (fun u => (crossover <= u)%Q) r -> x_new = x_target)) /\
  (forall (n j i1 i2 i3 : nat) (cands : list nat),
     list_remove j (seq 0 n) = Ok cands ->
     NoDup [i1; i2; i3] ->
     (forall i, i ∈ [i1; i2; i3] -> i < n /\ i <> j) ->
     exists qs : list Q,
       length qs = 3 /\
       forall w,
         (forall t q, qs !! t = Some q -> tape w (cursor w + t) = q) ->
         choice cands 3 w = (Ok [i1; i2; i3], advance_by 3 w)) /\
  (exists c w',
     de_mutant [-10]%Q [10]%Q (1#2) [0]%Q [2]%Q [-2]%Q = Ok [c] /\
     (c == 2)%Q /\
     de_trial [-10]%Q [10]%Q 4 (1#2) (7#10) pop0 0 [3]%Q world9
       = (Ok [3]%Q, w')).
Proof.
  split; [|split].
  - intros lower upper n mutation crossover P j x_target x_new w w'
      Hu HP Ht H.
    pose proof (de_trial_length _ _ _ _ _ _ _ _ _ _ _ Hu HP Ht H) as Hlen.
    apply de_trial_run in H
      as (cands & i1 & i2 & i3 & x1 & x2 & x3 & m & Hc & Hidx & H1 & H2 & H3 &
          Hm & -> & ->).
    pose proof (choice_Ok _ _ _ _ _ Hidx) as (_ & Hin & Hdistinct).
    pose proof (list_remove_Ok _ _ _ Hc) as (_ & Hsub & Hnd').
    destruct (Hnd' (NoDup_seq 0 n)) as [Hndc Hj].
    exists cands, i1, i2, i3, x1, x2, x3, m. simpl.
    pose proof (well_shaped_lookup _ _ _ _ HP H1) as L1.
    pose proof (well_shaped_lookup _ _ _ _ HP H2) as L2.
    pose proof (well_shaped_lookup _ _ _ _ HP H3) as L3.
    pose proof (de_mutant_length _ _ _ _ _ _ _ Hu L1 L2 L3 Hm) as Lm.
    split_and!; try done.
    + by apply Hdistinct.
    + intros i Hi. apply Hin in Hi. split.
      * apply Hsub, elem_of_seq in Hi. lia.
      * intros ->. by apply Hj.
    + intros k a b c lo hi Ea Eb Ec Elo Ehi. split.
      * eapply de_mutant_lookup;
          [exact Hu|exact L1|exact L2|exact L3|exact Hm
          |exact Ea|exact Eb|exact Ec|exact Elo|exact Ehi].
      * by rewrite (Qmult_comm mutation).
    + apply draws_range.
    + apply length_draws.
    + intros k u mk tk. apply de_crossover_lookup.
    + intros Hr. apply de_crossover_none; [done| |congruence].
      rewrite length_draws. congruence.
  - intros n j i1 i2 i3 cands Hc Hnd Hrange.
    apply (choice_reaches [i1; i2; i3] cands Hnd).
    intros i Hi. destruct (Hrange i Hi) as [Hlt Hne].
    apply (list_remove_keeps _ _ _ _ Hc); [|done]. apply elem_of_seq. lia.
  - do 2 eexists. split; [vm_compute; reflexivity|].
    split; [reflexivity|]. vm_compute. reflexivity.
Qed.

Lemma de_mutation_and_crossover_rule_witness :
  exists x_new w',
    de_trial [-4]%Q [4]%Q 4 (1#2) (7#10) pop0 1 [-2]%Q world0 = (Ok x_new, w') /\
    exists i1 i2 i3,
      NoDup [i1; i2; i3] /\ (forall i, i ∈ [i1; i2; i3] -> i < 4 /\ i <> 1) /\
      length x_new = 1.
Proof.
  do 2 eexists. split; [vm_compute; reflexivity|].
  destruct (proj1 de_mutation_and_crossover_rule
              [-4]%Q [4]%Q 4 (1#2) (7#10) pop0 1 [-2]%Q _ world0 _
              eq_refl
              ltac:(repeat constructor)
              eq_refl
              ltac:(vm_compute; reflexivity))
    as (cands & i1 & i2 & i3 & x1 & x2 & x3 & m & _ & _ & Hnd & Hr & _ & _ & _ &
        _ & _ & _ & _ & Hl & _).
  exists i1, i2, i3. done.
Defined.

(** ** Claims on the arguments *)











(** * Further properties of the two routines *)

(** ** The number of calls to the objective *)

Lemma foldM_calls {A St} (body : St -> A -> M St) (c : nat) l :
  (forall s a w s' w', body s a w = (Ok s', w') -> calls w' = calls w + c) ->
  forall s w s' w',
    foldM body l s w = (Ok s', w') -> calls w' = calls w + c * length l.
Proof.
  intros Hbody. induction l as [|a l IH]; intros s w s' w' H; simpl in H.
  - inv_run. simpl. lia.
  - apply bind_Ok in H as (s1 & w1 & H1 & H).
    apply Hbody in H1. apply IH in H. simpl. nia.
Qed.

Lemma iterM_calls {St} (body : St -> M St) (I : St -> Prop) (c : nat) :
  (forall s w s' w', I s -> body s w = (Ok s', w') ->
     I s' /\ calls w' = calls w + c) ->
  forall k s w s' w',
    I s -> iterM k body s w = (Ok s', w') -> calls w' = calls w + c * k.
Proof.
  intros Hbody. induction k as [|k IH]; intros s w s' w' Hs H; simpl in H.
  - inv_run. lia.
  - apply bind_Ok in H as (s1 & w1 & H1 & H).
    destruct (Hbody _ _ _ _ Hs H1) as [Hs1 E1].
    apply (IH _ _ _ _ Hs1) in H. nia.
Qed.

Lemma uniform_length (lower upper : list float) n d P w w' :
  uniform lower upper n d w = (Ok P, w') -> length P = n /\ calls w' = calls w.
Proof.
  intros H. split.
  - apply uniform_Ok in H as [_ H]. unfold cont_uniform in H.
    apply bind_Ok in H as (lo & ? & _ & H).
    apply bind_Ok in H as (hi & ? & _ & H).
    by apply (replicateM_Ok (fun _ => True)) in H as [? _].
  - pose proof (same_calls_uniform lower upper n d w) as E.
    by rewrite H in E.
Qed.

Lemma de_individual_calls function lower upper n mutation crossover P j w P' w' :
  de_individual function lower upper n mutation crossover P j w = (Ok P', w') ->
  calls w' = calls w + 2.
Proof.
  intros H. apply de_individual_Ok in H as (xt & xn & w1 & _ & Ht & _ & E).
  apply de_trial_Ok in Ht
    as (? & ? & ? & ? & ? & ? & ? & ? & _ & _ & _ & _ & _ & _ & _ & _ & _ & E1).
  lia.
Qed.

Lemma de_pass_calls function lower upper n mutation crossover P w P' w' :
  de_pass function lower upper n mutation crossover P w = (Ok P', w') ->
  length P' = length P /\ calls w' = calls w + 2 * length P.
Proof.
  intros H. split.
  - by apply de_pass_slotwise in H as [? _].
  - unfold de_pass in H.
    apply (foldM_calls _ 2) in H; [by rewrite length_seq in H|].
    intros s a w0 s' w0'. apply de_individual_calls.
Qed.

(** X1. A run of [minimize_de] that returns has called the objective
    [2 n steps + 1] times: twice for every target of every pass (the trial,
    then the target) and once, on the whole population, at the end.  A
    negative [steps] counts as zero. *)
Theorem minimize_de_calls
    (function : objective) (lower upper : sequence) (n : nat)
    (mutation crossover : Q)
    (steps : Z) (w : world) (x : vec) (w' : world) :
  minimize_de function lower upper n mutation crossover steps w = (Ok x, w') ->
  calls w' = calls w + 2 * n * Z.to_nat steps + 1.
Proof.
  intros H. apply minimize_de_Ok in H as (P0 & w0 & P & w1 & H0 & H1 & H2).
  apply uniform_length in H0 as [Hn E0].
  apply (iterM_calls _ (fun P => length P = n) (2 * n)) in H1; [|
    |exact Hn].
  - unfold de_best in H2.
    apply bind_Ok in H2 as (vals & w2 & [_ ->]%call_matrix_Ok & H2).
    apply bind_Ok in H2 as (b & ? & [_ ->]%lift_Ok & [_ ->]%lift_Ok).
    simpl. lia.
  - intros s w2 s' w2' Hs Hpass. apply de_pass_calls in Hpass as [Hl E].
    split; [lia|]. rewrite E, Hs. lia.
Qed.

Lemma minimize_de_calls_witness :
  exists x w',
    minimize_de parabola_rows (pylist [-4]%Q) (pylist [4]%Q) 4 (1#2) (7#10)
      3 world0 = (Ok x, w') /\
    calls w' = 25.
Proof.
  assert (exists x w',
    minimize_de parabola_rows (pylist [-4]%Q) (pylist [4]%Q) 4 (1#2) (7#10)
      3 world0 = (Ok x, w'))
    as (x & w' & H) by (do 2 eexists; vm_compute; reflexivity).
  exists x, w'. split; [exact H|].
  exact (minimize_de_calls _ _ _ _ _ _ _ _ _ _ H).
Defined.

Lemma pso_particle_calls function lower upper ω φ1 φ2 s j w s' w' :
  pso_particle function lower upper ω φ1 φ2 s j w = (Ok s', w') ->
  calls w' = calls w + 4.
Proof.
  intros H. apply pso_particle_Ok in H
    as (r1 & r2 & v & xb & x & xs & x' & w1 & w2 & Hr1 & Hr2 & _ & _ & _ &
        _ & _ & xb' & xs' & _ & _ & _ & ->).
  rewrite uniform_scalar_draws in Hr1. injection Hr1 as _ <-.
  rewrite uniform_scalar_draws in Hr2. injection Hr2 as _ <-.
  simpl. lia.
Qed.

Lemma pso_pass_calls function lower upper n ω φ1 φ2 s w s' w' :
  pso_pass function lower upper n ω φ1 φ2 s w = (Ok s', w') ->
  calls w' = calls w + 4 * n.
Proof.
  unfold pso_pass. intros H.
  apply (foldM_calls _ 4) in H; [by rewrite length_seq in H|].
  intros s1 a w1 s1' w1'. apply pso_particle_calls.
Qed.

Lemma pso_init_calls function lower upper n s w w' :
  pso_init function lower upper n w = (Ok s, w') -> calls w' = S (calls w).
Proof.
  intros H. apply pso_init_Ok in H
    as (X0 & w1 & U & w2 & span & V0 & values & k & xk & HX0 & HU & _ & _ &
        _ & _ & _ & _ & ->).
  apply uniform_length in HX0 as [_ E1].
  pose proof (same_calls_replicateM n (uniform_scalar (-1) 1 (length lower))
                (same_calls_replicateM _ _ (same_calls_uniform1 _ _)) w1) as E2.
  rewrite HU in E2. simpl in *. lia.
Qed.

(** X2. A run of [minimize_pso] that returns has called the objective
    [1 + 4 n steps] times: once on the whole initial swarm, and four times
    in the update of every particle of every pass (the position, the
    personal best, the personal best again, the best of the swarm). *)
Theorem minimize_pso_calls
    (function : objective) (lower upper : sequence) (n : nat) (ω φ1 φ2 : Q)
    (steps : Z) (w : world) (x : vec) (w' : world) :
  minimize_pso function lower upper n ω φ1 φ2 steps w = (Ok x, w') ->
  calls w' = calls w + 1 + 4 * n * Z.to_nat steps.
Proof.
  unfold minimize_pso, for_range. intros H.
  apply bind_Ok in H as (s0 & w0 & H0 & H).
  apply bind_Ok in H as (s & w1 & H1 & [_ ->]%lift_Ok).
  apply pso_init_calls in H0.
  apply (iterM_calls _ (fun _ => True) (4 * n)) in H1; [lia| |done].
  intros s1 w2 s1' w2' _ Hpass. split; [done|]. by apply pso_pass_calls in Hpass.
Qed.

Lemma minimize_pso_calls_witness :
  exists x w',
    minimize_pso parabola_rows (ndarray [-4]%Q) (ndarray [4]%Q) 3
      (1#2) (1#5) (1#5) 3 world0 = (Ok x, w') /\
    calls w' = 37.
Proof.
  assert (exists x w',
    minimize_pso parabola_rows (ndarray [-4]%Q) (ndarray [4]%Q) 3
      (1#2) (1#5) (1#5) 3 world0 = (Ok x, w'))
    as (x & w' & H) by (do 2 eexists; vm_compute; reflexivity).
  exists x, w'. split; [exact H|].
  exact (minimize_pso_calls _ _ _ _ _ _ _ _ _ _ _ H).
Defined.

(** ** The result against the initial and the final state *)

Lemma first_min_minimum f (P : matrix) x :
  first_min f P x -> (f x == minimum (map f P))%Q.
Proof.
  intros (b & Hx & Hle & _).
  destruct (minimum_attained (map f P)) as (y & Hy & Hmin).
  { destruct P; [done|done]. }
  apply Qle_antisym.
  - rewrite <- Hmin. apply list_elem_of_lookup in Hy as [i Hi].
    rewrite list_lookup_fmap in Hi.
    destruct (P !! i) as [z|] eqn:Hz; [|done]. simpl in Hi.
    injection Hi as <-. by apply (Hle i).
  - apply minimum_le. apply list_elem_of_lookup. exists b.
    by rewrite list_lookup_fmap, Hx.
Qed.

(** X3. For an objective that evaluates the rows of a matrix, the vector
    that [minimize_de] returns is an individual of the final population, and
    its objective is at most that of every individual of the population
    drawn at the start: the search never ends worse than its best initial
    sample. *)
Theorem minimize_de_not_worse_than_initial
    (function : objective) (lower upper : sequence) (n : nat)
    (mutation crossover : Q)
    (steps : Z) (w : world) (x : vec) (w' : world) :
  vectorised function ->
  minimize_de function lower upper n mutation crossover steps w = (Ok x, w') ->
  exists P0 P,
    de_after function lower upper n mutation crossover w 0 P0 /\
    de_after function lower upper n mutation crossover w (Z.to_nat steps) P /\
    x ∈ P /\
    forall y, y ∈ P0 -> (function x <= function y)%Q.
Proof.
  intros Hf H. apply minimize_de_Ok in H as (P0 & w0 & P & w1 & H0 & H1 & H2).
  apply de_best_first_min in H2; [|done].
  exists P0, P. split; [by exists P0, w0, w0|]. split; [by exists P0, w0, w1|].
  split.
  - destruct H2 as (b & Hb & _). by eapply list_elem_of_lookup_2.
  - intros y Hy. rewrite (first_min_minimum _ _ _ H2).
    apply de_passes_slotwise, slotwise_le_minimum in H1.
    assert (minimum (map function P0) <= function y)%Q; [|lra].
    apply minimum_le. by apply list_elem_of_fmap_2.
Qed.

Lemma minimize_de_not_worse_than_initial_witness :
  exists x w' P0 P,
    minimize_de parabola_rows (pylist [-4]%Q) (pylist [4]%Q) 4 (1#2) (7#10)
      3 world0 = (Ok x, w') /\
    de_after parabola_rows (pylist [-4]%Q) (pylist [4]%Q) 4 (1#2) (7#10)
      world0 0 P0 /\
    de_after parabola_rows (pylist [-4]%Q) (pylist [4]%Q) 4 (1#2) (7#10)
      world0 3 P /\
    x ∈ P /\
    forall y, y ∈ P0 -> (parabola x <= parabola y)%Q.
Proof.
  assert (exists x w',
    minimize_de parabola_rows (pylist [-4]%Q) (pylist [4]%Q) 4 (1#2) (7#10)
      3 world0 = (Ok x, w'))
    as (x & w' & H) by (do 2 eexists; vm_compute; reflexivity).
  destruct (minimize_de_not_worse_than_initial _ _ _ _ _ _ _ _ _ _
              (rowwise_vectorised parabola) H)
    as (P0 & P & H0 & H1 & Hin & Hle).
  exists x, w', P0, P. exact (conj H (conj H0 (conj H1 (conj Hin Hle)))).
Defined.

Lemma pso_passes_below function lower upper n ω φ1 φ2 bound k s w s' w' :
  iterM k (pso_pass function lower upper n ω φ1 φ2) s w = (Ok s', w') ->
  swarm_below function bound s -> swarm_below function bound s'.
Proof.
  intros H Hs. revert H.
  apply (iterM_invariant (pso_pass function lower upper n ω φ1 φ2)
           (swarm_below function bound)); [|done].
  intros s1 w1 s1' w1' Hs1 Hrun. by eapply pso_pass_below.
Qed.

(** X4. For an objective that evaluates the rows of a matrix, the vector
    that [minimize_pso] returns has an objective at most that of every
    position of the swarm drawn at the start. *)
Theorem minimize_pso_not_worse_than_initial
    (function : objective) (lower upper : sequence) (n : nat) (ω φ1 φ2 : Q)
    (steps : Z) (w : world) (x : vec) (w' : world) :
  vectorised function ->
  minimize_pso function lower upper n ω φ1 φ2 steps w = (Ok x, w') ->
  exists s0,
    pso_after function lower upper n ω φ1 φ2 w 0 s0 /\
    forall y, y ∈ X s0 -> (function x <= function y)%Q.
Proof.
  unfold minimize_pso, for_range. intros Hf H.
  apply bind_Ok in H as (s0 & w0 & H0 & H).
  apply bind_Ok in H as (s & w1 & H1 & [Hx ->]%lift_Ok).
  exists s0. split; [by exists s0, w0, w0|].
  pose proof (pso_init_ok _ _ _ _ _ _ _ H0) as Hok0.
  pose proof (pso_init_Ok _ _ _ _ _ _ _ H0)
    as (X0 & w2 & U & w3 & span & V0 & values & k & xk & _ & _ & _ & _ &
        Hv & Hk & _ & -> & _).
  rewrite Hf in Hv. injection Hv as <-.
  destruct Hok0 as [[xs0 Hxs0] Halias0].
  assert (first_min function X0 xs0) as Hmin.
  { apply (first_min_of_values _ _ k); [done|]. by apply row_Ok in Hxs0. }
  assert (swarm_below function (function xs0)
            {| X := X0; V := V0; X_best := X0; x_swarm := RowOfX k |}) as Hb.
  { split; [split; eauto|]. intros ys Hys. rewrite Hxs0 in Hys.
    injection Hys as <-. lra. }
  apply (pso_passes_below _ _ _ _ _ _ _ _ _ _ _ _ _ H1) in Hb as [_ Hb].
  specialize (Hb x Hx). intros y Hy. simpl in Hy.
  apply list_elem_of_lookup in Hy as [i Hi].
  destruct Hmin as (b & _ & Hle & _). specialize (Hle i y Hi). lra.
Qed.

Lemma minimize_pso_not_worse_than_initial_witness :
  exists x w' s0,
    minimize_pso parabola_rows (ndarray [-4]%Q) (ndarray [4]%Q) 3
      (1#2) (1#5) (1#5) 3 world0 = (Ok x, w') /\
    pso_after parabola_rows (ndarray [-4]%Q) (ndarray [4]%Q) 3
      (1#2) (1#5) (1#5) world0 0 s0 /\
    forall y, y ∈ X s0 -> (parabola x <= parabola y)%Q.
Proof.
  assert (exists x w',
    minimize_pso parabola_rows (ndarray [-4]%Q) (ndarray [4]%Q) 3
      (1#2) (1#5) (1#5) 3 world0 = (Ok x, w'))
    as (x & w' & H) by (do 2 eexists; vm_compute; reflexivity).
  destruct (minimize_pso_not_worse_than_initial _ _ _ _ _ _ _ _ _ _ _
              (rowwise_vectorised parabola) H)
    as (s0 & H0 & Hle).
  exists x, w', s0. exact (conj H (conj H0 Hle)).
Defined.

(** After its update, the particle [j] cannot beat what [x_swarm] shows. *)
Lemma pso_particle_own function lower upper ω φ1 φ2 s j w s' w' xs' b' :
  pso_particle function lower upper ω φ1 φ2 s j w = (Ok s', w') ->
  deref s' = Ok xs' -> X_best s' !! j = Some b' ->
  (function xs' <= function b')%Q.
Proof.
  intros H. apply pso_particle_Ok in H
    as (r1 & r2 & v & xb & x & xs & x' & w1 & w2 & _ & _ & _ & _ & _ &
        _ & _ & xb3 & xs3 & Hxb3 & Hxs3 & -> & _).
  unfold pso_shared.
  destruct (Qltb (function xb3) (function xs3)) eqn:E.
  - unfold deref. simpl. intros Hd%row_Ok Hb. rewrite Hd in Hb.
    injection Hb as <-. lra.
  - apply Qltb_ge in E. intros Hd Hb. rewrite Hxs3 in Hd.
    injection Hd as <-. rewrite Hxb3 in Hb. injection Hb as <-. done.
Qed.

Lemma pso_particle_leads function lower upper ω φ1 φ2 s j w s' w' :
  pso_particle function lower upper ω φ1 φ2 s j w = (Ok s', w') ->
  swarm_ok function s /\ swarm_leads function s ->
  swarm_ok function s' /\ swarm_leads function s'.
Proof.
  intros H [[[xs Hxs] Halias] Hlead].
  destruct (pso_particle_swarm _ _ _ _ _ _ _ _ _ _ _ _ H Halias Hxs)
    as (xs' & Hxs' & Hle & Halias').
  split; [split; eauto|].
  intros ys i b' Hys Hb'. rewrite Hxs' in Hys. injection Hys as <-.
  destruct (pso_particle_best _ _ _ _ _ _ _ _ _ _ _ H) as (Hlen & Hslot & _).
  destruct (X_best s !! i) as [b|] eqn:Hb.
  - destruct (Hslot i b b' Hb Hb') as [->|[-> _]].
    + specialize (Hlead xs i b Hxs Hb). lra.
    + by eapply pso_particle_own.
  - apply lookup_ge_None in Hb. apply lookup_lt_Some in Hb'. lia.
Qed.

Lemma pso_passes_leads function lower upper n ω φ1 φ2 k s w s' w' :
  iterM k (pso_pass function lower upper n ω φ1 φ2) s w = (Ok s', w') ->
  swarm_ok function s /\ swarm_leads function s ->
  swarm_ok function s' /\ swarm_leads function s'.
Proof.
  intros H Hs. revert H.
  apply (iterM_invariant (pso_pass function lower upper n ω φ1 φ2)
           (fun s => swarm_ok function s /\ swarm_leads function s)); [|done].
  intros s1 w1 s1' w1' Hs1. unfold pso_pass.
  apply (foldM_invariant (pso_particle function lower upper ω φ1 φ2)
           (fun s => swarm_ok function s /\ swarm_leads function s)); [|done].
  intros s2 a w2 s2' w2' _ Hs2 Hrun. by eapply pso_particle_leads.
Qed.

(** X5. For an objective that evaluates the rows of a matrix: when
    [minimize_pso] returns, the vector returned is what [x_swarm] shows in
    the final swarm, its objective is at most that of every personal best,
    and one personal best has the same objective: the best of the swarm is
    the best of the personal bests, although [x_swarm] may be a view of a
    row of [X]. *)
Theorem minimize_pso_returns_best_personal_best
    (function : objective) (lower upper : sequence) (n : nat) (ω φ1 φ2 : Q)
    (steps : Z) (w : world) (x : vec) (w' : world) :
  vectorised function ->
  minimize_pso function lower upper n ω φ1 φ2 steps w = (Ok x, w') ->
  exists s,
    pso_after function lower upper n ω φ1 φ2 w (Z.to_nat steps) s /\
    deref s = Ok x /\
    (forall i b, X_best s !! i = Some b -> (function x <= function b)%Q) /\
    (exists i b, X_best s !! i = Some b /\ (function b == function x)%Q).
Proof.
  unfold minimize_pso, for_range. intros Hf H.
  apply bind_Ok in H as (s0 & w0 & H0 & H).
  apply bind_Ok in H as (s & w1 & H1 & [Hx ->]%lift_Ok).
  exists s. split; [by exists s0, w0, w1|]. split; [done|].
  pose proof (pso_init_ok _ _ _ _ _ _ _ H0) as Hok0.
  assert (swarm_leads function s0) as Hlead0.
  { pose proof (pso_init_Ok _ _ _ _ _ _ _ H0)
      as (X0 & w2 & U & w3 & span & V0 & values & k & xk & _ & _ & _ & _ &
          Hv & Hk & _ & -> & _).
    rewrite Hf in Hv. injection Hv as <-.
    intros xs i b Hxs Hb. unfold deref in Hxs. simpl in *.
    apply row_Ok in Hxs.
    destruct (first_min_of_values _ _ _ _ Hk Hxs) as (? & _ & Hle & _).
    by apply (Hle i). }
  destruct (pso_passes_leads _ _ _ _ _ _ _ _ _ _ _ _ H1 (conj Hok0 Hlead0))
    as [[_ Halias] Hlead].
  split.
  - intros i b Hb. by apply (Hlead x i b).
  - unfold alias_inv in Halias. unfold deref in Hx.
    destruct (x_swarm s) as [k|m].
    + destruct Halias as (xk & bk & Hxk & Hbk & Heq).
      apply row_Ok in Hx. rewrite Hxk in Hx. injection Hx as ->.
      exists k, bk. split; [done|]. by symmetry.
    + apply row_Ok in Hx. exists m, x. split; [done|]. reflexivity.
Qed.

Lemma minimize_pso_returns_best_personal_best_witness :
  exists x w' s,
    minimize_pso parabola_rows (ndarray [-4]%Q) (ndarray [4]%Q) 3
      (1#2) (1#5) (1#5) 3 world0 = (Ok x, w') /\
    pso_after parabola_rows (ndarray [-4]%Q) (ndarray [4]%Q) 3
      (1#2) (1#5) (1#5) world0 3 s /\
    deref s = Ok x /\
    (forall i b, X_best s !! i = Some b -> (parabola x <= parabola b)%Q).
Proof.
  assert (exists x w',
    minimize_pso parabola_rows (ndarray [-4]%Q) (ndarray [4]%Q) 3
      (1#2) (1#5) (1#5) 3 world0 = (Ok x, w'))
    as (x & w' & H) by (do 2 eexists; vm_compute; reflexivity).
  destruct (minimize_pso_returns_best_personal_best _ _ _ _ _ _ _ _ _ _ _
              (rowwise_vectorised parabola) H)
    as (s & Hs & Hx & Hle & _).
  exists x, w', s. exact (conj H (conj Hs (conj Hx Hle))).
Defined.

(** ** The ends of the range of [crossover] *)

(** When every draw is below [crossover], the trial is the mutant itself. *)
Lemma de_crossover_all crossover (r m t : vec) :
  Forall (fun u => (u < crossover)%Q) r ->
  length r = length m -> length t = length m ->
  de_crossover crossover r m t = m.
Proof.
  intros Hr Hlr Hlt. apply list_eq. intros k.
  destruct (m !! k) as [mk|] eqn:Hm.
  - destruct (lookup_lt_is_Some_2 r k) as [u Hu].
    { apply lookup_lt_Some in Hm. lia. }
    destruct (lookup_lt_is_Some_2 t k) as [tk Ht].
    { apply lookup_lt_Some in Hm. lia. }
    rewrite (de_crossover_lookup _ _ _ _ _ _ _ _ Hu Hm Ht).
    rewrite Forall_lookup in Hr. specialize (Hr k u Hu).
    apply Qltb_lt in Hr. by rewrite Hr.
  - apply lookup_ge_None. apply lookup_ge_None in Hm.
    unfold de_crossover, where_. rewrite length_zip_with, length_zip. lia.
Qed.

Lemma de_trial_shapes lower upper n mutation crossover P j x_target x_new w w' :
  length upper = length lower -> de_inv lower n P -> P !! j = Some x_target ->
  de_trial lower upper n mutation crossover P j x_target w = (Ok x_new, w') ->
  exists i1 i2 i3 x1 x2 x3 m,
    P !! i1 = Some x1 /\ P !! i2 = Some x2 /\ P !! i3 = Some x3 /\
    de_mutant lower upper mutation x1 x2 x3 = Ok m /\
    length m = length lower /\ length x_target = length lower /\
    x_new = de_crossover crossover
              (draws (advance_by 3 w) (length lower)) m x_target.
Proof.
  intros Hu [_ HP] Hj H. apply de_trial_run in H
    as (cands & i1 & i2 & i3 & x1 & x2 & x3 & m & _ & _ & H1 & H2 & H3 &
        Hm & -> & _).
  exists i1, i2, i3, x1, x2, x3, m.
  pose proof (well_shaped_lookup _ _ _ _ HP H1) as L1.
  pose proof (well_shaped_lookup _ _ _ _ HP H2) as L2.
  pose proof (well_shaped_lookup _ _ _ _ HP H3) as L3.
  pose proof (well_shaped_lookup _ _ _ _ HP Hj) as Lt.
  pose proof (de_mutant_length _ _ _ _ _ _ _ Hu L1 L2 L3 Hm) as Lm.
  done.
Qed.

Lemma de_individual_frozen function lower upper n mutation crossover P j w P' w' :
  (crossover <= 0)%Q -> length upper = length lower -> de_inv lower n P ->
  de_individual function lower upper n mutation crossover P j w = (Ok P', w') ->
  P' = P.
Proof.
  intros Hc Hu HP H.
  apply de_individual_Ok in H as (xt & xn & w1 & Hj & Ht & -> & _).
  apply (de_trial_shapes _ _ _ _ _ _ _ _ _ _ _ Hu HP Hj) in Ht
    as (i1 & i2 & i3 & x1 & x2 & x3 & m & _ & _ & _ & _ & Lm & Lt & ->).
  rewrite de_crossover_none.
  - unfold de_select.
    by assert (Qltb (function xt) (function xt) = false) as ->
      by (apply Qltb_ge; lra).
  - eapply Forall_impl; [apply draws_range|]. intros u [H0 _]. simpl. lra.
  - rewrite length_draws. congruence.
  - congruence.
Qed.

(** X6. With [crossover <= 0] no coordinate of a mutant is ever taken: on
    bounds of equal lengths every pass of [minimize_de] leaves the
    population as it was drawn, and the routine returns what it returns
    with no step: the row of the initial population at the first least
    entry of what the call of the objective on it returned, which is the
    individual of least objective when the objective evaluates the rows of
    a matrix. *)
Theorem minimize_de_without_crossover
    (function : objective) (lower upper : sequence) (n : nat)
    (mutation crossover : Q)
    (steps : Z) (w : world) (x : vec) (w' : world) :
  (crossover <= 0)%Q -> length upper = length lower ->
  minimize_de function lower upper n mutation crossover steps w = (Ok x, w') ->
  exists P0 values best,
    de_after function lower upper n mutation crossover w 0 P0 /\
    de_after function lower upper n mutation crossover w (Z.to_nat steps) P0 /\
    on_matrix function P0 = Ok values /\
    argmin values = Ok best /\
    P0 !! best = Some x /\
    (vectorised function -> first_min function P0 x).
Proof.
  intros Hc Hu H.
  apply minimize_de_Ok in H as (P0 & w0 & P & w1 & H0 & H1 & H2).
  pose proof (de_init_inv _ _ _ _ _ _ Hu H0) as HP0.
  assert (P = P0) as ->.
  { revert H1.
    apply (iterM_invariant
             (de_pass function lower upper n mutation crossover)
             (fun P => P = P0)); [|done].
    intros s w2 s' w2' -> Hpass. revert Hpass. unfold de_pass.
    apply (foldM_invariant
             (de_individual function lower upper n mutation crossover)
             (fun P => P = P0)); [|done].
    intros s1 a w3 s1' w3' _ -> Hrun. by eapply de_individual_frozen. }
  pose proof H2 as (values & best & Hv & Hb & Hx & _)%de_best_Ok.
  exists P0, values, best.
  split; [by exists P0, w0, w0|]. split; [by exists P0, w0, w1|].
  do 3 (split; [done|]). intros Hf. by eapply de_best_first_min.
Qed.

Lemma minimize_de_without_crossover_witness :
  exists x w' P0,
    minimize_de parabola_rows (pylist [-4]%Q) (pylist [4]%Q) 4 (1#2) 0
      3 world0 = (Ok x, w') /\
    de_after parabola_rows (pylist [-4]%Q) (pylist [4]%Q) 4 (1#2) 0
      world0 0 P0 /\
    de_after parabola_rows (pylist [-4]%Q) (pylist [4]%Q) 4 (1#2) 0
      world0 3 P0 /\
    first_min parabola P0 x.
Proof.
  assert (exists x w',
    minimize_de parabola_rows (pylist [-4]%Q) (pylist [4]%Q) 4 (1#2) 0
      3 world0 = (Ok x, w'))
    as (x & w' & H) by (do 2 eexists; vm_compute; reflexivity).
  destruct (minimize_de_without_crossover parabola_rows (pylist [-4]%Q)
              (pylist [4]%Q) 4 (1#2) 0
              3 world0 x w' ltac:(vm_compute; discriminate) eq_refl H)
    as (P0 & values & best & H0 & H1 & _ & _ & _ & Hmin).
  exists x, w', P0.
  exact (conj H (conj H0 (conj H1 (Hmin (rowwise_vectorised parabola))))).
Defined.

(** X7. With [crossover >= 1] every coordinate of the trial is the
    coordinate of the clamped mutant: on a well-shaped population the trial
    for a target is [clip(x1 + (x2 - x3) * mutation, lower, upper)] for
    three rows of the population, and nothing of the target. *)
Theorem de_trial_with_full_crossover
    (lower upper : vec) (n : nat) (mutation crossover : Q)
    (P : matrix) (j : nat) (x_target x_new : vec) (w w' : world) :
  (1 <= crossover)%Q -> length upper = length lower -> de_inv lower n P ->
  P !! j = Some x_target ->
  de_trial lower upper n mutation crossover P j x_target w = (Ok x_new, w') ->
  exists i1 i2 i3 x1 x2 x3,
    P !! i1 = Some x1 /\ P !! i2 = Some x2 /\ P !! i3 = Some x3 /\
    clip (vadd x1 (vscale (vsub x2 x3) mutation)) lower upper = Ok x_new.
Proof.
  intros Hc Hu HP Hj H.
  apply (de_trial_shapes _ _ _ _ _ _ _ _ _ _ _ Hu HP Hj) in H
    as (i1 & i2 & i3 & x1 & x2 & x3 & m & H1 & H2 & H3 & Hm & Lm & Lt & ->).
  exists i1, i2, i3, x1, x2, x3. do 3 (split; [done|]).
  rewrite de_crossover_all; [exact Hm| | |congruence].
  - eapply Forall_impl; [apply draws_range|]. intros u [_ H1']. simpl. lra.
  - rewrite length_draws. congruence.
Qed.

Lemma de_trial_with_full_crossover_witness :
  exists x_new w' i1 i2 i3 x1 x2 x3,
    de_trial [-4]%Q [4]%Q 4 (1#2) 1 pop0 1 [-2]%Q world0 = (Ok x_new, w') /\
    pop0 !! i1 = Some x1 /\ pop0 !! i2 = Some x2 /\ pop0 !! i3 = Some x3 /\
    clip (vadd x1 (vscale (vsub x2 x3) (1#2))) [-4]%Q [4]%Q = Ok x_new.
Proof.
  assert (exists x_new w',
    de_trial [-4]%Q [4]%Q 4 (1#2) 1 pop0 1 [-2]%Q world0 = (Ok x_new, w'))
    as (x_new & w' & H) by (do 2 eexists; vm_compute; reflexivity).
  destruct (de_trial_with_full_crossover [-4]%Q [4]%Q 4 (1#2) 1 pop0 1
              [-2]%Q x_new world0 w'
              ltac:(vm_compute; discriminate) eq_refl
              ltac:(split; [reflexivity | repeat constructor])
              eq_refl H)
    as (i1 & i2 & i3 & x1 & x2 & x3 & H1 & H2 & H3 & Hc).
  exists x_new, w', i1, i2, i3, x1, x2, x3.
  exact (conj H (conj H1 (conj H2 (conj H3 Hc)))).
Defined.

(** ** The empty population *)

Lemma de_passes_empty function lower upper n mutation crossover k w :
  iterM k (de_pass function lower upper n mutation crossover) [] w = (Ok [], w).
Proof.
  induction k as [|k IH]; [done|]. cbn [iterM].
  rewrite (bind_step _ _ w [] w); [exact IH | reflexivity].
Qed.

(** X8. With [n = 0], on bounds of finite range, both routines raise after
    they have called the objective once, on the empty population
    ([minimize_pso] when its bounds are not two Python lists): what the
    objective raises when it raises; a [ValueError], from [np.argmin], when
    it returns an empty array, as an objective that evaluates the rows of a
    matrix does; an [IndexError], from the empty population, when it returns
    anything else. *)
Theorem empty_population_raises
    (function : objective) (lower upper : sequence)
    (mutation crossover ω φ1 φ2 : Q) (steps : Z) (w : world) :
  finite_range lower upper ->
  (exists w',
     minimize_de function lower upper 0 mutation crossover steps w
       = (Raise (raised_on_empty function), w') /\ calls w' = S (calls w)) /\
  (both_lists upper lower = false ->
   exists w',
     minimize_pso function lower upper 0 ω φ1 φ2 steps w
       = (Raise (raised_on_empty function), w') /\ calls w' = S (calls w)) /\
  (vectorised function -> raised_on_empty function = ValueError).
Proof.
  intros Hr. pose proof (finite_range_length _ _ Hr) as Hu.
  assert (uniform (items lower) (items upper) 0 (length lower) w = (Ok [], w))
    as HX.
  { rewrite uniform_finite by done. unfold cont_uniform.
    rewrite broadcast_to_same.
    pose proof (broadcast_to_same upper) as Hb. rewrite Hu in Hb.
    by rewrite Hb. }
  split; [|split].
  - eexists. unfold minimize_de, de_init, for_range.
    rewrite (bind_step _ _ _ _ _ HX).
    rewrite (bind_step _ _ _ _ _ (de_passes_empty _ _ _ _ _ _ _ _)).
    unfold de_best, call_matrix, raised_on_empty, bind, lift.
    destruct (on_matrix function []) as [[|v vs]|e]; split; reflexivity.
  - intros Hk. eexists. unfold minimize_pso, pso_init.
    unfold bind at 1. unfold bind at 1. rewrite HX. simpl.
    rewrite sub_arrays by done.
    unfold call_matrix, raised_on_empty, bind, lift. simpl.
    destruct (on_matrix function []) as [[|v vs]|e]; split; reflexivity.
  - intros Hf. unfold raised_on_empty. by rewrite Hf.
Qed.

Lemma empty_population_raises_witness :
  (exists w',
     minimize_de parabola_rows (pylist [-4]%Q) (pylist [4]%Q) 0 (1#2) (7#10)
       3 world0 = (Raise ValueError, w') /\ calls w' = 1) /\
  (exists w',
     minimize_de parabola_of_all (pylist [-4]%Q) (pylist [4]%Q) 0 (1#2) (7#10)
       3 world0 = (Raise IndexError, w') /\ calls w' = 1).
Proof.
  split.
  - exact (proj1 (empty_population_raises parabola_rows (pylist [-4]%Q)
             (pylist [4]%Q) (1#2) (7#10) (1#2) (1#5) (1#5) 3 world0
             ltac:(repeat constructor))).
  - exact (proj1 (empty_population_raises parabola_of_all (pylist [-4]%Q)
             (pylist [4]%Q) (1#2) (7#10) (1#2) (1#5) (1#5) 3 world0
             ltac:(repeat constructor))).
Defined.

(** ** The container of the bounds *)

Lemma advance_by_add a b w : advance_by a (advance_by b w) = advance_by (b + a) w.
Proof. unfold advance_by. simpl. f_equal. lia. Qed.

Lemma mapM_cursor {A B} (f : A -> M B) (l : list A) :
  (forall a w, exists b, f a w = (Ok b, advance_by 1 w)) ->
  forall w, exists bs, mapM f l w = (Ok bs, advance_by (length l) w).
Proof.
  intros Hf. induction l as [|a l IH]; intros w; simpl.
  - exists []. unfold ret. by rewrite advance_by_0.
  - destruct (Hf a w) as [b Hb]. destruct (IH (advance_by 1 w)) as [bs Hbs].
    exists (b :: bs). unfold bind. rewrite Hb, Hbs. unfold ret.
    by rewrite advance_by_add.
Qed.

Lemma replicateM_cursor {A} (m : M A) (c : nat) :
  (forall w, exists a, m w = (Ok a, advance_by c w)) ->
  forall n w, exists l, replicateM n m w = (Ok l, advance_by (n * c) w).
Proof.
  intros Hm. induction n as [|n IH]; intros w; simpl.
  - exists []. unfold ret. by rewrite advance_by_0.
  - destruct (Hm w) as [a Ha]. destruct (IH (advance_by c w)) as [l Hl].
    exists (a :: l). unfold bind. rewrite Ha, Hl. unfold ret.
    by rewrite advance_by_add.
Qed.

(** On bounds of equal lengths the [n] rows take [n * d] draws. *)
Lemma cont_uniform_cursor (lower upper : vec) n w :
  length upper = length lower ->
  exists P, cont_uniform lower upper n (length lower) w
            = (Ok P, advance_by (n * length lower) w).
Proof.
  intros Hlen. unfold cont_uniform. rewrite broadcast_to_same.
  pose proof (broadcast_to_same upper) as Hb. rewrite Hlen in Hb. rewrite Hb.
  unfold bind at 1, lift at 1. unfold bind at 1, lift at 1.
  apply replicateM_cursor. intros w1.
  destruct (mapM_cursor (fun b : Q * Q => uniform1 b.1 b.2)
              (zip lower upper)) with (w := w1) as [bs Hbs].
  - intros b w2. eexists. unfold uniform1, bind, random_sample, ret.
    unfold advance_by. simpl. do 3 f_equal. lia.
  - exists bs. rewrite Hbs. do 2 f_equal. rewrite length_zip. lia.
Qed.

(** X20. [minimize_pso] needs bounds of which one at least is a numpy array:
    on bounds of finite range, with one particle or more and an objective
    that evaluates the rows of a matrix, it returns; on two Python lists, as
    the notebook gives to [minimize_de], [upper - lower] raises a
    [TypeError] after the positions and the velocities are drawn and before
    the objective is called. *)
Theorem minimize_pso_needs_an_array
    (function : objective) (lower upper : sequence) (n : nat) (ω φ1 φ2 : Q)
    (steps : Z) (w : world) :
  finite_range lower upper ->
  (both_lists upper lower = false -> vectorised function -> 1 <= n ->
   exists x w',
     minimize_pso function lower upper n ω φ1 φ2 steps w = (Ok x, w')) /\
  (both_lists upper lower = true ->
   exists w',
     minimize_pso function lower upper n ω φ1 φ2 steps w
       = (Raise TypeError, w') /\
     calls w' = calls w /\ cursor w' = cursor w + 2 * (n * length lower)).
Proof.
  intros Hr. split.
  - intros Hk Hf Hn. by apply minimize_pso_total.
  - intros Hk. pose proof (finite_range_length _ _ Hr) as Hlen.
    destruct (cont_uniform_cursor lower upper n w Hlen) as [X0 HX0].
    destruct (replicateM_cursor (uniform_scalar (-1) 1 (length lower))
                (length lower)
                (fun w1 => ex_intro _ _ (uniform_scalar_draws _ _ _ w1))
                n (advance_by (n * length lower) w)) as [U HU].
    rewrite <- (uniform_finite lower upper) in HX0 by done.
    assert (pso_init function lower upper n w
            = (Raise TypeError,
               advance_by (n * length lower)
                 (advance_by (n * length lower) w))) as Hinit.
    { unfold pso_init. rewrite (bind_step _ _ _ _ _ HX0).
      rewrite (bind_step _ _ _ _ _ HU). unfold sub. by rewrite Hk. }
    eexists. split; [unfold minimize_pso; by apply bind_Raise|].
    simpl. split; [done|lia].
Qed.

Lemma minimize_pso_needs_an_array_witness :
  (exists x w',
     minimize_pso parabola_rows (ndarray [-4]%Q) (ndarray [4]%Q) 3
       (1#2) (1#5) (1#5) 2 world0 = (Ok x, w')) /\
  (exists w',
     minimize_pso parabola_rows (pylist [-4]%Q) (pylist [4]%Q) 3
       (1#2) (1#5) (1#5) 2 world0 = (Raise TypeError, w') /\
     calls w' = 0 /\ cursor w' = 6).
Proof.
  split.
  - apply (proj1 (minimize_pso_needs_an_array parabola_rows (ndarray [-4]%Q)
             (ndarray [4]%Q) 3 (1#2) (1#5) (1#5) 2 world0
             ltac:(repeat constructor)));
      [reflexivity | apply rowwise_vectorised | lia].
  - apply (proj2 (minimize_pso_needs_an_array parabola_rows (pylist [-4]%Q)
             (pylist [4]%Q) 3 (1#2) (1#5) (1#5) 2 world0
             ltac:(repeat constructor))).
    reflexivity.
Defined.

(** * Properties of the other functions of the notebooks *)

(** ** The objective of the two demonstrations *)

Lemma square_nonneg (a : Q) : (0 <= a * a)%Q.
Proof.
  destruct (Qlt_le_dec a 0).
  - assert (a * a == (-a) * (-a))%Q as -> by ring.
    apply Qmult_le_0_compat; lra.
  - apply Qmult_le_0_compat; lra.
Qed.

Lemma square_zero (a : Q) : (a * a == 0)%Q -> (a == 0)%Q.
Proof. intros H. by destruct (Qmult_integral _ _ H). Qed.

(** X9. [some_function], the objective both routines are tried on, is never
    negative on a vector of three coordinates and is zero exactly at
    [[1, 0, 0]]; that point lies in the box [[-2, 2]^3] of the two calls, so
    it is the minimum they look for. *)
Theorem some_function_minimum (x : vec) :
  length x = 3 ->
  (0 <= some_function x)%Q /\
  ((some_function x == 0)%Q <-> Forall2 Qeq x [1; 0; 0]%Q) /\
  (some_function [1; 0; 0]%Q <= some_function x)%Q /\
  in_box [-2; -2; -2]%Q [2; 2; 2]%Q [1; 0; 0]%Q.
Proof.
  intros Hx. destruct x as [|a [|b [|c [|? ?]]]]; try discriminate Hx.
  unfold some_function, vsub. cbn [foldr map zip_with list_fmap fmap].
  pose proof (square_nonneg (a - 1)) as Ha'.
  pose proof (square_nonneg (b - 0)) as Hb'.
  pose proof (square_nonneg (c - 0)) as Hc'.
  split; [lra|]. split; [|split].
  - split.
    + intros H.
      assert ((a - 1) * (a - 1) == 0)%Q as Ea by lra.
      assert ((b - 0) * (b - 0) == 0)%Q as Eb by lra.
      assert ((c - 0) * (c - 0) == 0)%Q as Ec by lra.
      apply square_zero in Ea, Eb, Ec.
      repeat constructor; lra.
    + intros H. apply Forall2_cons in H as [E1 H].
      apply Forall2_cons in H as [E2 H]. apply Forall2_cons in H as [E3 _].
      rewrite E1, E2, E3. reflexivity.
  - assert ((1 - 1) * (1 - 1) + ((0 - 0) * (0 - 0) + ((0 - 0) * (0 - 0) + 0))
            == 0)%Q as -> by reflexivity.
    lra.
  - intros [|[|[|i]]] lo hi xi; simpl; try discriminate;
      intros [= <-] [= <-] [= <-]; split; vm_compute; discriminate.
Qed.

Lemma some_function_minimum_witness :
  (0 <= some_function [2; -1; 1#2]%Q)%Q /\
  (some_function [1; 0; 0]%Q <= some_function [2; -1; 1#2]%Q)%Q.
Proof.
  destruct (some_function_minimum [2; -1; 1#2]%Q eq_refl) as (H0 & _ & Hle & _).
  exact (conj H0 Hle).
Defined.

(** ** The function with a branch *)

(** X10. [f], with [f(x) = x] below [1] and [f(x) = x**2] from [1] on, is
    strictly increasing, its two branches meet at [1], and it is never below
    its argument. *)
Theorem control_flow_f_increasing :
  (forall x y, (x < y)%Q -> (ControlFlow.f x < ControlFlow.f y)%Q) /\
  (ControlFlow.f 1 == 1)%Q /\
  (forall x, (x <= ControlFlow.f x)%Q).
Proof.
  split; [|split].
  - intros x y Hxy. unfold ControlFlow.f.
    destruct (Qltb x 1) eqn:Ex; destruct (Qltb y 1) eqn:Ey;
      try apply Qltb_lt in Ex; try apply Qltb_ge in Ex;
      try apply Qltb_lt in Ey; try apply Qltb_ge in Ey;
      simpl; nra.
  - reflexivity.
  - intros x. unfold ControlFlow.f.
    destruct (Qltb x 1) eqn:Ex;
      try apply Qltb_lt in Ex; try apply Qltb_ge in Ex; simpl; nra.
Qed.

Lemma control_flow_f_increasing_witness :
  (ControlFlow.f (1#2) < ControlFlow.f (11#10))%Q.
Proof.
  apply (proj1 control_flow_f_increasing). vm_compute. reflexivity.
Defined.

(** ** The constrained Rosenbrock problem *)

(** X11. On a point of two coordinates or more [rosen] is never negative,
    and it is zero exactly where the first two coordinates are [1] and
    [1]. *)
Theorem rosen_minimum (x0 x1 : Q) (rest : vec) :
  exists v, Slsqp.rosen (x0 :: x1 :: rest) = Ok v /\
    (0 <= v)%Q /\ ((v == 0)%Q <-> (x0 == 1)%Q /\ (x1 == 1)%Q).
Proof.
  eexists. split; [reflexivity|].
  simpl.
  set (u := (x1 - x0 * x0)%Q). set (t := (1 - x0)%Q).
  pose proof (square_nonneg u) as Hu.
  pose proof (square_nonneg t) as Ht.
  split; [lra|]. split.
  - intros H.
    assert (u * u == 0)%Q as Eu by lra.
    assert (t * t == 0)%Q as Et by lra.
    apply square_zero in Eu, Et. unfold u, t in *.
    assert (x0 == 1)%Q as E0 by lra. split; [done|].
    rewrite E0 in Eu. lra.
  - intros [E0 E1]. unfold u, t. rewrite E0, E1. reflexivity.
Qed.

(** X12. The points that satisfy the two constraint functions ([eq] zero,
    every entry of [ineq] not negative) are those with
    [x1 = 1 - 2 x0], [1/3 <= x0] and [x0**2 + 2 x0 <= 2].  All of them are
    within the bounds of the call, the starting point [[0.5, 0]] is one of
    them, and the minimum [[1, 1]] of [rosen] is not. *)
Theorem slsqp_feasible_points :
  (forall x0 x1,
     Slsqp.satisfies_constraints [x0; x1] <->
     (x1 == 1 - 2 * x0 /\ 1#3 <= x0 /\ x0 * x0 + 2 * x0 <= 2)%Q) /\
  (forall x0 x1,
     Slsqp.satisfies_constraints [x0; x1] -> Slsqp.within_bounds [x0; x1]) /\
  Slsqp.satisfies_constraints [1#2; 0]%Q /\
  ~ Slsqp.satisfies_constraints [1; 1]%Q.
Proof.
  assert (forall x0 x1,
     Slsqp.satisfies_constraints [x0; x1] <->
     (x1 == 1 - 2 * x0 /\ 1#3 <= x0 /\ x0 * x0 + 2 * x0 <= 2)%Q) as Hchar.
  { intros x0 x1. unfold Slsqp.satisfies_constraints. split.
    - intros (e & g & [= <-] & [= <-] & He & Hg).
      apply Forall_cons in He as [He _].
      apply Forall_cons in Hg as [G1 Hg]. apply Forall_cons in Hg as [G2 Hg].
      apply Forall_cons in Hg as [G3 _]. simpl in *.
      split; [lra|]. split; [lra|]. nra.
    - intros (E & H1 & H2). eexists _, _. split; [reflexivity|].
      split; [reflexivity|]. split.
      + repeat constructor. lra.
      + repeat constructor; simpl; nra. }
  split; [exact Hchar|]. split; [|split].
  - intros x0 x1 (E & H1 & H2)%Hchar. exists x0, x1. split; [done|].
    split; [lra|]. split; [nra|]. split; nra.
  - apply Hchar. split; [reflexivity|]. split; vm_compute; discriminate.
  - intros (_ & _ & H)%Hchar. vm_compute in H. by apply H.
Qed.

Lemma slsqp_feasible_points_witness : Slsqp.within_bounds [1#2; 0]%Q.
Proof.
  destruct slsqp_feasible_points as (_ & Hb & H0 & _). exact (Hb _ _ H0).
Defined.

(** ** The combinations of the polynomial model *)

Lemma it_combinations_0 (pool : list nat) : it_combinations pool 0 = [[]].
Proof. by destruct pool. Qed.

Lemma it_combinations_with_replacement_S (r a : nat) (pool : list nat) :
  it_combinations_with_replacement (a :: pool) (S r) =
  map (cons a) (it_combinations_with_replacement (a :: pool) r) ++
  it_combinations_with_replacement pool (S r).
Proof. reflexivity. Qed.

Lemma it_combinations_with_replacement_nil (r : nat) :
  it_combinations_with_replacement [] (S r) = [].
Proof. reflexivity. Qed.

Lemma elem_of_map_cons (a : nat) (L : list (list nat)) (c : list nat) :
  c ∈ map (cons a) L <-> exists c', c = a :: c' /\ c' ∈ L.
Proof.
  rewrite list_elem_of_In, in_map_iff. split.
  - intros (c' & <- & H). exists c'. by rewrite list_elem_of_In.
  - intros (c' & -> & H). exists c'. by rewrite <- list_elem_of_In.
Qed.

Lemma it_combinations_seq (m : nat) : forall k r c,
  c ∈ it_combinations (seq k m) r <->
  length c = r /\ StronglySorted lt c /\ Forall (fun j => k <= j < k + m) c.
Proof.
  induction m as [|m IH]; intros k r c.
  - destruct r as [|r]; simpl.
    + rewrite list_elem_of_singleton. split.
      * intros ->. split_and!; constructor.
      * intros (H & _). by destruct c.
    + rewrite elem_of_nil. split; [done|]. intros (H & _ & F).
      destruct c as [|j c]; [done|]. apply Forall_cons in F as [F _]. lia.
  - destruct r as [|r].
    + rewrite it_combinations_0, list_elem_of_singleton. split.
      * intros ->. split_and!; constructor.
      * intros (H & _). by destruct c.
    + cbn [seq it_combinations]. rewrite elem_of_app, elem_of_map_cons.
      setoid_rewrite IH. split.
      * intros [(c' & -> & L & Hs & F)|(L & Hs & F)].
        -- split; [simpl; lia|]. split.
           ++ constructor; [done|]. eapply Forall_impl; [exact F|].
              simpl. lia.
           ++ constructor; [lia|]. eapply Forall_impl; [exact F|].
              simpl. lia.
        -- split; [done|]. split; [done|]. eapply Forall_impl; [exact F|].
           simpl. lia.
      * intros (L & Hs & F). destruct c as [|j c]; [done|].
        apply Forall_cons in F as [Fj F].
        apply StronglySorted_inv in Hs as [Hs Hj].
        destruct (decide (j = k)) as [->|Hne].
        -- left. exists c. split; [done|]. split; [simpl in L; lia|].
           split; [done|]. apply Forall_forall. intros j' Hj'.
           pose proof (proj1 (Forall_forall _ _) F j' Hj').
           pose proof (proj1 (Forall_forall _ _) Hj j' Hj'). simpl in *. lia.
        -- right. split; [done|]. split; [by constructor|].
           constructor; [lia|]. apply Forall_forall. intros j' Hj'.
           pose proof (proj1 (Forall_forall _ _) F j' Hj').
           pose proof (proj1 (Forall_forall _ _) Hj j' Hj'). simpl in *. lia.
Qed.

Lemma it_combinations_with_replacement_seq (r : nat) : forall m k c,
  c ∈ it_combinations_with_replacement (seq k m) r <->
  length c = r /\ StronglySorted le c /\ Forall (fun j => k <= j < k + m) c.
Proof.
  induction r as [|r IHr].
  - intros m k c. unfold it_combinations_with_replacement. simpl.
    rewrite list_elem_of_singleton. split.
    + intros ->. split_and!; constructor.
    + intros (H & _). by destruct c.
  - induction m as [|m IHm]; intros k c.
    + cbn [seq]. rewrite it_combinations_with_replacement_nil, elem_of_nil.
      split; [done|]. intros (H & _ & F).
      destruct c as [|j c]; [done|]. apply Forall_cons in F as [F _]. lia.
    + cbn [seq]. rewrite it_combinations_with_replacement_S.
      rewrite elem_of_app, elem_of_map_cons.
      change (k :: seq (S k) m) with (seq k (S m)).
      setoid_rewrite IHr. rewrite IHm. split.
      * intros [(c' & -> & L & Hs & F)|(L & Hs & F)].
        -- split; [simpl; lia|]. split.
           ++ constructor; [done|]. eapply Forall_impl; [exact F|].
              simpl. lia.
           ++ constructor; [lia|done].
        -- split; [done|]. split; [done|]. eapply Forall_impl; [exact F|].
           simpl. lia.
      * intros (L & Hs & F). destruct c as [|j c]; [done|].
        apply Forall_cons in F as [Fj F].
        apply StronglySorted_inv in Hs as [Hs Hj].
        destruct (decide (j = k)) as [->|Hne].
        -- left. exists c. split; [done|]. split; [simpl in L; lia|]. done.
        -- right. split; [done|]. split; [by constructor|].
           constructor; [lia|]. apply Forall_forall. intros j' Hj'.
           pose proof (proj1 (Forall_forall _ _) F j' Hj').
           pose proof (proj1 (Forall_forall _ _) Hj j' Hj'). simpl in *. lia.
Qed.

Lemma combinations_groups (x : vec) (n_features degree : nat)
    (interaction_only include_bias : bool) (c : list nat) :
  c ∈ combinations x n_features degree interaction_only include_bias <->
  exists i, (if include_bias then 0 else 1) <= i <= degree /\
    c ∈ (if interaction_only then it_combinations
         else it_combinations_with_replacement) (seq 0 (length x)) i.
Proof.
  unfold combinations, range.
  rewrite list_elem_of_In, in_concat. setoid_rewrite in_map_iff.
  rewrite Nat.sub_0_r. split.
  - intros (l & (i & <- & Hi) & Hc). exists i.
    apply in_seq in Hi. rewrite list_elem_of_In.
    split; [destruct include_bias; simpl in *; lia|done].
  - intros (i & Hi & Hc). eexists. split; [exists i; split; [done|]|].
    + apply in_seq. destruct include_bias; simpl in *; lia.
    + by apply list_elem_of_In.
Qed.

Lemma combinations_features (x : vec) (n_features degree : nat)
    (interaction_only include_bias : bool) :
  Forall (Forall (fun j => j < length x))
    (combinations x n_features degree interaction_only include_bias).
Proof.
  apply Forall_forall. intros c (i & _ & Hc)%combinations_groups.
  destruct interaction_only.
  - apply it_combinations_seq in Hc as (_ & _ & F).
    eapply Forall_impl; [exact F|]. simpl. lia.
  - apply it_combinations_with_replacement_seq in Hc as (_ & _ & F).
    eapply Forall_impl; [exact F|]. simpl. lia.
Qed.

(** X13. [combinations] lists exactly the index tuples of the monomials of
    the model: the tuples of features of the global [x], of a length from
    [0] (from [1] without bias) to [degree], in increasing order; with
    [interaction_only] no feature twice.  The argument [n_features] has no
    part in it. *)
Theorem combinations_lists_the_monomials (x : vec) (n_features degree : nat)
    (interaction_only include_bias : bool) (c : list nat) :
  c ∈ combinations x n_features degree interaction_only include_bias <->
  (if include_bias then 0 else 1) <= length c <= degree /\
  ascending interaction_only c /\
  Forall (fun j => j < length x) c.
Proof.
  rewrite combinations_groups. unfold ascending. split.
  - intros (i & Hi & Hc). destruct interaction_only.
    + apply it_combinations_seq in Hc as (L & Hs & F).
      split; [by rewrite L|]. split; [done|].
      eapply Forall_impl; [exact F|]. simpl. lia.
    + apply it_combinations_with_replacement_seq in Hc as (L & Hs & F).
      split; [by rewrite L|]. split; [done|].
      eapply Forall_impl; [exact F|]. simpl. lia.
  - intros (L & Hs & F). exists (length c). split; [done|].
    destruct interaction_only.
    + apply it_combinations_seq. split; [done|]. split; [done|].
      eapply Forall_impl; [exact F|]. simpl. lia.
    + apply it_combinations_with_replacement_seq. split; [done|].
      split; [done|]. eapply Forall_impl; [exact F|]. simpl. lia.
Qed.

Lemma combinations_lists_the_monomials_witness :
  [0; 2] ∈ combinations [1; 2; 3]%Q 7 2 false true /\
  ~ [2; 0] ∈ combinations [1; 2; 3]%Q 7 2 false true.
Proof.
  split.
  - apply (combinations_lists_the_monomials [1; 2; 3]%Q 7 2 false true).
    split; [simpl; lia|]. split.
    + repeat constructor.
    + repeat constructor.
  - intros H.
    apply (combinations_lists_the_monomials [1; 2; 3]%Q 7 2 false true)
      in H as (_ & H & _).
    apply StronglySorted_inv in H as [_ H]. apply Forall_cons in H as [H _].
    lia.
Defined.

Lemma NoDup_map_cons (a : nat) (L : list (list nat)) :
  NoDup L -> NoDup (map (cons a) L).
Proof.
  intros H. change (NoDup (cons a <$> L)). apply NoDup_fmap_2; [|done].
  by intros c c' [= ->].
Qed.

Lemma it_combinations_NoDup (m : nat) : forall k r,
  NoDup (it_combinations (seq k m) r).
Proof.
  induction m as [|m IH]; intros k [|r]; simpl;
    try apply NoDup_singleton; try apply NoDup_nil_2.
  apply NoDup_app. split; [by apply NoDup_map_cons|]. split; [|done].
  intros c (c' & -> & _)%elem_of_map_cons (_ & _ & F)%it_combinations_seq.
  apply Forall_cons in F as [F _]. lia.
Qed.

Lemma it_combinations_with_replacement_NoDup (r : nat) : forall m k,
  NoDup (it_combinations_with_replacement (seq k m) r).
Proof.
  induction r as [|r IHr]; [intros; apply NoDup_singleton|].
  induction m as [|m IHm]; intros k; [apply NoDup_nil_2|].
  cbn [seq]. rewrite it_combinations_with_replacement_S.
  apply NoDup_app. split; [apply NoDup_map_cons, (IHr (S m) k)|].
  split; [|done].
  intros c (c' & -> & _)%elem_of_map_cons
    (_ & _ & F)%it_combinations_with_replacement_seq.
  apply Forall_cons in F as [F _]. lia.
Qed.

Lemma NoDup_concat_by_length (f : nat -> list (list nat)) (l : list nat) :
  NoDup l -> (forall i, NoDup (f i)) ->
  (forall i c, c ∈ f i -> length c = i) ->
  NoDup (concat (map f l)).
Proof.
  intros Hl Hf Hlen. induction Hl as [|i l Hi Hl IH]; simpl.
  - apply NoDup_nil_2.
  - apply NoDup_app. split; [done|]. split; [|done].
    intros c Hc Hc'. apply list_elem_of_In, in_concat in Hc' as (g & Hg & Hc').
    apply in_map_iff in Hg as (i' & <- & Hi').
    apply list_elem_of_In in Hc', Hi'.
    apply Hlen in Hc, Hc'. congruence.
Qed.

(** X14. No combination comes twice: the model has one coefficient for
    each monomial. *)
Theorem combinations_no_duplicates (x : vec) (n_features degree : nat)
    (interaction_only include_bias : bool) :
  NoDup (combinations x n_features degree interaction_only include_bias).
Proof.
  unfold combinations, range. apply NoDup_concat_by_length.
  - apply NoDup_seq.
  - intros i. rewrite Nat.sub_0_r. destruct interaction_only.
    + apply it_combinations_NoDup.
    + apply it_combinations_with_replacement_NoDup.
  - intros i c. rewrite Nat.sub_0_r. destruct interaction_only.
    + by intros (L & _)%it_combinations_seq.
    + by intros (L & _)%it_combinations_with_replacement_seq.
Qed.

Lemma it_combinations_1 (pool : list nat) :
  length (it_combinations pool 1) = length pool.
Proof.
  induction pool as [|a pool IH]; [done|].
  cbn [it_combinations]. rewrite length_app, length_map, it_combinations_0.
  simpl. lia.
Qed.

Lemma it_combinations_2 (pool : list nat) :
  2 * length (it_combinations pool 2) + length pool
  = length pool * length pool.
Proof.
  induction pool as [|a pool IH]; [done|].
  cbn [it_combinations]. rewrite length_app, length_map, it_combinations_1.
  cbn [length]. nia.
Qed.

Lemma it_combinations_with_replacement_1 (pool : list nat) :
  length (it_combinations_with_replacement pool 1) = length pool.
Proof.
  induction pool as [|a pool IH]; [done|].
  rewrite it_combinations_with_replacement_S, length_app, length_map, IH.
  reflexivity.
Qed.

Lemma it_combinations_with_replacement_2 (pool : list nat) :
  2 * length (it_combinations_with_replacement pool 2)
  = length pool * (length pool + 1).
Proof.
  induction pool as [|a pool IH]; [done|].
  rewrite it_combinations_with_replacement_S, length_app, length_map.
  rewrite it_combinations_with_replacement_1. cbn [length]. nia.
Qed.

(** X15. The number of coefficients a model of degree [2] needs: with the
    defaults [(n + 1) (n + 2) / 2] for [n] features; with [interaction_only]
    [(n * n + n + 2) / 2]; one less without the bias. *)
Theorem combinations_count_degree_2 (x : vec) (n_features : nat)
    (interaction_only include_bias : bool) :
  2 * length (combinations x n_features 2 interaction_only include_bias)
    + (if include_bias then 0 else 2)
  = if interaction_only then length x * length x + length x + 2
    else (length x + 1) * (length x + 2).
Proof.
  unfold combinations, range. rewrite Nat.sub_0_r.
  pose proof (it_combinations_1 (seq 0 (length x))) as H1.
  pose proof (it_combinations_2 (seq 0 (length x))) as H2.
  pose proof (it_combinations_with_replacement_1 (seq 0 (length x))) as H3.
  pose proof (it_combinations_with_replacement_2 (seq 0 (length x))) as H4.
  rewrite length_seq in H1, H2, H3, H4.
  set (pool := seq 0 (length x)) in *.
  destruct include_bias; cbn [negb].
  - change (seq 0 (2 + 1 - 0)) with [0; 1; 2]. cbn [map concat].
    rewrite !length_app. destruct interaction_only.
    + rewrite it_combinations_0, H1. cbn [length]. nia.
    + change (length (it_combinations_with_replacement pool 0)) with 1.
      rewrite H3. cbn [length]. nia.
  - change (seq 1 (2 + 1 - 1)) with [1; 2]. cbn [map concat].
    rewrite !length_app. destruct interaction_only.
    + rewrite H1. cbn [length]. nia.
    + rewrite H3. cbn [length]. nia.
Qed.

(** ** The polynomial model *)

Lemma item_Some (x : vec) (i : nat) (a : Q) : x !! i = Some a -> item x i = Ok a.
Proof. unfold item. by intros ->. Qed.

Lemma item_None (x : vec) (i : nat) :
  length x <= i -> item x i = Raise IndexError.
Proof. intros H. unfold item. by rewrite (lookup_ge_None_2 x i H). Qed.

(** One row of the loop: coefficient [i] is multiplied by the coordinates
    that [c] names. *)
Lemma polyn_row_Ok (x out : vec) (i : nat) (c : list nat) (o : Q) :
  out !! i = Some o -> Forall (fun j => j < length x) c ->
  polyn_row x out (i, c) = Ok (<[i := monomial x o c]> out).
Proof.
  unfold polyn_row. simpl. intros Ho Hc. revert out o Ho.
  induction Hc as [|j c Hj Hc IH]; intros out o Ho.
  - simpl. unfold monomial. simpl. by rewrite list_insert_id.
  - apply lookup_lt_is_Some_2 in Hj as [xj Hxj].
    simpl. unfold polyn_scale at 1.
    rewrite (item_Some _ _ _ Ho), (item_Some _ _ _ Hxj). simpl.
    rewrite (IH _ (o * xj)%Q).
    + rewrite list_insert_insert_eq. unfold monomial. simpl. by rewrite Hxj.
    + apply list_lookup_insert_eq. by eapply lookup_lt_Some.
Qed.

Lemma polyn_row_spec (x out : vec) (k : nat) (c : list nat) :
  (c <> [] -> k < length out) -> Forall (fun j => j < length x) c ->
  exists out1, polyn_row x out (k, c) = Ok out1 /\
    length out1 = length out /\
    forall i o, out !! i = Some o ->
      out1 !! i = Some (if decide (i = k) then monomial x o c else o).
Proof.
  intros Hk Hc. destruct c as [|j c].
  - exists out. split; [done|]. split; [done|]. intros i o Ho.
    by destruct (decide _).
  - destruct (lookup_lt_is_Some_2 out k) as [o0 Ho0]; [by apply Hk|].
    eexists. split; [by apply polyn_row_Ok|].
    split; [by rewrite length_insert|].
    intros i o Ho. destruct (decide (i = k)) as [->|Hne].
    + rewrite list_lookup_insert_eq; [|by eapply lookup_lt_Some]. congruence.
    + by rewrite list_lookup_insert_ne.
Qed.

(** The rows from [k] on. *)
Lemma polyn_rows_spec (x : vec) (combs : list (list nat)) : forall k out,
  (forall i c, combs !! i = Some c -> c <> [] -> k + i < length out) ->
  Forall (Forall (fun j => j < length x)) combs ->
  exists out',
    ofold (polyn_row x) (zip (seq k (length combs)) combs) out = Ok out' /\
    length out' = length out /\
    forall i o, out !! i = Some o ->
      out' !! i = Some (if decide (k <= i)
                        then monomial x o (default [] (combs !! (i - k)))
                        else o).
Proof.
  induction combs as [|c combs IH]; intros k out Hk Hc.
  - exists out. split; [done|]. split; [done|]. intros i o Ho.
    by destruct (decide _).
  - apply Forall_cons in Hc as [Hc Hcs].
    destruct (polyn_row_spec x out k c) as (out1 & H1 & L1 & G1); [|done|].
    { intros Hne. specialize (Hk 0 c eq_refl Hne). lia. }
    destruct (IH (S k) out1) as (out' & H' & L' & G'); [|done|].
    { intros i c' Hi Hne. rewrite L1. specialize (Hk (S i) c' Hi Hne). lia. }
    exists out'. split.
    { cbn [length seq zip zip_with ofold]. rewrite H1. exact H'. }
    split; [congruence|]. intros i o Ho.
    rewrite (G' i _ (G1 i o Ho)). f_equal.
    destruct (decide (i = k)) as [->|Hne].
    + destruct (decide (S k <= k)); [lia|].
      destruct (decide (k <= k)); [|lia]. by rewrite Nat.sub_diag.
    + destruct (decide (S k <= i)), (decide (k <= i)); try lia; [|done].
      by replace (i - k) with (S (i - S k)) by lia.
Qed.

(** X16. When [p] has a coefficient for every combination that names a
    feature, and [x] has the features of the global [x], [polyn] returns the
    sum of the terms: coefficient [i] times the coordinates of [x] named by
    combination [i], and every further coefficient of [p] as it is. *)
Theorem polyn_value (x_global x p : vec) (degree : nat)
    (interaction_only include_bias : bool) :
  length x_global <= length x ->
  (forall i c,
     combinations x_global (length x) degree interaction_only include_bias
       !! i = Some c -> c <> [] -> i < length p) ->
  polyn x_global x p degree interaction_only include_bias =
  Ok (vsum (polyn_terms x
        (combinations x_global (length x) degree interaction_only include_bias)
        p)).
Proof.
  intros Hx Hp. unfold polyn, enumerate.
  destruct (polyn_rows_spec x
    (combinations x_global (length x) degree interaction_only include_bias)
    0 p) as (out' & H' & L' & G').
  - intros i c Hi Hne. simpl. by eapply Hp.
  - eapply Forall_impl; [apply combinations_features|]. simpl. intros c Hc.
    eapply Forall_impl; [exact Hc|]. simpl. lia.
  - rewrite H'. simpl. do 2 f_equal. apply list_eq. intros i.
    unfold polyn_terms. rewrite list_lookup_imap.
    destruct (p !! i) as [o|] eqn:Ho.
    + rewrite (G' i o Ho). simpl. destruct (decide (0 <= i)); [|lia].
      by rewrite Nat.sub_0_r.
    + simpl. apply lookup_ge_None_2. rewrite L'. by apply lookup_ge_None_1.
Qed.

Lemma polyn_value_witness :
  exists v, polyn [1; 2; 3]%Q [1; 2; 3]%Q [1; 1; 1; 1; 1; 1; 1; 1; 1; 1]%Q
              2 false true = Ok v /\ (v == 32)%Q.
Proof.
  eexists. split.
  - apply (polyn_value [1; 2; 3]%Q [1; 2; 3]%Q
             [1; 1; 1; 1; 1; 1; 1; 1; 1; 1]%Q 2 false true).
    + simpl. lia.
    + intros i c Hi _. exact (lookup_lt_Some _ _ _ Hi).
  - vm_compute. reflexivity.
Defined.

Lemma polyn_row_cases (x out : vec) (k : nat) (c : list nat) :
  polyn_row x out (k, c) = Raise IndexError \/
  exists out1, polyn_row x out (k, c) = Ok out1 /\ length out1 = length out.
Proof.
  unfold polyn_row. simpl. revert out.
  induction c as [|j c IH]; intros out; simpl.
  - right. by exists out.
  - destruct (polyn_scale x k out j) as [out2|e] eqn:E; simpl.
    + assert (length out2 = length out) as L2.
      { unfold polyn_scale, item in E.
        destruct (out !! k); simpl in E; [|discriminate].
        destruct (x !! j); simpl in E; [|discriminate].
        injection E as <-. by rewrite length_insert. }
      destruct (IH out2) as [->|(out1 & -> & L)]; [by left|].
      right. exists out1. split; [done|congruence].
    + left. unfold polyn_scale, item in E.
      destruct (out !! k); simpl in E; [|congruence].
      destruct (x !! j); simpl in E; congruence.
Qed.

Lemma polyn_row_short (x out : vec) (k : nat) (c : list nat) :
  c <> [] -> length out <= k -> polyn_row x out (k, c) = Raise IndexError.
Proof.
  intros Hne Hk. destruct c as [|j c]; [done|].
  unfold polyn_row. simpl. unfold polyn_scale at 1.
  by rewrite (item_None _ _ Hk).
Qed.

Lemma polyn_rows_short (x : vec) (combs : list (list nat)) :
  forall k out i c,
    combs !! i = Some c -> c <> [] -> length out <= k + i ->
    ofold (polyn_row x) (zip (seq k (length combs)) combs) out
      = Raise IndexError.
Proof.
  induction combs as [|c0 combs IH]; intros k out [|i] c Hi Hne Hl;
    try discriminate Hi; cbn [length seq zip zip_with ofold].
  - injection Hi as ->. rewrite polyn_row_short; [done..|lia].
  - destruct (polyn_row_cases x out k c0) as [->|(out1 & -> & L)]; [done|].
    simpl. eapply IH; [exact Hi|done|lia].
Qed.

(** X17. When [p] has no coefficient for a combination that names a
    feature, [polyn] raises an [IndexError]. *)
Theorem polyn_short_coefficients (x_global x p : vec) (degree : nat)
    (interaction_only include_bias : bool) (i : nat) (c : list nat) :
  combinations x_global (length x) degree interaction_only include_bias
    !! i = Some c ->
  c <> [] -> length p <= i ->
  polyn x_global x p degree interaction_only include_bias = Raise IndexError.
Proof.
  intros Hi Hne Hp. unfold polyn, enumerate.
  by rewrite (polyn_rows_short x _ 0 p i c Hi Hne Hp).
Qed.

Lemma polyn_short_coefficients_witness :
  polyn [1; 2; 3]%Q [1; 2; 3]%Q [1; 1; 1; 1; 1; 1; 1; 1; 1]%Q 2 false true
    = Raise IndexError.
Proof.
  apply (polyn_short_coefficients [1; 2; 3]%Q [1; 2; 3]%Q
           [1; 1; 1; 1; 1; 1; 1; 1; 1]%Q 2 false true 9 [2; 2]).
  - reflexivity.
  - discriminate.
  - simpl. lia.
Defined.

(** X18. The model of the notebook, three features and degree [2] with the
    defaults: the ten coefficients are those of
    [1, x0, x1, x2, x0^2, x0 x1, x0 x2, x1^2, x1 x2, x2^2], the order of the
    columns of [PolynomialFeatures]. *)
Theorem polyn_three_features (x_global : vec) (x0 x1 x2 : Q)
    (p0 p1 p2 p3 p4 p5 p6 p7 p8 p9 : Q) :
  length x_global = 3 ->
  exists v,
    polyn x_global [x0; x1; x2] [p0; p1; p2; p3; p4; p5; p6; p7; p8; p9]
      2 false true = Ok v /\
    (v == p0 + p1 * x0 + p2 * x1 + p3 * x2
          + p4 * x0 * x0 + p5 * x0 * x1 + p6 * x0 * x2
          + p7 * x1 * x1 + p8 * x1 * x2 + p9 * x2 * x2)%Q.
Proof.
  intros Hx. destruct x_global as [|a0 [|a1 [|a2 [|? ?]]]]; try discriminate Hx.
  eexists. split; [reflexivity|]. unfold vsum. simpl. ring.
Qed.

Lemma polyn_three_features_witness :
  exists v,
    polyn [1; 2; 3]%Q [1; 2; 3]%Q [1; 0; 0; 0; 0; 0; 0; 0; 0; 1]%Q
      2 false true = Ok v /\ (v == 10)%Q.
Proof.
  destruct (polyn_three_features [1; 2; 3]%Q 1 2 3 1 0 0 0 0 0 0 0 0 1 eq_refl)
    as (v & Hv & E).
  exists v. split; [exact Hv|]. rewrite E. vm_compute. reflexivity.
Defined.

Lemma ofold_ext {A St} (body body' : St -> A -> outcome St) (l : list A) :
  (forall s a, a ∈ l -> body s a = body' s a) ->
  forall s, ofold body l s = ofold body' l s.
Proof.
  induction l as [|a l IH]; intros H s; simpl; [done|].
  rewrite (H s a); [|apply list_elem_of_here].
  destruct (body' s a) as [s'|e]; simpl; [|done].
  apply IH. intros s0 a0 Ha0. apply H. by apply list_elem_of_further.
Qed.

Lemma polyn_row_ext (x x' : vec) (k : nat) (c : list nat) :
  Forall (fun j => x !! j = x' !! j) c ->
  forall out, polyn_row x out (k, c) = polyn_row x' out (k, c).
Proof.
  intros Hc out. unfold polyn_row. simpl. apply ofold_ext.
  intros s j Hj. unfold polyn_scale, item.
  by rewrite (proj1 (Forall_forall _ _) Hc j Hj).
Qed.

(** X19. [polyn] reads the coordinates of its argument [x] that the global
    [x] of the notebook has, and no other: two arguments that agree on them
    give the same result, whatever their lengths. *)
Theorem polyn_reads_the_global_features (x_global x x' p : vec)
    (degree : nat) (interaction_only include_bias : bool) :
  (forall j, j < length x_global -> x !! j = x' !! j) ->
  polyn x_global x p degree interaction_only include_bias =
  polyn x_global x' p degree interaction_only include_bias.
Proof.
  intros Hx. unfold polyn.
  change (combinations x_global (length x') degree interaction_only
            include_bias)
    with (combinations x_global (length x) degree interaction_only
            include_bias).
  rewrite (ofold_ext (polyn_row x) (polyn_row x')); [done|].
  intros out [k c] Hc%elem_of_zip_r. apply polyn_row_ext.
  pose proof (proj1 (Forall_forall _ _)
    (combinations_features x_global (length x) degree interaction_only
       include_bias) c Hc) as F.
  eapply Forall_impl; [exact F|]. simpl. intros j Hj. by apply Hx.
Qed.

Lemma polyn_reads_the_global_features_witness :
  polyn [1; 2]%Q [3; 4]%Q [1; 1; 1; 1; 1; 1]%Q 2 false true =
  polyn [1; 2]%Q [3; 4; 5]%Q [1; 1; 1; 1; 1; 1]%Q 2 false true.
Proof.
  apply (polyn_reads_the_global_features [1; 2]%Q [3; 4]%Q [3; 4; 5]%Q).
  intros [|[|j]] Hj; [reflexivity|reflexivity|simpl in Hj; lia].
Defined.
